(** * WiredTigerRecordStore: a shallow embedding and its verified properties

    Source: src/mongo/db/storage/wiredtiger/wiredtiger_record_store.cpp

    The record store keeps a collection as a table of the key/value engine,
    keyed by the 64-bit representation of a RecordId.  The embedding follows
    the C++ code method by method:

    - 64-bit atomics ([AtomicInt64]) are integers of [Z] whose additions wrap
      ([wrap64]); arithmetic on [int64_t] locals is arithmetic of [Z] (signed
      overflow is undefined behaviour there);
    - the engine table is the list of its records in key order, a [WT_CURSOR]
      is a position in that list;
    - methods that change the store run in the state-and-exception monad [M]
      over the pair (operation context, record store): [invariant] and
      [invariantWTOK] failures abort, [massert] and [uassertStatusOK] throw;
    - what the method cannot decide itself (whether a mutex is free, what the
      random cursor draws, the return code of an engine truncate, the oplog
      key of a document) is read from an environment [Env];
    - engine calls go through WT_OP_CHECK, whose write-conflict exception is
      the business of the transaction layer; it is modelled where the record
      store catches it itself, in the capped eviction and in the reclaiming
      of the oplog, and where [insertRecord] turns the return code of the
      engine's insert into a status ([wtRCToStatus]).  Debug-only checks
      ([dassert]) and the identity of sessions are left out. *)

From Stdlib Require Import ZArith List Bool Lia Strings.Byte Sorting.Sorted.
Import ListNotations.
Local Open Scope Z_scope.

(** ** Machine integers *)

Definition wrap64 (z : Z) : Z := (z + 2 ^ 63) mod 2 ^ 64 - 2 ^ 63.

(** [AtomicWord<long long>::fetchAndAdd]: the value held BEFORE the addition
    is returned, the sum is stored. *)
Definition fetchAndAdd (held diff : Z) : Z * Z := (held, wrap64 (held + diff)).

(** [AtomicWord<long long>::addAndFetch]: the stored sum is returned. *)
Definition addAndFetch (held diff : Z) : Z * Z :=
  (wrap64 (held + diff), wrap64 (held + diff)).


(** ** Record ids, records, status codes *)

(** Modelled from the spec: class RecordId, whose declaration
    (mongo/db/record_id.h) lies outside the file embedded here.  "Opaque
    64-bit signed integer, strictly positive for normal records"; the
    default-constructed id is the null id. *)
Definition RecordId := Z.
Definition RecordId_null : RecordId := 0.
Definition isNull (r : RecordId) : bool := r =? 0.
Definition isNormal (r : RecordId) : bool := (0 <? r) && (r <? 2 ^ 63 - 1).

Definition RecordData := list byte.

Record Rec := mkRec { id : RecordId; data : RecordData }.

Definition size (d : RecordData) : Z := Z.of_nat (length d).

(** The error codes this file surfaces (mongo/base/error_codes.h). *)
Inductive ErrorCode :=
| BadValue
| IllegalOperation
| InvalidOptions
| InternalError (wtRet : Z).

Inductive Status :=
| Status_OK
| Status_Error (code : ErrorCode).

Inductive StatusWith (A : Type) :=
| SW_value (a : A)
| SW_status (code : ErrorCode).
Arguments SW_value {A} a.
Arguments SW_status {A} code.

Inductive Exception :=
| MsgAssertionException (code : Z)
| UserException (code : ErrorCode)
| WriteConflictException.

(** What a call does: return, throw, or stop the process on a failed
    [invariant]. *)
Inductive Outcome (A : Type) :=
| Returns (a : A)
| Throws (e : Exception)
| Aborts.
Arguments Returns {A} a.
Arguments Throws {A} e.
Arguments Aborts {A}.

(** ** The key/value engine: tables and cursors

    The engine (third_party/wiredtiger, behind wiredtiger.h) is an external
    collaborator of the record store; its cursor implementation lies outside
    the file embedded here.  The definitions of this section model it from the
    engine adapter contract of the specification (section 4.A: keys are 64-bit
    integers in key order, cursors offer search, search_near with a comparison
    sign in {-1,0,1}, next, prev, insert, remove; a range truncate) and from
    the record store's own comments on it. *)

Definition WT_NOTFOUND : Z := -31803.
Definition ENOENT : Z := 2.
Definition WT_ROLLBACK : Z := -31800.
Definition WT_PANIC : Z := -31804.

(** The records of a table, in key order. *)
Definition Table := list Rec.

Inductive WT_CURSOR :=
| Unpositioned
| At (i : nat).

(** Modelled from the spec: [WT_CURSOR::next].  An unpositioned cursor goes to
    the first entry of the table; stepping off the end reports WT_NOTFOUND and
    leaves the cursor unpositioned. *)
Definition wt_next (t : Table) (c : WT_CURSOR) : Z * WT_CURSOR :=
  match c with
  | Unpositioned =>
      match t with
      | [] => (WT_NOTFOUND, Unpositioned)
      | _ :: _ => (0, At 0)
      end
  | At i =>
      if (S i <? length t)%nat then (0, At (S i)) else (WT_NOTFOUND, Unpositioned)
  end.

(** Modelled from the spec: [WT_CURSOR::prev], the mirror image of [wt_next]:
    an unpositioned cursor goes to the last entry of the table. *)
Definition wt_prev (t : Table) (c : WT_CURSOR) : Z * WT_CURSOR :=
  match c with
  | Unpositioned =>
      match length t with
      | O => (WT_NOTFOUND, Unpositioned)
      | S n => (0, At n)
      end
  | At O => (WT_NOTFOUND, Unpositioned)
  | At (S i) => (0, At i)
  end.

(** Modelled from the spec: [WT_CURSOR::get_key] and [get_value], the record
    under a positioned cursor. *)
Definition wt_get (t : Table) (c : WT_CURSOR) : option Rec :=
  match c with
  | Unpositioned => None
  | At i => nth_error t i
  end.

(** Index of the first record whose key is not below [key]. *)
Fixpoint lower_bound (t : Table) (key : Z) : nat :=
  match t with
  | [] => O
  | r :: t' => if id r <? key then S (lower_bound t' key) else O
  end.

(** Modelled from the spec: [WT_CURSOR::search], exact match or WT_NOTFOUND. *)
Definition wt_search (t : Table) (key : Z) : Z * WT_CURSOR :=
  let i := lower_bound t key in
  match nth_error t i with
  | Some r => if id r =? key then (0, At i) else (WT_NOTFOUND, Unpositioned)
  | None => (WT_NOTFOUND, Unpositioned)
  end.

(** Modelled from the spec: [WT_CURSOR::search_near].  The exact match
    (cmp = 0) when there is one, else a neighbouring record: the smallest
    larger key (cmp = 1) or the largest smaller key (cmp = -1).  When both
    neighbours exist the engine picks; [landAfter] is its choice.
    WT_NOTFOUND on an empty table. *)
Definition wt_search_near (t : Table) (key : Z) (landAfter : bool)
  : Z * WT_CURSOR * Z :=
  let i := lower_bound t key in
  match nth_error t i with
  | Some r =>
      if id r =? key then (0, At i, 0)
      else match i with
           | O => (0, At O, 1)
           | S j => if landAfter then (0, At i, 1) else (0, At j, -1)
           end
  | None =>
      match i with
      | O => (WT_NOTFOUND, Unpositioned, 0)
      | S j => (0, At j, -1)
      end
  end.

(** Modelled from the spec: [WT_CURSOR::insert] with the engine's default
    overwrite configuration.  The value under an existing key is replaced, a
    new key goes to its place in key order. *)
Fixpoint wt_insert (t : Table) (key : Z) (value : RecordData) : Table :=
  match t with
  | [] => [mkRec key value]
  | r :: t' =>
      if id r <? key then r :: wt_insert t' key value
      else if id r =? key then mkRec key value :: t'
      else mkRec key value :: r :: t'
  end.

(** Modelled from the spec: [WT_CURSOR::remove] of the record under [key]. *)
Definition wt_remove (t : Table) (key : Z) : Table :=
  filter (fun r => negb (id r =? key)) t.

(** Modelled from the spec: [WT_SESSION::truncate(session, NULL, start, stop,
    NULL)], the engine's range truncate.  Every record whose key lies between
    the key of [start] and the key of [stop] (inclusive) goes; a NULL cursor
    leaves that side open. *)
Definition wt_truncate (t : Table) (start stop : option Z) : Table :=
  filter (fun r =>
            negb ((match start with Some lo => lo <=? id r | None => true end)
                  && (match stop with Some hi => id r <=? hi | None => true end)))
         t.

(** Keys of a table are strictly increasing. *)
Fixpoint key_ordered (t : Table) : bool :=
  match t with
  | [] => true
  | r :: t' =>
      match t' with
      | [] => true
      | r' :: _ => (id r <? id r') && key_ordered t'
      end
  end.

(** ** Oplog stones *)

Record Stone := mkStone { records : Z; bytes : Z; lastRecord : RecordId }.

(** [class WiredTigerRecordStore::OplogStones]: the stones, oldest first, and
    the counters of the stone being filled. *)
Record OplogStones := mkOplogStones {
  _stones : list Stone;
  _currentRecords : Z;
  _currentBytes : Z;
  _minBytesPerStone : Z;
  _numStonesToKeep : Z;
  firstRecord : RecordId
}.


(** ** The record store *)

Record WiredTigerRecordStore := mkRS {
  _isCapped : bool;
  _isOplog : bool;
  _cappedMaxSize : Z;
  _cappedMaxSizeSlack : Z;
  _cappedMaxDocs : Z;
  _cappedSleep : Z;
  _cappedSleepMS : Z;
  _cappedDeleteCallback : option (RecordId -> RecordData -> Status);
  _useOplogHack : bool;
  _uncommittedDiskLocs : list RecordId;
  _oplog_highestSeen : RecordId;
  _nextIdNum : Z;
  _dataSize : Z;
  _numRecords : Z;
  (** the entry of [_uri] in the size storer's cache, when there is a size
      storer: (numRecords, dataSize) *)
  _sizeStorer : option (Z * Z);
  _sizeStorerCounter : Z;
  _shuttingDown : bool;
  _oplogStones : option OplogStones;
  (** the engine table under [_uri] *)
  table : Table
}.

(** Field updates. *)

Definition set_cappedSleep (v : Z) (rs : WiredTigerRecordStore)
  : WiredTigerRecordStore :=
  mkRS (_isCapped rs) (_isOplog rs) (_cappedMaxSize rs)
       (_cappedMaxSizeSlack rs) (_cappedMaxDocs rs) v (_cappedSleepMS rs)
       (_cappedDeleteCallback rs) (_useOplogHack rs) (_uncommittedDiskLocs rs)
       (_oplog_highestSeen rs) (_nextIdNum rs) (_dataSize rs) (_numRecords rs)
       (_sizeStorer rs) (_sizeStorerCounter rs) (_shuttingDown rs)
       (_oplogStones rs) (table rs).

Definition set_cappedSleepMS (v : Z) (rs : WiredTigerRecordStore)
  : WiredTigerRecordStore :=
  mkRS (_isCapped rs) (_isOplog rs) (_cappedMaxSize rs)
       (_cappedMaxSizeSlack rs) (_cappedMaxDocs rs) (_cappedSleep rs) v
       (_cappedDeleteCallback rs) (_useOplogHack rs) (_uncommittedDiskLocs rs)
       (_oplog_highestSeen rs) (_nextIdNum rs) (_dataSize rs) (_numRecords rs)
       (_sizeStorer rs) (_sizeStorerCounter rs) (_shuttingDown rs)
       (_oplogStones rs) (table rs).

Definition set_uncommittedDiskLocs (v : list RecordId) (rs : WiredTigerRecordStore)
  : WiredTigerRecordStore :=
  mkRS (_isCapped rs) (_isOplog rs) (_cappedMaxSize rs)
       (_cappedMaxSizeSlack rs) (_cappedMaxDocs rs) (_cappedSleep rs)
       (_cappedSleepMS rs) (_cappedDeleteCallback rs) (_useOplogHack rs) v
       (_oplog_highestSeen rs) (_nextIdNum rs) (_dataSize rs) (_numRecords rs)
       (_sizeStorer rs) (_sizeStorerCounter rs) (_shuttingDown rs)
       (_oplogStones rs) (table rs).

Definition set_oplog_highestSeen (v : RecordId) (rs : WiredTigerRecordStore)
  : WiredTigerRecordStore :=
  mkRS (_isCapped rs) (_isOplog rs) (_cappedMaxSize rs)
       (_cappedMaxSizeSlack rs) (_cappedMaxDocs rs) (_cappedSleep rs)
       (_cappedSleepMS rs) (_cappedDeleteCallback rs) (_useOplogHack rs)
       (_uncommittedDiskLocs rs) v (_nextIdNum rs) (_dataSize rs)
       (_numRecords rs) (_sizeStorer rs) (_sizeStorerCounter rs)
       (_shuttingDown rs) (_oplogStones rs) (table rs).

Definition set_nextIdNum (v : Z) (rs : WiredTigerRecordStore)
  : WiredTigerRecordStore :=
  mkRS (_isCapped rs) (_isOplog rs) (_cappedMaxSize rs)
       (_cappedMaxSizeSlack rs) (_cappedMaxDocs rs) (_cappedSleep rs)
       (_cappedSleepMS rs) (_cappedDeleteCallback rs) (_useOplogHack rs)
       (_uncommittedDiskLocs rs) (_oplog_highestSeen rs) v (_dataSize rs)
       (_numRecords rs) (_sizeStorer rs) (_sizeStorerCounter rs)
       (_shuttingDown rs) (_oplogStones rs) (table rs).

Definition set_dataSize (v : Z) (rs : WiredTigerRecordStore)
  : WiredTigerRecordStore :=
  mkRS (_isCapped rs) (_isOplog rs) (_cappedMaxSize rs)
       (_cappedMaxSizeSlack rs) (_cappedMaxDocs rs) (_cappedSleep rs)
       (_cappedSleepMS rs) (_cappedDeleteCallback rs) (_useOplogHack rs)
       (_uncommittedDiskLocs rs) (_oplog_highestSeen rs) (_nextIdNum rs) v
       (_numRecords rs) (_sizeStorer rs) (_sizeStorerCounter rs)
       (_shuttingDown rs) (_oplogStones rs) (table rs).

Definition set_numRecords (v : Z) (rs : WiredTigerRecordStore)
  : WiredTigerRecordStore :=
  mkRS (_isCapped rs) (_isOplog rs) (_cappedMaxSize rs)
       (_cappedMaxSizeSlack rs) (_cappedMaxDocs rs) (_cappedSleep rs)
       (_cappedSleepMS rs) (_cappedDeleteCallback rs) (_useOplogHack rs)
       (_uncommittedDiskLocs rs) (_oplog_highestSeen rs) (_nextIdNum rs)
       (_dataSize rs) v (_sizeStorer rs) (_sizeStorerCounter rs)
       (_shuttingDown rs) (_oplogStones rs) (table rs).

Definition set_sizeStorer (v : option (Z * Z)) (rs : WiredTigerRecordStore)
  : WiredTigerRecordStore :=
  mkRS (_isCapped rs) (_isOplog rs) (_cappedMaxSize rs)
       (_cappedMaxSizeSlack rs) (_cappedMaxDocs rs) (_cappedSleep rs)
       (_cappedSleepMS rs) (_cappedDeleteCallback rs) (_useOplogHack rs)
       (_uncommittedDiskLocs rs) (_oplog_highestSeen rs) (_nextIdNum rs)
       (_dataSize rs) (_numRecords rs) v (_sizeStorerCounter rs)
       (_shuttingDown rs) (_oplogStones rs) (table rs).

Definition set_sizeStorerCounter (v : Z) (rs : WiredTigerRecordStore)
  : WiredTigerRecordStore :=
  mkRS (_isCapped rs) (_isOplog rs) (_cappedMaxSize rs)
       (_cappedMaxSizeSlack rs) (_cappedMaxDocs rs) (_cappedSleep rs)
       (_cappedSleepMS rs) (_cappedDeleteCallback rs) (_useOplogHack rs)
       (_uncommittedDiskLocs rs) (_oplog_highestSeen rs) (_nextIdNum rs)
       (_dataSize rs) (_numRecords rs) (_sizeStorer rs) v (_shuttingDown rs)
       (_oplogStones rs) (table rs).

Definition set_table (v : Table) (rs : WiredTigerRecordStore)
  : WiredTigerRecordStore :=
  mkRS (_isCapped rs) (_isOplog rs) (_cappedMaxSize rs)
       (_cappedMaxSizeSlack rs) (_cappedMaxDocs rs) (_cappedSleep rs)
       (_cappedSleepMS rs) (_cappedDeleteCallback rs) (_useOplogHack rs)
       (_uncommittedDiskLocs rs) (_oplog_highestSeen rs) (_nextIdNum rs)
       (_dataSize rs) (_numRecords rs) (_sizeStorer rs)
       (_sizeStorerCounter rs) (_shuttingDown rs) (_oplogStones rs) v.

(** ** Operation context and registered changes *)

(** The [RecoveryUnit::Change] classes of the file. *)
Inductive Change :=
| CappedInsertChange (loc : RecordId)
| NumRecordsChange (diff : Z)
| DataSizeChange (amount : Z)
| OplogStones_InsertChange (bytesInserted : Z) (justInserted : RecordId)
| OplogStones_TruncateChange.

(** The operation context with its recovery unit: the changes registered so
    far (oldest first), the oplog read-till point and whether a storage
    transaction is active. *)
Record OperationContext := mkTxn {
  changes : list Change;
  oplogReadTill : RecordId;
  inActiveTxn : bool
}.

(** ** Environment *)

Record Env := mkEnv {
  (** [_cappedDeleterMutex.try_lock()] succeeds *)
  try_lock : bool;
  (** [try_lock_for(200ms)] succeeds, and the time it took *)
  try_lock_for : bool;
  delayMS : Z;
  (** an engine call of the eviction's side transaction meets a write
      conflict *)
  evictionConflict : bool;
  (** return code of the eviction's [session->truncate] *)
  truncateRet : Z;
  (** return code of [c->insert] in [insertRecord] *)
  insertRet : Z;
  (** [search_near] lands on the larger neighbour when it may choose *)
  landAfter : bool;
  (** [oploghack::extractKey] (mongo/db/storage/oplog_hack.h) *)
  extractKey : RecordData -> StatusWith RecordId;
  (** the n-th draw of the random cursor *)
  nextRandom : nat -> option Rec
}.

(** ** The monad of store-changing methods *)

Definition State := (OperationContext * WiredTigerRecordStore)%type.

Definition M (A : Type) := State -> Outcome (A * State).

Definition ret {A} (a : A) : M A := fun st => Returns (a, st).

Definition bind {A B} (m : M A) (f : A -> M B) : M B :=
  fun st =>
    match m st with
    | Returns (a, st') => f a st'
    | Throws e => Throws e
    | Aborts => Aborts
    end.

Declare Scope m_scope.
Delimit Scope m_scope with M.
Notation "x <- m ;; k" := (bind m (fun x => k))
  (at level 61, m at next level, right associativity) : m_scope.
Notation "m ;; k" := (bind m (fun _ => k))
  (at level 61, right associativity) : m_scope.
Local Open Scope m_scope.

Definition throw {A} (e : Exception) : M A := fun _ => Throws e.
Definition abort {A} : M A := fun _ => Aborts.

Definition invariant (b : bool) : M unit := if b then ret tt else abort.
Definition invariantWTOK (r : Z) : M unit := invariant (r =? 0).
Definition massert (code : Z) (b : bool) : M unit :=
  if b then ret tt else throw (MsgAssertionException code).
Definition uassertStatusOK (s : Status) : M unit :=
  match s with
  | Status_OK => ret tt
  | Status_Error c => throw (UserException c)
  end.

(** Modelled from the spec: [wtRCToStatus] at a return code that is not 0;
    the function (wiredtiger_util.h) lies outside the file embedded here.
    "StorageConflict (transient) - engine write-conflict; operation retried by
    outer layer": the engine's write-conflict code, WT_ROLLBACK, leaves the
    method as a WriteConflictException and is no status of its own.  A panic
    of the engine, WT_PANIC, is fatal.  Every other code comes back as the
    status made from it, written [InternalError] with the code. *)
Definition wtRCToStatus {A} (retCode : Z) : M (StatusWith A) :=
  if retCode =? WT_ROLLBACK then throw WriteConflictException
  else if retCode =? WT_PANIC then abort
  else ret (SW_status (InternalError retCode)).

Definition getRS : M WiredTigerRecordStore := fun st => Returns (snd st, st).
Definition getTxn : M OperationContext := fun st => Returns (fst st, st).
Definition modifyRS (f : WiredTigerRecordStore -> WiredTigerRecordStore) : M unit :=
  fun st => Returns (tt, (fst st, f (snd st))).
Definition putTxn (txn : OperationContext) : M unit :=
  fun st => Returns (tt, (txn, snd st)).

(** [txn->recoveryUnit()->registerChange(change)] *)
Definition registerChange (ch : Change) : M unit :=
  fun st =>
    Returns (tt, ({| changes := changes (fst st) ++ [ch];
                     oplogReadTill := oplogReadTill (fst st);
                     inActiveTxn := inActiveTxn (fst st) |}, snd st)).

(** ** Methods of the record store *)

Section Methods.

Variable env : Env.

(** *** Size counters *)

(** [WiredTigerRecordStore::_changeNumRecords] *)
Definition _changeNumRecords (diff : Z) : M unit :=
  registerChange (NumRecordsChange diff) ;;
  rs <- getRS ;;
  let '(old, sum) := fetchAndAdd (_numRecords rs) diff in
  modifyRS (set_numRecords sum) ;;
  if old <? 0 then modifyRS (set_numRecords (Z.max diff 0)) else ret tt.

(** [WiredTigerRecordStore::_increaseDataSize]; [withTxn] is false for the
    call with a NULL operation context. *)
Definition _increaseDataSize (withTxn : bool) (amount : Z) : M unit :=
  (if withTxn then registerChange (DataSizeChange amount) else ret tt) ;;
  rs <- getRS ;;
  let '(old, sum) := fetchAndAdd (_dataSize rs) amount in
  modifyRS (set_dataSize sum) ;;
  (if old <? 0 then modifyRS (set_dataSize (Z.max amount 0)) else ret tt) ;;
  rs <- getRS ;;
  match _sizeStorer rs with
  | None => ret tt
  | Some _ =>
      let counter := _sizeStorerCounter rs in
      modifyRS (set_sizeStorerCounter (counter + 1)) ;;
      if Z.rem counter 1000 =? 0
      then modifyRS (set_sizeStorer (Some (_numRecords rs, _dataSize rs)))
      else ret tt
  end.

(** [WiredTigerRecordStore::updateStatsAfterRepair] *)
Definition updateStatsAfterRepair (numRecords dataSize : Z) : M unit :=
  modifyRS (set_numRecords numRecords) ;;
  modifyRS (set_dataSize dataSize) ;;
  rs <- getRS ;;
  match _sizeStorer rs with
  | None => ret tt
  | Some _ => modifyRS (set_sizeStorer (Some (numRecords, dataSize)))
  end.

(** *** Uncommitted record ids *)

(** [WiredTigerRecordStore::isCappedHidden] *)
Definition isCappedHidden (rs : WiredTigerRecordStore) (loc : RecordId) : bool :=
  match _uncommittedDiskLocs rs with
  | [] => false
  | front :: _ => front <=? loc
  end.

(** [WiredTigerRecordStore::lowestCappedHiddenRecord] *)
Definition lowestCappedHiddenRecord (rs : WiredTigerRecordStore) : RecordId :=
  match _uncommittedDiskLocs rs with
  | [] => RecordId_null
  | front :: _ => front
  end.

(** [std::find] followed by [erase]: the first occurrence goes. *)
Fixpoint erase_first (loc : RecordId) (l : list RecordId) : option (list RecordId) :=
  match l with
  | [] => None
  | x :: l' =>
      if x =? loc then Some l'
      else match erase_first loc l' with
           | Some l'' => Some (x :: l'')
           | None => None
           end
  end.

(** [WiredTigerRecordStore::dealtWithCappedLoc] *)
Definition dealtWithCappedLoc (loc : RecordId) : M unit :=
  rs <- getRS ;;
  match erase_first loc (_uncommittedDiskLocs rs) with
  | None => abort
  | Some l => modifyRS (set_uncommittedDiskLocs l)
  end.

(** [WiredTigerRecordStore::_addUncommitedDiskLoc_inlock] *)
Definition _addUncommitedDiskLoc_inlock (loc : RecordId) : M unit :=
  rs <- getRS ;;
  modifyRS (set_uncommittedDiskLocs (_uncommittedDiskLocs rs ++ [loc])) ;;
  registerChange (CappedInsertChange loc) ;;
  modifyRS (set_oplog_highestSeen loc).

(** [WiredTigerRecordStore::_nextId] *)
Definition _nextId : M RecordId :=
  rs <- getRS ;;
  invariant (negb (_useOplogHack rs)) ;;
  let '(out, sum) := fetchAndAdd (_nextIdNum rs) 1 in
  modifyRS (set_nextIdNum sum) ;;
  invariant (isNormal out) ;;
  ret out.

(** The rollback side of the store's changes: [CappedInsertChange::rollback],
    [NumRecordsChange::rollback], [DataSizeChange::rollback]; the changes of
    the oplog stones do nothing on rollback. *)
Definition rollback (ch : Change) : M unit :=
  match ch with
  | CappedInsertChange loc => dealtWithCappedLoc loc
  | NumRecordsChange diff =>
      rs <- getRS ;;
      modifyRS (set_numRecords (snd (fetchAndAdd (_numRecords rs) (- diff))))
  | DataSizeChange amount => _increaseDataSize false (- amount)
  | OplogStones_InsertChange _ _ => ret tt
  | OplogStones_TruncateChange => ret tt
  end.

(** *** Point lookups *)

(** [WiredTigerRecordStore::findRecord]; [out] is the caller's buffer, the
    result pairs the returned flag with the buffer after the call. *)
Definition findRecord (rs : WiredTigerRecordStore) (loc : RecordId)
           (out : RecordData) : Outcome (bool * RecordData) :=
  let '(r, c) := wt_search (table rs) loc in
  if r =? WT_NOTFOUND then Returns (false, out)
  else if negb (r =? 0) then Aborts
  else match wt_get (table rs) c with
       | None => Aborts
       | Some rec => Returns (true, data rec)
       end.

(** [WiredTigerRecordStore::dataFor] *)
Definition dataFor (rs : WiredTigerRecordStore) (loc : RecordId)
  : Outcome RecordData :=
  let '(r, c) := wt_search (table rs) loc in
  if r =? WT_NOTFOUND then Throws (MsgAssertionException 28556)
  else if negb (r =? 0) then Aborts
  else match wt_get (table rs) c with
       | None => Aborts
       | Some rec => Returns (data rec)
       end.

(** *** Capped eviction *)

(** [WiredTigerRecordStore::cappedAndNeedDelete] *)
Definition cappedAndNeedDelete (rs : WiredTigerRecordStore) : bool :=
  if negb (_isCapped rs) then false
  else if _cappedMaxSize rs <=? _dataSize rs then true
  else if negb (_cappedMaxDocs rs =? -1) && (_cappedMaxDocs rs <? _numRecords rs)
       then true
  else false.

(** The locals of the eviction loop. *)
Record EvictScan := mkScan {
  scan_c : WT_CURSOR;
  scan_ret : Z;
  newestOld : RecordId;
  sizeSaved : Z;
  docsRemoved : Z
}.

(** The [while] loop of [cappedDeleteAsNeeded_inlock].  Every turn that goes
    on moves the cursor one record forward, so [length table + 1] units of
    [fuel] are never used up ([evictScan_fuel] below); the loop throws when
    the delete callback answers with an error. *)
Fixpoint evictScan (fuel : nat) (rs : WiredTigerRecordStore)
         (justInserted : RecordId) (sizeOverCap docsOverCap : Z)
         (s : EvictScan) : Outcome EvictScan :=
  if ((sizeSaved s <? sizeOverCap) || (docsRemoved s <? docsOverCap))
     && (docsRemoved s <? 20000)
  then
    let '(r, c) := wt_next (table rs) (scan_c s) in
    if r =? 0 then
      match fuel with
      | O => Aborts
      | S fuel' =>
          match wt_get (table rs) c with
          | None => Aborts
          | Some old =>
              if justInserted <=? id old
              then Returns (mkScan c r (id old) (sizeSaved s) (docsRemoved s))
              else if _shuttingDown rs
              then Returns (mkScan c r (id old) (sizeSaved s) (docsRemoved s))
              else
                let s' := mkScan c r (id old) (sizeSaved s + size (data old))
                                 (docsRemoved s + 1) in
                match _cappedDeleteCallback rs with
                | None => evictScan fuel' rs justInserted sizeOverCap docsOverCap s'
                | Some aboutToDeleteCapped =>
                    match aboutToDeleteCapped (id old) (data old) with
                    | Status_OK =>
                        evictScan fuel' rs justInserted sizeOverCap docsOverCap s'
                    | Status_Error code => Throws (UserException code)
                    end
                end
          end
      end
    else Returns (mkScan c r (newestOld s) (sizeSaved s) (docsRemoved s))
  else Returns s.

(** Where the range to truncate ends: "if we scanned to the end of the
    collection or past our insert, go back one"; the return code of that
    step and the cursor. *)
Definition truncateEnd (t : Table) (justInserted : RecordId) (s : EvictScan)
  : Z * WT_CURSOR :=
  if (scan_ret s =? WT_NOTFOUND) || (justInserted <=? newestOld s)
  then wt_prev t (scan_c s)
  else (scan_ret s, scan_c s).

(** Records a cursor at [c] has still before it. *)
Definition remaining (t : Table) (c : WT_CURSOR) : nat :=
  match c with
  | Unpositioned => length t
  | At i => length t - S i
  end.

(** [WiredTigerRecordStore::cappedDeleteAsNeeded_inlock].  The work is done
    under a recovery unit of its own, which is dropped at the end: the changes
    it registers never reach the caller's recovery unit. *)
Definition cappedDeleteAsNeeded_inlock (justInserted : RecordId) : M Z :=
  realRecoveryUnit <- getTxn ;;
  putTxn (mkTxn [] RecordId_null false) ;;
  rs <- getRS ;;
  let dataSize := _dataSize rs in
  let numRecords := _numRecords rs in
  let sizeOverCap :=
    if _cappedMaxSize rs <? dataSize then dataSize - _cappedMaxSize rs else 0 in
  let docsOverCap :=
    if negb (_cappedMaxDocs rs =? -1) && (_cappedMaxDocs rs <? numRecords)
    then numRecords - _cappedMaxDocs rs else 0 in
  if evictionConflict env then
    (* catch (const WriteConflictException&) *)
    putTxn realRecoveryUnit ;; ret 0
  else
    match evictScan (S (length (table rs))) rs justInserted sizeOverCap docsOverCap
                    (mkScan Unpositioned 0 RecordId_null 0 0) with
    | Aborts => abort
    | Throws e => throw e
    | Returns s =>
        (if negb (scan_ret s =? WT_NOTFOUND) then invariantWTOK (scan_ret s)
         else ret tt) ;;
        if 0 <? docsRemoved s then
          let '(r, c) := truncateEnd (table rs) justInserted s in
          invariantWTOK r ;;
          let '(r', start) := wt_next (table rs) Unpositioned in
          invariantWTOK r' ;;
          match wt_get (table rs) start, wt_get (table rs) c with
          | Some first, Some last =>
              if (truncateRet env =? ENOENT) || (truncateRet env =? WT_NOTFOUND)
              then putTxn realRecoveryUnit ;; ret 0
              else
                invariantWTOK (truncateRet env) ;;
                modifyRS (set_table
                            (wt_truncate (table rs) (Some (id first)) (Some (id last)))) ;;
                _changeNumRecords (- docsRemoved s) ;;
                _increaseDataSize true (- sizeSaved s) ;;
                putTxn realRecoveryUnit ;;
                ret (docsRemoved s)
          | _, _ => abort
          end
        else putTxn realRecoveryUnit ;; ret (docsRemoved s)
    end.

(** [WiredTigerRecordStore::cappedDeleteAsNeeded] *)
Definition cappedDeleteAsNeeded (justInserted : RecordId) : M Z :=
  rs <- getRS ;;
  invariant (match _oplogStones rs with None => true | Some _ => false end) ;;
  if negb (cappedAndNeedDelete rs) then ret 0
  else if negb (_cappedMaxDocs rs =? -1) then
    (* lock.lock() *)
    cappedDeleteAsNeeded_inlock justInserted
  else if try_lock env then cappedDeleteAsNeeded_inlock justInserted
  else if _dataSize rs - _cappedMaxSize rs <? _cappedMaxSizeSlack rs then ret 0
  else
    modifyRS (set_cappedSleep (snd (fetchAndAdd (_cappedSleep rs) 1))) ;;
    modifyRS (set_cappedSleepMS (snd (fetchAndAdd (_cappedSleepMS rs) (delayMS env)))) ;;
    if negb (try_lock_for env) then ret 0
    else if _dataSize rs - _cappedMaxSize rs <? 2 * _cappedMaxSizeSlack rs then ret 0
    else cappedDeleteAsNeeded_inlock justInserted.

(** *** Insert, update, delete, truncate *)

(** [WiredTigerRecordStore::insertRecord(txn, data, len, enforceQuota)];
    [len] is the length of [data]. *)
Definition insertRecord (data : RecordData) : M (StatusWith RecordId) :=
  let len := size data in
  rs <- getRS ;;
  if _isCapped rs && (_cappedMaxSize rs <? len) then ret (SW_status BadValue)
  else
    chosen <-
      (if _useOplogHack rs then
         match extractKey env data with
         | SW_status code => ret (SW_status code)
         | SW_value loc =>
             (if _oplog_highestSeen rs <? loc
              then modifyRS (set_oplog_highestSeen loc) else ret tt) ;;
             ret (SW_value loc)
         end
       else if _isCapped rs then
         loc <- _nextId ;;
         _addUncommitedDiskLoc_inlock loc ;;
         ret (SW_value loc)
       else
         loc <- _nextId ;;
         ret (SW_value loc)) ;;
    match chosen with
    | SW_status code => ret (SW_status code)
    | SW_value loc =>
        if negb (insertRet env =? 0)
        then wtRCToStatus (insertRet env)
        else
          rs <- getRS ;;
          modifyRS (set_table (wt_insert (table rs) loc data)) ;;
          _changeNumRecords 1 ;;
          _increaseDataSize true len ;;
          match _oplogStones rs with
          | Some _ =>
              (* updateCurrentStoneAfterInsertOnCommit *)
              registerChange (OplogStones_InsertChange len loc) ;;
              ret (SW_value loc)
          | None =>
              cappedDeleteAsNeeded loc ;;
              ret (SW_value loc)
          end
    end.

(** [WiredTigerRecordStore::updateRecord] *)
Definition updateRecord (loc : RecordId) (data : RecordData)
  : M (StatusWith RecordId) :=
  let len := size data in
  rs <- getRS ;;
  let '(r, c) := wt_search (table rs) loc in
  invariantWTOK r ;;
  match wt_get (table rs) c with
  | None => abort
  | Some (mkRec _ old_value) =>
      let old_length := size old_value in
      if (match _oplogStones rs with Some _ => true | None => false end)
         && negb (len =? old_length)
      then ret (SW_status IllegalOperation)
      else
        modifyRS (set_table (wt_insert (table rs) loc data)) ;;
        _increaseDataSize true (len - old_length) ;;
        match _oplogStones rs with
        | Some _ => ret (SW_value loc)
        | None => cappedDeleteAsNeeded loc ;; ret (SW_value loc)
        end
  end.

(** [WiredTigerRecordStore::deleteRecord] *)
Definition deleteRecord (loc : RecordId) : M unit :=
  rs <- getRS ;;
  invariant (negb (_isCapped rs)) ;;
  let '(r, c) := wt_search (table rs) loc in
  invariantWTOK r ;;
  match wt_get (table rs) c with
  | None => abort
  | Some old_value =>
      let old_length := size (data old_value) in
      modifyRS (set_table (wt_remove (table rs) loc)) ;;
      _changeNumRecords (-1) ;;
      _increaseDataSize true (- old_length)
  end.

(** [WiredTigerRecordStore::truncate] *)
Definition truncate : M Status :=
  rs <- getRS ;;
  let '(r, start) := wt_next (table rs) Unpositioned in
  if r =? WT_NOTFOUND then ret Status_OK
  else
    invariantWTOK r ;;
    match wt_get (table rs) start with
    | None => abort
    | Some first =>
        modifyRS (set_table (wt_truncate (table rs) (Some (id first)) None)) ;;
        _changeNumRecords (- _numRecords rs) ;;
        _increaseDataSize true (- _dataSize rs) ;;
        match _oplogStones rs with
        | Some _ =>
            (* clearStonesOnCommit *)
            registerChange OplogStones_TruncateChange ;; ret Status_OK
        | None => ret Status_OK
        end
    end.

(** *** Cursors *)

(** [class WiredTigerRecordStore::Cursor]; [_cursor] is the optional engine
    cursor, absent after [detachFromOperationContext]. *)
Record Cursor := mkCursor {
  _forward : bool;
  _cursor : option WT_CURSOR;
  _eof : bool;
  _lastReturnedId : RecordId;
  _readUntilForOplog : RecordId
}.

(** The constructor [Cursor(txn, rs, forward)]. *)
Definition Cursor_new (txn : OperationContext) (forward : bool) : Cursor :=
  mkCursor forward (Some Unpositioned) false RecordId_null (oplogReadTill txn).

(** [Cursor::isVisible] *)
Definition isVisible (rs : WiredTigerRecordStore) (cur : Cursor) (id : RecordId)
  : bool :=
  if negb (_isCapped rs) then true
  else if isNull (_readUntilForOplog cur) || negb (_isOplog rs)
  then negb (isCappedHidden rs id)
  else if id =? _readUntilForOplog cur then negb (isCappedHidden rs id)
  else id <? _readUntilForOplog cur.

(** [Cursor::next]: the record returned, if any, and the cursor afterwards.
    Calling it on a detached cursor dereferences an empty optional. *)
Definition Cursor_next (rs : WiredTigerRecordStore) (cur : Cursor)
  : Outcome (option Rec * Cursor) :=
  if _eof cur then Returns (None, cur)
  else
    match _cursor cur with
    | None => Aborts
    | Some c =>
        let atEof c' :=
          mkCursor (_forward cur) (Some c') true (_lastReturnedId cur)
                   (_readUntilForOplog cur) in
        let advance (mustAdvance : bool) (c1 : WT_CURSOR) :=
          let '(r, c2) :=
            if mustAdvance
            then (if _forward cur then wt_next (table rs) c1 else wt_prev (table rs) c1)
            else (0, c1) in
          if r =? WT_NOTFOUND then Returns (None, atEof c2)
          else if negb (r =? 0) then Aborts
          else
            match wt_get (table rs) c2 with
            | None => Aborts
            | Some rec =>
                if negb (isVisible rs cur (id rec)) then Returns (None, atEof c2)
                else Returns (Some rec,
                              mkCursor (_forward cur) (Some c2) (_eof cur) (id rec)
                                       (_readUntilForOplog cur))
            end in
        if isNull (_lastReturnedId cur) && negb (_forward cur) && _isCapped rs then
          (* seek to the highest visible record *)
          let reverseCappedInitialSeekPoint :=
            if isNull (_readUntilForOplog cur) then lowestCappedHiddenRecord rs
            else _readUntilForOplog cur in
          if negb (isNull reverseCappedInitialSeekPoint) then
            let '(seekRet, c1, cmp) :=
              wt_search_near (table rs) reverseCappedInitialSeekPoint (landAfter env) in
            if seekRet =? WT_NOTFOUND then Returns (None, atEof c1)
            else if negb (seekRet =? 0) then Aborts
            else advance (if isCappedHidden rs reverseCappedInitialSeekPoint
                          then 0 <=? cmp else 0 <? cmp) c1
          else advance true c
        else advance true c
    end.

(** [Cursor::seekExact] *)
Definition Cursor_seekExact (rs : WiredTigerRecordStore) (cur : Cursor)
           (id : RecordId) : Outcome (option Rec * Cursor) :=
  match _cursor cur with
  | None => Aborts
  | Some _ =>
      let '(seekRet, c) := wt_search (table rs) id in
      if seekRet =? WT_NOTFOUND
      then Returns (None, mkCursor (_forward cur) (Some c) true (_lastReturnedId cur)
                                   (_readUntilForOplog cur))
      else if negb (seekRet =? 0) then Aborts
      else match wt_get (table rs) c with
           | None => Aborts
           | Some rec =>
               Returns (Some (mkRec id (data rec)),
                        mkCursor (_forward cur) (Some c) false id
                                 (_readUntilForOplog cur))
           end
  end.

(** [Cursor::save]: the engine cursor, when there is one, is reset. *)
Definition Cursor_save (cur : Cursor) : Cursor :=
  mkCursor (_forward cur)
           (match _cursor cur with Some _ => Some Unpositioned | None => None end)
           (_eof cur) (_lastReturnedId cur) (_readUntilForOplog cur).

(** [Cursor::saveUnpositioned] *)
Definition Cursor_saveUnpositioned (cur : Cursor) : Cursor :=
  let cur' := Cursor_save cur in
  mkCursor (_forward cur') (_cursor cur') (_eof cur') RecordId_null
           (_readUntilForOplog cur').

(** [Cursor::detachFromOperationContext] *)
Definition Cursor_detachFromOperationContext (cur : Cursor) : Cursor :=
  mkCursor (_forward cur) None (_eof cur) (_lastReturnedId cur)
           (_readUntilForOplog cur).

(** [Cursor::restore]: the flag returned and the cursor afterwards. *)
Definition Cursor_restore (rs : WiredTigerRecordStore) (cur : Cursor)
  : Outcome (bool * Cursor) :=
  let c0 := match _cursor cur with Some c => c | None => Unpositioned end in
  let withCursor (c : WT_CURSOR) (eof : bool) :=
    mkCursor (_forward cur) (Some c) eof (_lastReturnedId cur)
             (_readUntilForOplog cur) in
  if _eof cur then Returns (true, withCursor c0 (_eof cur))
  else if isNull (_lastReturnedId cur) then Returns (true, withCursor c0 (_eof cur))
  else
    let '(r, c, cmp) :=
      wt_search_near (table rs) (_lastReturnedId cur) (landAfter env) in
    if r =? WT_NOTFOUND then Returns (negb (_isCapped rs), withCursor c true)
    else if negb (r =? 0) then Aborts
    else if cmp =? 0 then Returns (true, withCursor c (_eof cur))
    else if _isCapped rs then Returns (false, withCursor c true)
    else
      let '(r', c') :=
        if _forward cur && (0 <? cmp) then wt_prev (table rs) c
        else if negb (_forward cur) && (cmp <? 0) then wt_next (table rs) c
        else (r, c) in
      if negb (r' =? WT_NOTFOUND) && negb (r' =? 0) then Aborts
      else Returns (true, withCursor c' (_eof cur)).

(** [WiredTigerRecordStore::_oplogSetStartHack] *)
Definition _oplogSetStartHack (rs : WiredTigerRecordStore) (wru : OperationContext)
  : OperationContext :=
  mkTxn (changes wru)
        (match _uncommittedDiskLocs rs with
         | [] => _oplog_highestSeen rs
         | front :: _ => front
         end)
        (inActiveTxn wru).

(** [WiredTigerRecordStore::getCursor] *)
Definition getCursor (forward : bool) : M Cursor :=
  rs <- getRS ;;
  txn <- getTxn ;;
  (if _isOplog rs && forward
   then if negb (inActiveTxn txn) || isNull (oplogReadTill txn)
        then putTxn (_oplogSetStartHack rs txn) else ret tt
   else ret tt) ;;
  txn <- getTxn ;;
  ret (Cursor_new txn forward).

(** *** Placing the oplog stones *)


(** The [while] loop of [_calculateStonesByScanning] over the records the
    cursor returns; [numRecords] and [dataSize] are the loop's own tallies. *)
Fixpoint scanStones (fuel : nat) (rs : WiredTigerRecordStore) (cur : Cursor)
         (os : OplogStones) (numRecords dataSize : Z)
  : Outcome (OplogStones * Z * Z) :=
  match Cursor_next rs cur with
  | Aborts => Aborts
  | Throws e => Throws e
  | Returns (None, _) => Returns (os, numRecords, dataSize)
  | Returns (Some record, cur') =>
      match fuel with
      | O => Aborts
      | S fuel' =>
          let currentRecords := fst (addAndFetch (_currentRecords os) 1) in
          let newCurrentBytes :=
            fst (addAndFetch (_currentBytes os) (size (data record))) in
          let os' :=
            if _minBytesPerStone os <=? newCurrentBytes
            then mkOplogStones
                   (_stones os ++ [mkStone currentRecords newCurrentBytes (id record)])
                   0 0 (_minBytesPerStone os) (_numStonesToKeep os) (firstRecord os)
            else mkOplogStones
                   (_stones os) currentRecords newCurrentBytes
                   (_minBytesPerStone os) (_numStonesToKeep os) (firstRecord os) in
          scanStones fuel' rs cur' os' (numRecords + 1)
                     (dataSize + size (data record))
      end
  end.

(** [OplogStones::_calculateStonesByScanning]; [os] is the stones object under
    construction. *)
Definition _calculateStonesByScanning (os : OplogStones) : M OplogStones :=
  cursor <- getCursor true ;;
  rs <- getRS ;;
  match scanStones (S (length (table rs))) rs cursor os 0 0 with
  | Aborts => abort
  | Throws e => throw e
  | Returns (os', numRecords, dataSize) =>
      updateStatsAfterRepair numRecords dataSize ;;
      ret os'
  end.


(** [std::sort] of the sampled ids. *)
Fixpoint insert_sorted (x : RecordId) (l : list RecordId) : list RecordId :=
  match l with
  | [] => [x]
  | y :: l' => if x <=? y then x :: l else y :: insert_sorted x l'
  end.

Definition sort_ids (l : list RecordId) : list RecordId :=
  fold_right insert_sorted [] l.



End Methods.

(** ** Further methods of the record store *)

Definition set_oplogStones (v : option OplogStones) (rs : WiredTigerRecordStore)
  : WiredTigerRecordStore :=
  mkRS (_isCapped rs) (_isOplog rs) (_cappedMaxSize rs)
       (_cappedMaxSizeSlack rs) (_cappedMaxDocs rs) (_cappedSleep rs)
       (_cappedSleepMS rs) (_cappedDeleteCallback rs) (_useOplogHack rs)
       (_uncommittedDiskLocs rs) (_oplog_highestSeen rs) (_nextIdNum rs)
       (_dataSize rs) (_numRecords rs) (_sizeStorer rs) (_sizeStorerCounter rs)
       (_shuttingDown rs) v (table rs).

(** What the size counters, the size storer, the sleep statistics and the
    table may change without touching: the setup of the store, its id
    allocator, its uncommitted ids and its stones. *)
Definition sameSetup (rs rs' : WiredTigerRecordStore) : Prop :=
  _isCapped rs' = _isCapped rs
  /\ _isOplog rs' = _isOplog rs
  /\ _cappedMaxSize rs' = _cappedMaxSize rs
  /\ _cappedMaxSizeSlack rs' = _cappedMaxSizeSlack rs
  /\ _cappedMaxDocs rs' = _cappedMaxDocs rs
  /\ _cappedDeleteCallback rs' = _cappedDeleteCallback rs
  /\ _useOplogHack rs' = _useOplogHack rs
  /\ _uncommittedDiskLocs rs' = _uncommittedDiskLocs rs
  /\ _oplog_highestSeen rs' = _oplog_highestSeen rs
  /\ _nextIdNum rs' = _nextIdNum rs
  /\ _shuttingDown rs' = _shuttingDown rs
  /\ _oplogStones rs' = _oplogStones rs.

(** The operation context after one more change is registered. *)
Definition addChange (txn : OperationContext) (ch : Change) : OperationContext :=
  mkTxn (changes txn ++ [ch]) (oplogReadTill txn) (inActiveTxn txn).

(** Where a cursor stands after it has read [k] records forward from the
    start of the table. *)
Definition cursorAfter (k : nat) : WT_CURSOR :=
  match k with
  | O => Unpositioned
  | S i => At i
  end.

(** How [insertRecord] comes by the id [loc] of a new record, and the
    operation context and store it goes on with: the id is extracted from the
    document (oplog), or it is the next of the allocator, registered as
    uncommitted on a capped store. *)
Definition idChosen (env : Env) (data : RecordData) (txn : OperationContext)
           (rs : WiredTigerRecordStore) (loc : RecordId)
           (txn0 : OperationContext) (rs0 : WiredTigerRecordStore) : Prop :=
  if _useOplogHack rs then
    extractKey env data = SW_value loc
    /\ txn0 = txn
    /\ rs0 = (if _oplog_highestSeen rs <? loc
              then set_oplog_highestSeen loc rs else rs)
  else
    loc = _nextIdNum rs
    /\ isNormal loc = true
    /\ if _isCapped rs then
         txn0 = addChange txn (CappedInsertChange loc)
         /\ rs0 = set_oplog_highestSeen loc
                   (set_uncommittedDiskLocs
                      (_uncommittedDiskLocs rs ++ [loc])
                      (set_nextIdNum (wrap64 (loc + 1)) rs))
       else
         txn0 = txn /\ rs0 = set_nextIdNum (wrap64 (loc + 1)) rs.

(** The two overshoots [cappedDeleteAsNeeded_inlock] computes before its
    loop: bytes above [cappedMaxSize], documents above [cappedMaxDocs]. *)
Definition sizeOverCapOf (rs : WiredTigerRecordStore) : Z :=
  if _cappedMaxSize rs <? _dataSize rs then _dataSize rs - _cappedMaxSize rs
  else 0.

Definition docsOverCapOf (rs : WiredTigerRecordStore) : Z :=
  if negb (_cappedMaxDocs rs =? -1) && (_cappedMaxDocs rs <? _numRecords rs)
  then _numRecords rs - _cappedMaxDocs rs else 0.

(** Sum of the sizes of records. *)
Definition totalSize (t : Table) : Z :=
  fold_right (fun r acc => size (data r) + acc) 0 t.

(** An eviction that counted [n] records: the first [n] records of the table
    all lie below [justInserted] and are gone, the counters are charged with
    them when [n] is positive (with
    the reset of a negative counter that [_changeNumRecords] and
    [_increaseDataSize] apply), and the loop had its reason to stop there. *)
Definition evicted (justInserted : RecordId) (rs rs' : WiredTigerRecordStore)
           (n : Z) : Prop :=
  exists k,
    n = Z.of_nat k /\ n <= 20000
    /\ (k <= length (table rs))%nat
    /\ (forall i r, (i < k)%nat -> nth_error (table rs) i = Some r ->
                    id r < justInserted)
    /\ table rs' = skipn k (table rs)
    /\ _numRecords rs' =
         (if 0 <? n
          then if _numRecords rs <? 0 then Z.max (- n) 0
               else wrap64 (_numRecords rs - n)
          else _numRecords rs)
    /\ _dataSize rs' =
         (if 0 <? n
          then if _dataSize rs <? 0
               then Z.max (- totalSize (firstn k (table rs))) 0
               else wrap64 (_dataSize rs - totalSize (firstn k (table rs)))
          else _dataSize rs)
    /\ ((sizeOverCapOf rs <= totalSize (firstn k (table rs))
         /\ docsOverCapOf rs <= n)
        \/ 20000 <= n
        \/ k = length (table rs)
        \/ (exists r, nth_error (table rs) k = Some r /\ justInserted <= id r)
        \/ _shuttingDown rs = true).


(** *** Oplog stones *)

(** Modelled from the spec: [OplogStones::hasExcessStones], defined in
    wiredtiger_record_store_oplog_stones.h, outside the file embedded here;
    "hasExcessStones() := stones.size() > numStonesToKeep". *)
Definition hasExcessStones (os : OplogStones) : bool :=
  _numStonesToKeep os <? Z.of_nat (length (_stones os)).

(** [OplogStones::peekOldestStoneIfNeeded]; with excess stones and a
    [numStonesToKeep] that is not negative the deque is not empty, and
    [front()] is its first stone. *)
Definition peekOldestStoneIfNeeded (os : OplogStones) : option Stone :=
  if negb (hasExcessStones os) then None else hd_error (_stones os).

(** [OplogStones::popOldestStone] *)
Definition popOldestStone (os : OplogStones) : OplogStones :=
  mkOplogStones (tl (_stones os)) (_currentRecords os) (_currentBytes os)
                (_minBytesPerStone os) (_numStonesToKeep os) (firstRecord os).

(** [OplogStones::createNewStoneIfNeeded]; [lk] tells whether the try-lock of
    the stones' mutex succeeds. *)
Definition createNewStoneIfNeeded (lk : bool) (lastRecord : RecordId)
           (os : OplogStones) : OplogStones :=
  if negb lk then os
  else if _currentBytes os <? _minBytesPerStone os then os
  else mkOplogStones
         (_stones os ++ [mkStone (_currentRecords os) (_currentBytes os) lastRecord])
         0 0 (_minBytesPerStone os) (_numStonesToKeep os) (firstRecord os).

(** [OplogStones::InsertChange::commit] *)
Definition InsertChange_commit (lk : bool) (bytesInserted : Z)
           (justInserted : RecordId) (os : OplogStones) : Outcome OplogStones :=
  if negb (0 <=? bytesInserted) then Aborts
  else if negb (isNormal justInserted) then Aborts
  else
    let currentRecords := fst (addAndFetch (_currentRecords os) 1) in
    let newCurrentBytes := fst (addAndFetch (_currentBytes os) bytesInserted) in
    let os' := mkOplogStones (_stones os) currentRecords newCurrentBytes
                             (_minBytesPerStone os) (_numStonesToKeep os)
                             (firstRecord os) in
    if _minBytesPerStone os <=? newCurrentBytes
    then Returns (createNewStoneIfNeeded lk justInserted os')
    else Returns os'.

(** [OplogStones::TruncateChange::commit] *)
Definition TruncateChange_commit (os : OplogStones) : OplogStones :=
  mkOplogStones [] 0 0 (_minBytesPerStone os) (_numStonesToKeep os)
                (firstRecord os).

(** The first loop of [updateStonesAfterCappedTruncateAfter], over the stones
    from the newest back: how many stones go, and the records and bytes they
    stand for. *)
Fixpoint stonesToRemove (newestFirst : list Stone) (firstRemovedId : RecordId)
  : nat * Z * Z :=
  match newestFirst with
  | [] => (O, 0, 0)
  | it :: older =>
      if lastRecord it <? firstRemovedId then (O, 0, 0)
      else
        let '(numStonesToRemove, recordsInStonesToRemove, bytesInStonesToRemove) :=
          stonesToRemove older firstRemovedId in
        (S numStonesToRemove, recordsInStonesToRemove + records it,
         bytesInStonesToRemove + bytes it)
  end.

(** [OplogStones::updateStonesAfterCappedTruncateAfter] *)
Definition updateStonesAfterCappedTruncateAfter
           (recordsRemoved bytesRemoved : Z) (firstRemovedId : RecordId)
           (os : OplogStones) : OplogStones :=
  let '(numStonesToRemove, recordsInStonesToRemove, bytesInStonesToRemove) :=
    stonesToRemove (rev (_stones os)) firstRemovedId in
  let offset := (length (_stones os) - numStonesToRemove)%nat in
  mkOplogStones
    (firstn offset (_stones os))
    (fst (addAndFetch (_currentRecords os) (recordsInStonesToRemove - recordsRemoved)))
    (fst (addAndFetch (_currentBytes os) (bytesInStonesToRemove - bytesRemoved)))
    (_minBytesPerStone os) (_numStonesToKeep os) (firstRecord os).

(** What the stones account for: the records and bytes of all stones and of
    the stone being filled. *)
Definition stonesRecords (os : OplogStones) : Z :=
  fold_right (fun st acc => records st + acc) 0 (_stones os) + _currentRecords os.

Definition stonesBytes (os : OplogStones) : Z :=
  fold_right (fun st acc => bytes st + acc) 0 (_stones os) + _currentBytes os.

(** Stones follow one another with strictly increasing last records. *)
Fixpoint stones_ordered (l : list Stone) : bool :=
  match l with
  | [] => true
  | st :: l' =>
      match l' with
      | [] => true
      | st' :: _ => (lastRecord st <? lastRecord st') && stones_ordered l'
      end
  end.

(** The table after the ranges of the stones [popped] have been truncated
    one after the other, the first range starting at [first], each later one
    at the last record of the stone before it. *)
Fixpoint truncatedByStones (t : Table) (first : RecordId) (popped : list Stone)
  : Table :=
  match popped with
  | [] => t
  | stone :: rest =>
      truncatedByStones (wt_truncate t (Some first) (Some (lastRecord stone)))
                        (lastRecord stone) rest
  end.

Section MoreMethods.

Variable env : Env.

(** The [while] loop of [reclaimOplog]: each turn truncates the range of the
    oldest stone and pops it.  A write conflict is caught and the same stone
    is tried again, for ever if the conflict stays: [fuel] bounds the turns,
    and without conflicts as many turns as there are stones suffice.  The
    commits of the two counter changes do nothing; the model leaves the
    changes on the list of the recovery unit. *)
Fixpoint reclaimLoop (fuel : nat) : M unit :=
  rs <- getRS ;;
  match _oplogStones rs with
  | None => abort
  | Some os =>
      match peekOldestStoneIfNeeded os with
      | None => ret tt
      | Some stone =>
          match fuel with
          | O => abort
          | S fuel' =>
              invariant (isNormal (lastRecord stone)) ;;
              if evictionConflict env then
                (* catch (const WriteConflictException&) *)
                reclaimLoop fuel'
              else
                invariantWTOK (truncateRet env) ;;
                modifyRS (set_table
                            (wt_truncate (table rs) (Some (firstRecord os))
                                         (Some (lastRecord stone)))) ;;
                _changeNumRecords (- records stone) ;;
                _increaseDataSize true (- bytes stone) ;;
                modifyRS (set_oplogStones
                            (Some (mkOplogStones
                                     (_stones (popOldestStone os))
                                     (_currentRecords os) (_currentBytes os)
                                     (_minBytesPerStone os) (_numStonesToKeep os)
                                     (lastRecord stone)))) ;;
                reclaimLoop fuel'
          end
      end
  end.

(** [WiredTigerRecordStore::reclaimOplog] *)
Definition reclaimOplog : M unit :=
  rs <- getRS ;;
  match _oplogStones rs with
  | None => abort
  | Some os => reclaimLoop (length (_stones os))
  end.

(** The [do ... while] loop of [temp_cappedTruncateAfter]: the records and
    bytes from [record] to where the cursor ends. *)
Fixpoint truncateAfterCount (fuel : nat) (rs : WiredTigerRecordStore)
         (cursor : Cursor) (record : Rec) (recordsRemoved bytesRemoved : Z)
  : Outcome (Z * Z) :=
  match (match _cappedDeleteCallback rs with
         | None => Status_OK
         | Some aboutToDeleteCapped => aboutToDeleteCapped (id record) (data record)
         end) with
  | Status_Error code => Throws (UserException code)
  | Status_OK =>
      let recordsRemoved' := recordsRemoved + 1 in
      let bytesRemoved' := bytesRemoved + size (data record) in
      match Cursor_next env rs cursor with
      | Aborts => Aborts
      | Throws e => Throws e
      | Returns (None, _) => Returns (recordsRemoved', bytesRemoved')
      | Returns (Some record', cursor') =>
          match fuel with
          | O => Aborts
          | S fuel' =>
              truncateAfterCount fuel' rs cursor' record' recordsRemoved'
                                 bytesRemoved'
          end
      end
  end.

(** [WiredTigerRecordStore::temp_cappedTruncateAfter]; the commits of the
    two counter changes do nothing, the model leaves the changes on the list
    of the recovery unit. *)
Definition temp_cappedTruncateAfter (end_ : RecordId) (inclusive : bool)
  : M unit :=
  txn <- getTxn ;;
  rs <- getRS ;;
  match Cursor_seekExact rs (Cursor_new txn true) end_ with
  | Aborts => abort
  | Throws e => throw e
  | Returns (None, _) => throw (MsgAssertionException 28807)
  | Returns (Some record, cursor) =>
      let first :=
        if inclusive then Returns (Some record, cursor)
        else Cursor_next env rs cursor in
      match first with
      | Aborts => abort
      | Throws e => throw e
      | Returns (None, _) => ret tt
      | Returns (Some record, cursor) =>
          let firstRemovedId := if inclusive then end_ else id record in
          match truncateAfterCount (S (length (table rs))) rs cursor record 0 0 with
          | Aborts => abort
          | Throws e => throw e
          | Returns (recordsRemoved, bytesRemoved) =>
              invariantWTOK (truncateRet env) ;;
              modifyRS (set_table
                          (wt_truncate (table rs) (Some firstRemovedId) None)) ;;
              _changeNumRecords (- recordsRemoved) ;;
              _increaseDataSize true (- bytesRemoved) ;;
              match _oplogStones rs with
              | None => ret tt
              | Some os =>
                  modifyRS (set_oplogStones
                              (Some (updateStonesAfterCappedTruncateAfter
                                       recordsRemoved bytesRemoved
                                       firstRemovedId os)))
              end
          end
      end
  end.

(** [WiredTigerRecordStore::oplogStartHack]; the optional result is absent
    when the store does not extract oplog keys. *)
Definition oplogStartHack (startingPosition : RecordId) : M (option RecordId) :=
  rs <- getRS ;;
  if negb (_useOplogHack rs) then ret None
  else
    wru <- getTxn ;;
    putTxn (_oplogSetStartHack rs wru) ;;
    let '(r, c, cmp) :=
      wt_search_near (table rs) startingPosition (landAfter env) in
    let '(r', c') :=
      if (r =? 0) && (0 <? cmp) then wt_prev (table rs) c else (r, c) in
    if r' =? WT_NOTFOUND then ret (Some RecordId_null)
    else
      invariantWTOK r' ;;
      match wt_get (table rs) c' with
      | None => abort
      | Some rec => ret (Some (id rec))
      end.

End MoreMethods.

(** ** Example stores *)

Definition abc : RecordData := [x61; x62; x63].

Definition quietEnv : Env :=
  mkEnv true true 0 false 0 0 true (fun _ => SW_status BadValue) (fun _ => None).

Definition freshTxn : OperationContext := mkTxn [] RecordId_null false.

(** A capped collection of at most 100 bytes holding ids 1 to 7; the inserts
    of 5 and 6 are still uncommitted, the insert of 7 has committed. *)
Definition cappedStore : WiredTigerRecordStore :=
  mkRS true false 100 10 (-1) 0 0 None false [5; 6] 7 8 21 7 None 0 false None
       (map (fun k => mkRec k abc) [1; 2; 3; 4; 5; 6; 7]).

(** A capped collection bounded by bytes only, empty and far below its
    bound. *)
Definition emptyCappedStore : WiredTigerRecordStore :=
  mkRS true false 100 10 (-1) 0 0 None false [] 0 1 0 0 None 0 false None [].

(** A capped collection of at most 5 bytes with one record. *)
Definition tinyCappedStore : WiredTigerRecordStore :=
  mkRS true false 5 0 (-1) 0 0 None false [] 1 2 3 1 None 0 false None
       [mkRec 1 abc].

(** A capped collection of at most 3 documents that holds 4, the last of
    them just inserted. *)
Definition overfullStore : WiredTigerRecordStore :=
  mkRS true false 1000 100 3 0 0 None false [4] 4 5 12 4 None 0 false None
       (map (fun k => mkRec k abc) [1; 2; 3; 4]).

(** [overfullStore] after the eviction its last insert sets off. *)
Definition evictedStore : WiredTigerRecordStore :=
  mkRS true false 1000 100 3 0 0 None false [4] 4 5 9 3 None 0 false None
       (map (fun k => mkRec k abc) [2; 3; 4]).

(** A collection that is not capped, with one record, opened with a size
    storer whose cached counters (0 records, 0 bytes) are stale. *)
Definition staleStore : WiredTigerRecordStore :=
  mkRS false false (-1) 0 (-1) 0 0 None false [] 1 2 0 0 (Some (0, 0)) 0 false None
       [mkRec 1 abc].

(** A collection that is not capped, holding ids 10, 20 and 40. *)
Definition plainStore : WiredTigerRecordStore :=
  mkRS false false (-1) 0 (-1) 0 0 None false [] 40 41 9 3 None 0 false None
       (map (fun k => mkRec k abc) [10; 20; 40]).

(** An oplog with stones, holding ids 10 and 20. *)
Definition oplogStore : WiredTigerRecordStore :=
  mkRS true true 1000 100 (-1) 0 0 None true [] 20 1 6 2 None 0 false
       (Some (mkOplogStones [] 2 6 100 10 RecordId_null))
       (map (fun k => mkRec k abc) [10; 20]).

(** The same oplog opened without stones: [_isOplog] comes from the name of
    the collection, the stones are only made when the engine starts the
    background thread that reclaims the oplog. *)
Definition oplogWithoutStones : WiredTigerRecordStore :=
  mkRS true true 1000 100 (-1) 0 0 None true [] 20 1 6 2 None 0 false None
       (map (fun k => mkRec k abc) [10; 20]).

(** An environment that reads the oplog key 30 out of every document, and
    one whose engine answers every insert with the return code [code]. *)
Definition keyedEnv : Env :=
  mkEnv true true 0 false 0 0 true (fun _ => SW_value 30) (fun _ => None).

Definition refusingEnv (code : Z) : Env :=
  mkEnv true true 0 false 0 code true (fun _ => SW_status BadValue)
        (fun _ => None).

(** An oplog with stones whose table is empty while its counters are not. *)
Definition emptyOplogStore : WiredTigerRecordStore :=
  mkRS true true 1000 100 (-1) 0 0 None true [] 0 1 6 2 None 0 false
       (Some (mkOplogStones [mkStone 2 6 20] 0 0 100 10 RecordId_null)) [].





(** A cursor that returned the record [last] and was saved. *)
Definition savedCursor (forward : bool) (last : RecordId) : Cursor :=
  mkCursor forward (Some Unpositioned) false last RecordId_null.

(** Everything a cursor still returns, by repeated [next]; a cursor returns
    at most one record per record of the table. *)
Fixpoint drain (env : Env) (fuel : nat) (rs : WiredTigerRecordStore)
         (cur : Cursor) : list Rec :=
  match fuel with
  | O => []
  | S fuel' =>
      match Cursor_next env rs cur with
      | Returns (Some record, cur') => record :: drain env fuel' rs cur'
      | _ => []
      end
  end.

(** The second half of [Cursor::next], from [if (mustAdvance)] on: the engine
    cursor [c1] steps in the cursor's direction when it has to, and the record
    it stands on is returned if the cursor may see it. *)
Definition Cursor_advance (rs : WiredTigerRecordStore) (cur : Cursor)
           (mustAdvance : bool) (c1 : WT_CURSOR) : Outcome (option Rec * Cursor) :=
  let atEof c' :=
    mkCursor (_forward cur) (Some c') true (_lastReturnedId cur)
             (_readUntilForOplog cur) in
  let '(r, c2) :=
    if mustAdvance
    then (if _forward cur then wt_next (table rs) c1 else wt_prev (table rs) c1)
    else (0, c1) in
  if r =? WT_NOTFOUND then Returns (None, atEof c2)
  else if negb (r =? 0) then Aborts
  else
    match wt_get (table rs) c2 with
    | None => Aborts
    | Some rec =>
        if negb (isVisible rs cur (id rec)) then Returns (None, atEof c2)
        else Returns (Some rec,
                      mkCursor (_forward cur) (Some c2) (_eof cur) (id rec)
                               (_readUntilForOplog cur))
    end.

(** The records a scan can reach: the longest prefix of the table, in key
    order, whose records are all visible to the cursor. *)
Fixpoint takeVisible (rs : WiredTigerRecordStore) (cur : Cursor) (t : Table)
  : Table :=
  match t with
  | [] => []
  | r :: t' => if isVisible rs cur (id r) then r :: takeVisible rs cur t' else []
  end.

(** An empty collection that is not capped, and one capped at 3 documents. *)
Definition emptyStore : WiredTigerRecordStore :=
  mkRS false false (-1) 0 (-1) 0 0 None false [] 0 1 0 0 None 0 false None [].

Definition emptyThreeDocStore : WiredTigerRecordStore :=
  mkRS true false 1000 100 3 0 0 None false [] 0 1 0 0 None 0 false None [].

(** One insert in a transaction of its own, committed at once: the commit
    runs [CappedInsertChange::commit]; the commits of the counter changes do
    nothing. *)
Definition insertCommitted (env : Env) (data : RecordData)
           (rs : WiredTigerRecordStore) : option (RecordId * WiredTigerRecordStore) :=
  match insertRecord env data (freshTxn, rs) with
  | Returns (SW_value loc, (txn, rs')) =>
      let commit (acc : option WiredTigerRecordStore) (ch : Change) :=
        match acc, ch with
        | Some s, CappedInsertChange l =>
            match dealtWithCappedLoc l (freshTxn, s) with
            | Returns (_, (_, s')) => Some s'
            | _ => None
            end
        | _, _ => acc
        end in
      match fold_left commit (changes txn) (Some rs') with
      | Some s => Some (loc, s)
      | None => None
      end
  | _ => None
  end.

Fixpoint insertAll (env : Env) (docs : list RecordData)
         (rs : WiredTigerRecordStore) : option (list RecordId * WiredTigerRecordStore) :=
  match docs with
  | [] => Some ([], rs)
  | d :: docs' =>
      match insertCommitted env d rs with
      | Some (loc, rs') =>
          match insertAll env docs' rs' with
          | Some (locs, rs'') => Some (loc :: locs, rs'')
          | None => None
          end
      | None => None
      end
  end.

(** * Properties *)

(** ** The embedding at work

    The end-to-end scenarios of the specification, run on the embedding. *)

(** Three inserts into an empty store get ids 1, 2, 3; a forward scan and a
    reverse scan return them in order; the counters stand at 3 records and 6
    bytes. *)
Example scenario_roundtrip :
  match insertAll quietEnv [[x61; x62; x63]; [x64; x65]; [x66]] emptyStore with
  | Some (locs, rs) =>
      locs = [1; 2; 3]
      /\ drain quietEnv 4 rs (Cursor_new freshTxn true)
         = [mkRec 1 [x61; x62; x63]; mkRec 2 [x64; x65]; mkRec 3 [x66]]
      /\ drain quietEnv 4 rs (Cursor_new freshTxn false)
         = [mkRec 3 [x66]; mkRec 2 [x64; x65]; mkRec 1 [x61; x62; x63]]
      /\ _numRecords rs = 3 /\ _dataSize rs = 6
  | None => False
  end.
Proof.
  vm_compute. repeat split.
Qed.

(** With at most 3 documents, five inserts leave the three highest ids. *)
Example scenario_capped_docs :
  match insertAll quietEnv [abc; abc; abc; abc; abc] emptyThreeDocStore with
  | Some (locs, rs) =>
      locs = [1; 2; 3; 4; 5]
      /\ map id (table rs) = [3; 4; 5]
      /\ _numRecords rs = 3
  | None => False
  end.
Proof.
  vm_compute. repeat split.
Qed.

(** ** The engine model *)

Lemma lower_bound_nth (t : Table) (key : Z) (r : Rec) :
  nth_error t (lower_bound t key) = Some r -> In r t /\ key <= id r.
Proof.
  induction t as [|x t IH]; simpl; [discriminate|].
  destruct (id x <? key) eqn:E; simpl.
  - intros H. destruct (IH H). auto.
  - intros H. injection H as <-. apply Z.ltb_ge in E. auto.
Qed.

Lemma lower_bound_le (t : Table) (key : Z) : (lower_bound t key <= length t)%nat.
Proof.
  induction t as [|x t IH]; simpl; [lia|].
  destruct (id x <? key); simpl; lia.
Qed.

(** A key that labels no record is not found. *)
Lemma wt_search_absent (t : Table) (key : Z) :
  (forall r, In r t -> id r <> key) ->
  wt_search t key = (WT_NOTFOUND, Unpositioned).
Proof.
  intros Habs. unfold wt_search.
  destruct (nth_error t (lower_bound t key)) as [r|] eqn:E; [|reflexivity].
  apply lower_bound_nth in E. destruct E as [Hin _].
  apply Habs in Hin. apply Z.eqb_neq in Hin. now rewrite Hin.
Qed.

(** ** Visibility (C1) *)

(** C1, as amended.  On a store that is not capped every id is visible.  On a
    capped store a cursor without an oplog read-till point (or on a store that
    is not the oplog) sees id [k] exactly when the list of uncommitted ids is
    empty or [k] is below its front element; whether [k] itself is in the list
    plays no role.  An oplog cursor with read-till point [p] sees [k] exactly
    when [k < p], or [k = p] and [k] is not hidden in the sense above. *)
Theorem isVisible_spec (rs : WiredTigerRecordStore) (cur : Cursor) (k : RecordId) :
  let notHidden :=
    _uncommittedDiskLocs rs = []
    \/ exists front, hd_error (_uncommittedDiskLocs rs) = Some front /\ k < front in
  isVisible rs cur k = true <->
  (_isCapped rs = false
   \/ (_isCapped rs = true
       /\ (_readUntilForOplog cur = RecordId_null \/ _isOplog rs = false)
       /\ notHidden)
   \/ (_isCapped rs = true
       /\ _readUntilForOplog cur <> RecordId_null /\ _isOplog rs = true
       /\ (k < _readUntilForOplog cur
           \/ (k = _readUntilForOplog cur /\ notHidden)))).
Proof.
  intros notHidden.
  assert (Hhid : negb (isCappedHidden rs k) = true <-> notHidden).
  { unfold notHidden, isCappedHidden.
    destruct (_uncommittedDiskLocs rs) as [|front l]; simpl.
    - split; auto.
    - rewrite negb_true_iff, Z.leb_gt. split.
      + intros H. right. exists front. auto.
      + intros [H|[f [H1 H2]]]; [discriminate|]. injection H1 as <-. exact H2. }
  unfold isVisible, isNull, RecordId_null.
  destruct (_isCapped rs); simpl.
  2:{ split; auto. }
  destruct (_readUntilForOplog cur =? 0) eqn:Ern; simpl.
  { apply Z.eqb_eq in Ern. rewrite Hhid. split.
    - intros H. right. left. auto.
    - intros [H|[[_ [_ H]]|[_ [H _]]]]; [discriminate|exact H|contradiction]. }
  apply Z.eqb_neq in Ern.
  destruct (_isOplog rs); simpl.
  2:{ rewrite Hhid. split.
      - intros H. right. left. auto.
      - intros [H|[[_ [_ H]]|[_ [_ [H _]]]]]; [discriminate|exact H|discriminate]. }
  destruct (k =? _readUntilForOplog cur) eqn:Ek.
  - apply Z.eqb_eq in Ek. rewrite Hhid. split.
    + intros H. right. right. repeat split; auto.
    + intros [H|[[_ [[H|H] _]]|[_ [_ [_ [H|[_ H]]]]]]];
        try discriminate; try contradiction; try lia; exact H.
  - apply Z.eqb_neq in Ek. rewrite Z.ltb_lt. split.
    + intros H. right. right. repeat split; auto.
    + intros [H|[[_ [[H|H] _]]|[_ [_ [_ [H|[H _]]]]]]];
        try discriminate; try contradiction; try lia.
Qed.

(** Id 7 of [cappedStore] is in no uncommitted insert, yet a cursor does not
    see it: the front of the uncommitted ids, 5, hides every id from 5 on. *)
Lemma isVisible_not_by_membership :
  let cur := Cursor_new freshTxn true in
  ~ (isVisible cappedStore cur 7 = true <->
     (~ In 7 (_uncommittedDiskLocs cappedStore)
      \/ exists front,
           hd_error (_uncommittedDiskLocs cappedStore) = Some front /\ 7 < front)).
Proof.
  intros cur [_ H].
  assert (Hv : isVisible cappedStore cur 7 = true).
  { apply H. left. simpl. intros [E|[E|[]]]; discriminate. }
  vm_compute in Hv. discriminate.
Qed.

Lemma isVisible_spec_witness :
  isVisible cappedStore (Cursor_new freshTxn true) 4 = true.
Proof.
  apply (isVisible_spec cappedStore (Cursor_new freshTxn true) 4).
  right. left. repeat split.
  - left. reflexivity.
  - right. exists 5. split; [reflexivity | lia].
Defined.

(** ** Size counters (C2) *)

(** What one change of the record count leaves behind: a counter that was
    negative before the change is reset, any other counter takes the sum,
    negative or not.  Nothing but the counter and the registered changes
    moves. *)
Lemma _changeNumRecords_result (diff : Z) (txn : OperationContext)
      (rs : WiredTigerRecordStore) :
  exists txn' rs',
    _changeNumRecords diff (txn, rs) = Returns (tt, (txn', rs'))
    /\ _numRecords rs' =
         (if _numRecords rs <? 0 then Z.max diff 0
          else wrap64 (_numRecords rs + diff))
    /\ table rs' = table rs
    /\ _dataSize rs' = _dataSize rs
    /\ _sizeStorer rs' = _sizeStorer rs
    /\ _sizeStorerCounter rs' = _sizeStorerCounter rs.
Proof.
  unfold _changeNumRecords, bind, registerChange, getRS, modifyRS, ret, fetchAndAdd.
  simpl. destruct (_numRecords rs <? 0); simpl;
    eexists; eexists; repeat split.
Qed.

(** The same for the data size. *)
Lemma _increaseDataSize_result (withTxn : bool) (amount : Z)
      (txn : OperationContext) (rs : WiredTigerRecordStore) :
  exists txn' rs',
    _increaseDataSize withTxn amount (txn, rs) = Returns (tt, (txn', rs'))
    /\ _dataSize rs' =
         (if _dataSize rs <? 0 then Z.max amount 0
          else wrap64 (_dataSize rs + amount))
    /\ table rs' = table rs
    /\ _numRecords rs' = _numRecords rs.
Proof.
  unfold _increaseDataSize, bind, registerChange, getRS, modifyRS, ret, fetchAndAdd.
  destruct withTxn; simpl;
    destruct (_dataSize rs <? 0); simpl;
    destruct (_sizeStorer rs); simpl;
    try destruct (Z.rem (_sizeStorerCounter rs) 1000 =? 0); simpl;
    eexists; eexists; repeat split.
Qed.

(** C2.  Deleting the one record of [staleStore], whose counters stand at
    zero, leaves both counters negative: the decrement is not floored. *)
Theorem deleteRecord_counters_negative :
  exists txn' rs',
    deleteRecord 1 (freshTxn, staleStore) = Returns (tt, (txn', rs'))
    /\ table rs' = []
    /\ _numRecords rs' = -1
    /\ _dataSize rs' = -3.
Proof.
  eexists. eexists. split; [vm_compute; reflexivity|].
  repeat split.
Qed.

(** The rollback of a record-count change has no floor at all, while the
    rollback of a data-size change goes through [_increaseDataSize]. *)
Lemma NumRecordsChange_rollback_unfloored :
  rollback (NumRecordsChange 1) (freshTxn, emptyStore)
  = Returns (tt, (freshTxn, set_numRecords (-1) emptyStore)).
Proof.
  reflexivity.
Qed.

(** ** Capped eviction is needed (C4) *)

(** C4, as amended.  On a capped store [cappedAndNeedDelete] answers true
    exactly when the data size has reached [cappedMaxSize], or a document
    bound is set ([cappedMaxDocs] is not -1) and the record count exceeds it;
    on a store that is not capped it answers false. *)
Theorem cappedAndNeedDelete_spec (rs : WiredTigerRecordStore) :
  cappedAndNeedDelete rs =
  _isCapped rs
  && ((_cappedMaxSize rs <=? _dataSize rs)
      || (negb (_cappedMaxDocs rs =? -1) && (_cappedMaxDocs rs <? _numRecords rs))).
Proof.
  unfold cappedAndNeedDelete.
  destruct (_isCapped rs); simpl; [|reflexivity].
  destruct (_cappedMaxSize rs <=? _dataSize rs); simpl; [reflexivity|].
  destruct (negb (_cappedMaxDocs rs =? -1) && (_cappedMaxDocs rs <? _numRecords rs));
    reflexivity.
Qed.

(** On the empty capped store bounded by bytes only, the record count 0
    exceeds [cappedMaxDocs] = -1, yet no eviction is asked for. *)
Lemma cappedAndNeedDelete_unbounded_docs :
  cappedAndNeedDelete emptyCappedStore
  <> ((_cappedMaxSize emptyCappedStore <=? _dataSize emptyCappedStore)
      || (_cappedMaxDocs emptyCappedStore <? _numRecords emptyCappedStore)).
Proof.
  vm_compute. discriminate.
Qed.

(** ** Oversized inserts (C5) *)

(** C5.  On a capped store, inserting data longer than [cappedMaxSize]
    returns BadValue; the operation context and the store (table, counters,
    id allocator, uncommitted ids) are as they were. *)
Theorem insertRecord_too_large (env : Env) (txn : OperationContext)
        (rs : WiredTigerRecordStore) (data : RecordData) :
  _isCapped rs = true ->
  _cappedMaxSize rs < size data ->
  insertRecord env data (txn, rs) = Returns (SW_status BadValue, (txn, rs)).
Proof.
  intros Hcap Hlen. unfold insertRecord, bind, getRS. simpl.
  rewrite Hcap. apply Z.ltb_lt in Hlen. rewrite Hlen. reflexivity.
Qed.

Lemma insertRecord_too_large_witness :
  insertRecord quietEnv (abc ++ abc) (freshTxn, tinyCappedStore)
  = Returns (SW_status BadValue, (freshTxn, tinyCappedStore)).
Proof.
  apply (insertRecord_too_large quietEnv freshTxn tinyCappedStore (abc ++ abc)).
  - reflexivity.
  - vm_compute. reflexivity.
Defined.

(** ** Truncating an empty store (C9) *)

(** C9.  On a store whose table is empty [truncate] returns OK and changes
    nothing: the counters keep their values and no change is registered with
    the recovery unit, oplog stones or not. *)
Theorem truncate_empty (txn : OperationContext) (rs : WiredTigerRecordStore) :
  table rs = [] ->
  truncate (txn, rs) = Returns (Status_OK, (txn, rs)).
Proof.
  intros Hempty. unfold truncate, bind, getRS. simpl.
  rewrite Hempty. reflexivity.
Qed.

Lemma truncate_empty_witness :
  truncate (freshTxn, emptyOplogStore) = Returns (Status_OK, (freshTxn, emptyOplogStore)).
Proof.
  apply (truncate_empty freshTxn emptyOplogStore). reflexivity.
Defined.

(** ** Point lookups of an absent id (C10) *)

(** C10.  When no record is stored under [loc], [findRecord] returns false and
    leaves the caller's buffer as it was, while [dataFor] throws the
    assertion 28556. *)
Theorem lookup_absent (rs : WiredTigerRecordStore) (loc : RecordId)
        (out : RecordData) :
  (forall r, In r (table rs) -> id r <> loc) ->
  findRecord rs loc out = Returns (false, out)
  /\ dataFor rs loc = Throws (MsgAssertionException 28556).
Proof.
  intros Habs. unfold findRecord, dataFor.
  rewrite (wt_search_absent _ _ Habs). split; reflexivity.
Qed.

Lemma lookup_absent_witness :
  findRecord plainStore 30 abc = Returns (false, abc)
  /\ dataFor plainStore 30 = Throws (MsgAssertionException 28556).
Proof.
  apply (lookup_absent plainStore 30 abc).
  simpl. intros r [H|[H|[H|[]]]]; subst r; simpl; lia.
Defined.

(** ** Updates of the oplog (C6) *)

Lemma key_ordered_tail (x : Rec) (t : Table) :
  key_ordered (x :: t) = true -> key_ordered t = true.
Proof.
  simpl. destruct t as [|y t]; [reflexivity|].
  intros H. apply andb_true_iff in H. tauto.
Qed.

Lemma key_ordered_head (x : Rec) (t : Table) :
  key_ordered (x :: t) = true -> forall r, In r t -> id x < id r.
Proof.
  revert x. induction t as [|y t IH]; intros x H r Hin; [contradiction|].
  simpl in H. apply andb_true_iff in H. destruct H as [Hxy Ht].
  apply Z.ltb_lt in Hxy. destruct Hin as [<-|Hin]; [exact Hxy|].
  specialize (IH y Ht r Hin). lia.
Qed.

(** In a table in key order, searching the key of a stored record finds that
    record. *)
Lemma lower_bound_found (t : Table) (old : Rec) :
  key_ordered t = true -> In old t ->
  nth_error t (lower_bound t (id old)) = Some old.
Proof.
  induction t as [|x t IH]; intros Hord Hin; [contradiction|].
  simpl. destruct (id x <? id old) eqn:E.
  - simpl. apply IH; [eapply key_ordered_tail; eassumption|].
    destruct Hin as [->|Hin]; [|exact Hin].
    apply Z.ltb_lt in E. lia.
  - apply Z.ltb_ge in E. destruct Hin as [->|Hin]; [reflexivity|].
    pose proof (key_ordered_head _ _ Hord _ Hin). lia.
Qed.

Lemma wt_search_found (t : Table) (old : Rec) :
  key_ordered t = true -> In old t ->
  exists i, wt_search t (id old) = (0, At i) /\ nth_error t i = Some old.
Proof.
  intros Hord Hin. unfold wt_search.
  pose proof (lower_bound_found _ _ Hord Hin) as Hnth.
  rewrite Hnth, Z.eqb_refl. exists (lower_bound t (id old)). auto.
Qed.

(** Inserting under the key of a stored record replaces that record where it
    stands. *)
Lemma wt_insert_overwrites (t : Table) (old : Rec) (value : RecordData) :
  key_ordered t = true -> In old t ->
  wt_insert t (id old) value =
  map (fun r => if id r =? id old then mkRec (id old) value else r) t.
Proof.
  induction t as [|x t IH]; intros Hord Hin; [contradiction|].
  simpl. destruct (id x <? id old) eqn:E.
  - apply Z.ltb_lt in E.
    assert (Hne : (id x =? id old) = false) by (apply Z.eqb_neq; lia).
    rewrite Hne. f_equal. apply IH; [eapply key_ordered_tail; eassumption|].
    destruct Hin as [->|Hin]; [lia|exact Hin].
  - apply Z.ltb_ge in E. destruct (id x =? id old) eqn:E'.
    + f_equal. apply Z.eqb_eq in E'. symmetry.
      rewrite <- (map_id t) at 2. apply map_ext_in.
      intros r Hr. pose proof (key_ordered_head _ _ Hord _ Hr).
      assert (Hne : (id r =? id old) = false) by (apply Z.eqb_neq; lia).
      now rewrite Hne.
    + apply Z.eqb_neq in E'. destruct Hin as [->|Hin]; [congruence|].
      pose proof (key_ordered_head _ _ Hord _ Hin). lia.
Qed.

(** C6, as amended.  On a store with oplog stones, which is how
    [updateRecord] tells an oplog, updating the record [old] stored at
    [loc]: with data of another length the call returns IllegalOperation and
    the operation context and the store are as they were; with data of the
    same length the call returns [loc], the record at [loc] now carries the
    new data in the place of the old, every other record is as it was, and
    the record count is unchanged. *)
Theorem updateRecord_oplog (env : Env) (txn : OperationContext)
        (rs : WiredTigerRecordStore) (os : OplogStones) (loc : RecordId)
        (newData : RecordData) (old : Rec) :
  _oplogStones rs = Some os ->
  key_ordered (table rs) = true ->
  In old (table rs) ->
  id old = loc ->
  (size newData <> size (data old) ->
   updateRecord env loc newData (txn, rs)
   = Returns (SW_status IllegalOperation, (txn, rs)))
  /\ (size newData = size (data old) ->
      exists txn' rs',
        updateRecord env loc newData (txn, rs) = Returns (SW_value loc, (txn', rs'))
        /\ table rs' =
             map (fun r => if id r =? loc then mkRec loc newData else r) (table rs)
        /\ _numRecords rs' = _numRecords rs
        /\ _dataSize rs' =
             (if _dataSize rs <? 0 then 0 else wrap64 (_dataSize rs))).
Proof.
  intros Hos Hord Hin <-.
  destruct (wt_search_found _ _ Hord Hin) as [i [Hs Hi]].
  unfold updateRecord, bind, getRS. simpl. rewrite Hs. simpl. rewrite Hi.
  destruct old as [k v]. simpl in *. rewrite Hos. simpl. split.
  - intros Hne. apply Z.eqb_neq in Hne. rewrite Hne. reflexivity.
  - intros Heq. rewrite Heq, Z.eqb_refl. simpl.
    pose proof (wt_insert_overwrites _ (mkRec k v) newData Hord Hin) as Hins.
    simpl in Hins. unfold modifyRS. simpl. rewrite Hins, Z.sub_diag.
    match goal with
    | |- context [_increaseDataSize true 0 (?t, ?s)] =>
        destruct (_increaseDataSize_result true 0 t s)
          as [txn' [rs' [Hrun [Hsize [Htable Hnum]]]]]
    end.
    rewrite Hrun. exists txn', rs'.
    rewrite Htable, Hnum, Hsize. simpl. rewrite Z.add_0_r. auto.
Qed.

Lemma updateRecord_oplog_witness :
  updateRecord quietEnv 10 (abc ++ abc) (freshTxn, oplogStore)
  = Returns (SW_status IllegalOperation, (freshTxn, oplogStore))
  /\ exists txn' rs',
       updateRecord quietEnv 10 [x78; x79; x7a] (freshTxn, oplogStore)
       = Returns (SW_value 10, (txn', rs'))
       /\ table rs' = [mkRec 10 [x78; x79; x7a]; mkRec 20 abc].
Proof.
  destruct (updateRecord_oplog quietEnv freshTxn oplogStore
              (mkOplogStones [] 2 6 100 10 RecordId_null) 10
              (abc ++ abc) (mkRec 10 abc)) as [Hresize _];
    [reflexivity | reflexivity | left; reflexivity | reflexivity |].
  destruct (updateRecord_oplog quietEnv freshTxn oplogStore
              (mkOplogStones [] 2 6 100 10 RecordId_null) 10
              [x78; x79; x7a] (mkRec 10 abc)) as [_ Hsame];
    [reflexivity | reflexivity | left; reflexivity | reflexivity |].
  split.
  - apply Hresize. vm_compute. discriminate.
  - destruct (Hsame eq_refl) as [txn' [rs' [Hrun [Htable _]]]].
    exists txn', rs'. split; [exact Hrun | exact Htable].
Defined.

(** An oplog without stones does not refuse a change of length: on
    [oplogWithoutStones], whose [_isOplog] is set, updating the 3-byte record
    10 with 6 bytes returns the id, and the record and the data size have
    grown. *)
Lemma updateRecord_oplog_without_stones_resizes :
  _isOplog oplogWithoutStones = true
  /\ exists txn' rs',
       updateRecord quietEnv 10 (abc ++ abc) (freshTxn, oplogWithoutStones)
       = Returns (SW_value 10, (txn', rs'))
       /\ table rs' = [mkRec 10 (abc ++ abc); mkRec 20 abc]
       /\ _dataSize rs' = 9.
Proof.
  split; [reflexivity|].
  do 2 eexists. split; [vm_compute; reflexivity|]. split; reflexivity.
Qed.

(** ** Capped eviction spares the record just inserted (C3) *)

Lemma wt_next_ok (t : Table) (c c' : WT_CURSOR) (r : Z) :
  wt_next t c = (r, c') ->
  (r = 0 /\ exists i, c' = At i /\ (i < length t)%nat
            /\ (forall j, c = At j -> i = S j))
  \/ (r = WT_NOTFOUND /\ c' = Unpositioned
      /\ (forall j, c = At j -> (length t <= S j)%nat)).
Proof.
  unfold wt_next. destruct c as [|j].
  - destruct t as [|x t]; intros H; injection H as <- <-.
    + right. repeat split. intros j Hj. discriminate.
    + left. split; [reflexivity|]. exists O. simpl. repeat split; [lia|].
      intros j Hj. discriminate.
  - destruct (S j <? length t)%nat eqn:E; intros H; injection H as <- <-.
    + apply Nat.ltb_lt in E. left. split; [reflexivity|].
      exists (S j). repeat split; [exact E|].
      intros j' Hj'. injection Hj' as ->. reflexivity.
    + apply Nat.ltb_ge in E. right. repeat split.
      intros j' Hj'. injection Hj' as ->. exact E.
Qed.

(** The record the truncated range ends at lies below [justInserted],
    whenever the loop has counted a record. *)
Lemma evictScan_stops_below (rs : WiredTigerRecordStore) (justInserted : RecordId)
      (sizeOverCap docsOverCap : Z) (fuel : nat) :
  forall s s',
    (0 < docsRemoved s ->
     scan_ret s = 0 /\ newestOld s < justInserted
     /\ exists i r, scan_c s = At i /\ nth_error (table rs) i = Some r
                    /\ id r < justInserted) ->
    evictScan fuel rs justInserted sizeOverCap docsOverCap s = Returns s' ->
    0 < docsRemoved s' ->
    exists c last,
      truncateEnd (table rs) justInserted s' = (0, c)
      /\ wt_get (table rs) c = Some last
      /\ id last < justInserted.
Proof.
  induction fuel as [|fuel IH]; intros s s' Hinv Hrun Hpos.
  - (* no fuel: the loop returns only where it stops by itself *)
    simpl in Hrun.
    destruct (((sizeSaved s <? sizeOverCap) || (docsRemoved s <? docsOverCap))
              && (docsRemoved s <? 20000)).
    + destruct (wt_next (table rs) (scan_c s)) as [r c] eqn:Enext.
      destruct (r =? 0) eqn:Er; [discriminate|].
      injection Hrun as <-. simpl in Hpos.
      destruct (Hinv Hpos) as [_ [_ [i [x [Hc [Hi Hx]]]]]].
      destruct (wt_next_ok _ _ _ _ Enext) as [[-> _]|[-> [-> Hend]]];
        [discriminate|].
      specialize (Hend i Hc).
      assert (Hlen : (i < length (table rs))%nat)
        by (apply nth_error_Some; congruence).
      unfold truncateEnd. simpl.
      destruct (length (table rs)) as [|n] eqn:En; [lia|].
      assert (n = i) by lia. subst n.
      exists (At i), x. simpl. auto.
    + injection Hrun as <-.
      destruct (Hinv Hpos) as [Hret [Hold [i [x [Hc [Hi Hx]]]]]].
      unfold truncateEnd. rewrite Hret. simpl.
      apply Z.leb_gt in Hold. rewrite Hold, Hc.
      exists (At i), x. simpl. auto.
  - simpl in Hrun.
    destruct (((sizeSaved s <? sizeOverCap) || (docsRemoved s <? docsOverCap))
              && (docsRemoved s <? 20000)).
    + destruct (wt_next (table rs) (scan_c s)) as [r c] eqn:Enext.
      destruct (wt_next_ok _ _ _ _ Enext) as [[-> [i [-> [Hi Hstep]]]]|[-> [-> Hend]]].
      * simpl in Hrun.
        destruct (nth_error (table rs) i) as [old|] eqn:Eold; [|discriminate].
        destruct (justInserted <=? id old) eqn:Ejust.
        { (* past our insert: go back one *)
          injection Hrun as <-. simpl in Hpos.
          destruct (Hinv Hpos) as [_ [_ [j [x [Hc [Hj Hx]]]]]].
          specialize (Hstep j Hc). subst i.
          unfold truncateEnd. simpl. rewrite Ejust. simpl.
          exists (At j), x. simpl. auto. }
        apply Z.leb_gt in Ejust.
        destruct (_shuttingDown rs).
        { injection Hrun as <-.
          unfold truncateEnd. simpl.
          apply Z.leb_gt in Ejust. rewrite Ejust. apply Z.leb_gt in Ejust.
          exists (At i), old. simpl. auto. }
        assert (Hinv' :
                  0 < docsRemoved (mkScan (At i) 0 (id old)
                                          (sizeSaved s + size (data old))
                                          (docsRemoved s + 1)) ->
                  scan_ret (mkScan (At i) 0 (id old)
                                   (sizeSaved s + size (data old))
                                   (docsRemoved s + 1)) = 0
                  /\ newestOld (mkScan (At i) 0 (id old)
                                       (sizeSaved s + size (data old))
                                       (docsRemoved s + 1)) < justInserted
                  /\ exists i0 r0,
                       scan_c (mkScan (At i) 0 (id old)
                                      (sizeSaved s + size (data old))
                                      (docsRemoved s + 1)) = At i0
                       /\ nth_error (table rs) i0 = Some r0
                       /\ id r0 < justInserted).
        { intros _. simpl. repeat split; [exact Ejust|].
          exists i, old. auto. }
        destruct (_cappedDeleteCallback rs) as [cb|].
        { destruct (cb (id old) (data old)); [|discriminate].
          exact (IH _ _ Hinv' Hrun Hpos). }
        exact (IH _ _ Hinv' Hrun Hpos).
      * (* end of the collection: go back one *)
        simpl in Hrun. injection Hrun as <-. simpl in Hpos.
        destruct (Hinv Hpos) as [_ [_ [i [x [Hc [Hi Hx]]]]]].
        specialize (Hend i Hc).
        assert (Hlen : (i < length (table rs))%nat)
          by (apply nth_error_Some; congruence).
        unfold truncateEnd. simpl.
        destruct (length (table rs)) as [|n] eqn:En; [lia|].
        assert (n = i) by lia. subst n.
        exists (At i), x. simpl. auto.
    + injection Hrun as <-.
      destruct (Hinv Hpos) as [Hret [Hold [i [x [Hc [Hi Hx]]]]]].
      unfold truncateEnd. rewrite Hret. simpl.
      apply Z.leb_gt in Hold. rewrite Hold, Hc.
      exists (At i), x. simpl. auto.
Qed.

Lemma wt_truncate_keeps (t : Table) (lo hi : Z) (r : Rec) :
  In r t -> hi < id r -> In r (wt_truncate t (Some lo) (Some hi)).
Proof.
  intros Hin Hhi. unfold wt_truncate. apply filter_In. split; [exact Hin|].
  apply Z.leb_gt in Hhi. rewrite Hhi, andb_false_r. reflexivity.
Qed.

Lemma invariant_returns (b : bool) (st st' : State) (u : unit) :
  invariant b st = Returns (u, st') -> b = true /\ st' = st.
Proof.
  unfold invariant, abort, ret. destruct b; [|discriminate].
  intros H. injection H as _ <-. auto.
Qed.

Lemma cappedDeleteAsNeeded_inlock_spares (env : Env) (justInserted : RecordId)
      (txn txn' : OperationContext) (rs rs' : WiredTigerRecordStore) (n : Z) :
  cappedDeleteAsNeeded_inlock env justInserted (txn, rs) = Returns (n, (txn', rs')) ->
  forall r, In r (table rs) -> justInserted <= id r -> In r (table rs').
Proof.
  intros Hrun r Hin Hjust.
  unfold cappedDeleteAsNeeded_inlock, bind, getTxn, putTxn, getRS in Hrun.
  cbn [fst snd] in Hrun.
  destruct (evictionConflict env).
  { injection Hrun as _ _ <-. exact Hin. }
  match type of Hrun with
  | context [evictScan ?f ?a ?b ?c ?d ?e] =>
      destruct (evictScan f a b c d e) as [s|e0|] eqn:Escan
  end; try discriminate.
  match type of Hrun with
  | context [(if negb (scan_ret s =? WT_NOTFOUND) then _ else _) ?st] =>
      destruct ((if negb (scan_ret s =? WT_NOTFOUND)
                 then invariantWTOK (scan_ret s) else ret tt) st)
        as [[u st1]| |] eqn:Echeck
  end; try discriminate.
  assert (Hst1 : snd st1 = rs).
  { destruct (negb (scan_ret s =? WT_NOTFOUND)).
    - apply invariant_returns in Echeck. destruct Echeck as [_ ->]. reflexivity.
    - injection Echeck as _ <-. reflexivity. }
  destruct (0 <? docsRemoved s) eqn:Epos.
  2:{ injection Hrun as _ _ <-. rewrite Hst1. exact Hin. }
  apply Z.ltb_lt in Epos.
  assert (Hinit :
            0 < docsRemoved (mkScan Unpositioned 0 RecordId_null 0 0) ->
            scan_ret (mkScan Unpositioned 0 RecordId_null 0 0) = 0
            /\ newestOld (mkScan Unpositioned 0 RecordId_null 0 0) < justInserted
            /\ exists i x,
                 scan_c (mkScan Unpositioned 0 RecordId_null 0 0) = At i
                 /\ nth_error (table rs) i = Some x /\ id x < justInserted)
    by (simpl; lia).
  destruct (evictScan_stops_below _ _ _ _ _ _ _ Hinit Escan Epos)
    as [c [last [Hend [Hlast Hbelow]]]].
  rewrite Hend in Hrun.
  destruct (invariantWTOK 0 st1) as [[u2 st2]| |] eqn:E2; try discriminate.
  apply invariant_returns in E2. destruct E2 as [_ ->].
  destruct (wt_next (table rs) Unpositioned) as [r' start].
  destruct (invariantWTOK r' st1) as [[u3 st3]| |] eqn:E3; try discriminate.
  apply invariant_returns in E3. destruct E3 as [_ ->].
  destruct (wt_get (table rs) start) as [first|]; [|discriminate].
  rewrite Hlast in Hrun.
  destruct ((truncateRet env =? ENOENT) || (truncateRet env =? WT_NOTFOUND)).
  { injection Hrun as _ _ <-. rewrite Hst1. exact Hin. }
  destruct (invariantWTOK (truncateRet env) st1) as [[u4 st4]| |] eqn:E4;
    try discriminate.
  apply invariant_returns in E4. destruct E4 as [_ ->].
  unfold modifyRS in Hrun. cbn [fst snd] in Hrun.
  match type of Hrun with
  | context [_changeNumRecords ?d (?t, ?st)] =>
      destruct (_changeNumRecords_result d t st)
        as [t5 [s5 [Hnum [_ [Htable5 _]]]]]
  end.
  rewrite Hnum in Hrun.
  match type of Hrun with
  | context [_increaseDataSize true ?d (?t, ?st)] =>
      destruct (_increaseDataSize_result true d t st)
        as [t6 [s6 [Hsize [_ [Htable6 _]]]]]
  end.
  rewrite Hsize in Hrun. injection Hrun as _ _ <-.
  cbn [snd]. rewrite Htable6, Htable5, Hst1. simpl.
  apply wt_truncate_keeps; [exact Hin | lia].
Qed.

(** The two ways [cappedDeleteAsNeeded] ends: it returns at once, the table
    untouched, or it goes through [cappedDeleteAsNeeded_inlock]. *)
Ltac table_untouched Hrun Hin :=
  injection Hrun as _ _ <-; exact Hin.

Ltac evicted_inlock Hrun Hin Hjust :=
  exact (cappedDeleteAsNeeded_inlock_spares _ _ _ _ _ _ _ Hrun _ Hin Hjust).

(** The loop of the eviction never runs out of fuel. *)
Lemma evictScan_fuel (rs : WiredTigerRecordStore) (justInserted : RecordId)
      (sizeOverCap docsOverCap : Z) (fuel : nat) :
  forall s,
    (remaining (table rs) (scan_c s) < fuel)%nat ->
    evictScan fuel rs justInserted sizeOverCap docsOverCap s <> Aborts.
Proof.
  induction fuel as [|fuel IH]; intros s Hfuel; [lia|].
  simpl.
  destruct (((sizeSaved s <? sizeOverCap) || (docsRemoved s <? docsOverCap))
            && (docsRemoved s <? 20000)); [|discriminate].
  destruct (wt_next (table rs) (scan_c s)) as [r c] eqn:Enext.
  destruct (wt_next_ok _ _ _ _ Enext) as [[-> [i [-> [Hi Hstep]]]]|[-> [-> _]]];
    [|discriminate].
  simpl.
  destruct (nth_error (table rs) i) as [old|] eqn:Eold.
  2:{ apply nth_error_None in Eold. lia. }
  destruct (justInserted <=? id old); [discriminate|].
  destruct (_shuttingDown rs); [discriminate|].
  assert (Hless : (remaining (table rs) (At i) < fuel)%nat).
  { simpl. destruct (scan_c s) as [|j]; simpl in Hfuel.
    - lia.
    - rewrite (Hstep j eq_refl) in *. lia. }
  destruct (_cappedDeleteCallback rs) as [cb|].
  - destruct (cb (id old) (data old)); [|discriminate].
    apply IH. exact Hless.
  - apply IH. exact Hless.
Qed.

(** C3.  Whatever [cappedDeleteAsNeeded(txn, justInserted)] does when it
    returns, every record whose id is [justInserted] or above is still in the
    table afterwards. *)
Theorem cappedDeleteAsNeeded_spares (env : Env) (justInserted : RecordId)
        (txn txn' : OperationContext) (rs rs' : WiredTigerRecordStore) (n : Z) :
  cappedDeleteAsNeeded env justInserted (txn, rs) = Returns (n, (txn', rs')) ->
  forall r, In r (table rs) -> justInserted <= id r -> In r (table rs').
Proof.
  intros Hrun r Hin Hjust.
  unfold cappedDeleteAsNeeded, bind, getRS in Hrun. cbn [fst snd] in Hrun.
  destruct (invariant _ (txn, rs)) as [[u st]| |] eqn:Einv; try discriminate.
  apply invariant_returns in Einv. destruct Einv as [_ ->].
  destruct (negb (cappedAndNeedDelete rs)); [table_untouched Hrun Hin|].
  destruct (negb (_cappedMaxDocs rs =? -1)); [evicted_inlock Hrun Hin Hjust|].
  destruct (try_lock env); [evicted_inlock Hrun Hin Hjust|].
  destruct (_dataSize rs - _cappedMaxSize rs <? _cappedMaxSizeSlack rs);
    [table_untouched Hrun Hin|].
  unfold modifyRS in Hrun. cbn [fst snd] in Hrun.
  destruct (negb (try_lock_for env)); [table_untouched Hrun Hin|].
  destruct (_dataSize rs - _cappedMaxSize rs <? 2 * _cappedMaxSizeSlack rs);
    [table_untouched Hrun Hin|].
  evicted_inlock Hrun Hin Hjust.
Qed.

(** On [overfullStore] the eviction set off by the insert of id 4 removes the
    oldest record and keeps id 4. *)
Lemma cappedDeleteAsNeeded_spares_witness :
  cappedDeleteAsNeeded quietEnv 4 (freshTxn, overfullStore)
  = Returns (1, (freshTxn, evictedStore))
  /\ In (mkRec 4 abc) (table evictedStore).
Proof.
  assert (Hrun : cappedDeleteAsNeeded quietEnv 4 (freshTxn, overfullStore)
                 = Returns (1, (freshTxn, evictedStore)))
    by (vm_compute; reflexivity).
  split; [exact Hrun|].
  apply (cappedDeleteAsNeeded_spares quietEnv 4 freshTxn freshTxn
           overfullStore evictedStore 1 Hrun (mkRec 4 abc)).
  - simpl. auto.
  - simpl. lia.
Defined.

(** ** Restoring a cursor whose last record is gone (C7) *)

Lemma lower_bound_prefix (t : Table) (key : Z) (j : nat) :
  (j < lower_bound t key)%nat ->
  exists r, nth_error t j = Some r /\ id r < key.
Proof.
  revert j. induction t as [|x t IH]; simpl; intros j Hj; [lia|].
  destruct (id x <? key) eqn:E; [|lia].
  destruct j as [|j]; simpl.
  - exists x. apply Z.ltb_lt in E. auto.
  - apply IH. lia.
Qed.

(** The first record above an absent key stands at the lower bound. *)
Lemma find_above (t : Table) (key : Z) :
  (forall r, In r t -> id r <> key) ->
  find (fun r => key <? id r) t = nth_error t (lower_bound t key).
Proof.
  induction t as [|x t IH]; intros Habs; [reflexivity|].
  simpl. destruct (id x <? key) eqn:E.
  - apply Z.ltb_lt in E.
    assert (Hle : (key <? id x) = false) by (apply Z.ltb_ge; lia).
    rewrite Hle. simpl. apply IH. intros r Hr. apply Habs. now right.
  - apply Z.ltb_ge in E. pose proof (Habs x (or_introl eq_refl)).
    assert (Hlt : (key <? id x) = true) by (apply Z.ltb_lt; lia).
    now rewrite Hlt.
Qed.

Lemma find_app_l {A} (f : A -> bool) (l1 l2 : list A) :
  find f (l1 ++ l2) =
  match find f l1 with
  | Some x => Some x
  | None => find f l2
  end.
Proof.
  induction l1 as [|x l1 IH]; simpl; [reflexivity|].
  destruct (f x); [reflexivity | exact IH].
Qed.

(** In a table in key order the last record below a key stands just before
    the lower bound. *)
Lemma find_below (t : Table) (key : Z) :
  key_ordered t = true ->
  find (fun r => id r <? key) (rev t) =
  match lower_bound t key with
  | O => None
  | S j => nth_error t j
  end.
Proof.
  induction t as [|x t IH]; intros Hord; [reflexivity|].
  simpl. rewrite find_app_l. simpl.
  rewrite (IH (key_ordered_tail _ _ Hord)).
  destruct (id x <? key) eqn:E.
  - destruct (lower_bound t key) as [|j] eqn:Elb; [reflexivity|].
    destruct (lower_bound_prefix t key j) as [r [Hr _]]; [lia|].
    now rewrite Hr.
  - apply Z.ltb_ge in E.
    assert (Hnone : find (fun r => id r <? key) (rev t) = None).
    { destruct (find (fun r => id r <? key) (rev t)) as [y|] eqn:Ef;
        [|reflexivity].
      apply find_some in Ef. destruct Ef as [Hy Hlt].
      apply in_rev in Hy. apply Z.ltb_lt in Hlt.
      pose proof (key_ordered_head _ _ Hord _ Hy). lia. }
    rewrite <- (IH (key_ordered_tail _ _ Hord)), Hnone. reflexivity.
Qed.

Lemma wt_next_At (t : Table) (i : nat) :
  (S i < length t)%nat -> wt_next t (At i) = (0, At (S i)).
Proof.
  intros H. apply Nat.ltb_lt in H. unfold wt_next. now rewrite H.
Qed.

Lemma wt_next_At_end (t : Table) (i : nat) :
  (length t <= S i)%nat -> wt_next t (At i) = (WT_NOTFOUND, Unpositioned).
Proof.
  intros H. apply Nat.ltb_ge in H. unfold wt_next. now rewrite H.
Qed.

Lemma wt_next_first (t : Table) (r : Rec) :
  nth_error t 0 = Some r -> wt_next t Unpositioned = (0, At 0).
Proof.
  destruct t; [discriminate | reflexivity].
Qed.

Lemma wt_prev_last (t : Table) (n : nat) :
  length t = S n -> wt_prev t Unpositioned = (0, At n).
Proof.
  intros H. unfold wt_prev. now rewrite H.
Qed.

(** [Cursor::next] on a store that is not capped, for a cursor that has its
    engine cursor and is not at its end: one step of the engine cursor. *)
Lemma Cursor_next_plain (env : Env) (rs : WiredTigerRecordStore)
      (forward : bool) (c : WT_CURSOR) (last readUntil : RecordId) :
  _isCapped rs = false ->
  Cursor_next env rs (mkCursor forward (Some c) false last readUntil) =
  let '(r, c2) :=
    if forward then wt_next (table rs) c else wt_prev (table rs) c in
  if r =? WT_NOTFOUND
  then Returns (None, mkCursor forward (Some c2) true last readUntil)
  else if negb (r =? 0) then Aborts
  else match wt_get (table rs) c2 with
       | None => Aborts
       | Some rec =>
           Returns (Some rec, mkCursor forward (Some c2) false (id rec) readUntil)
       end.
Proof.
  intros Hcap. unfold Cursor_next, isVisible. simpl.
  rewrite Hcap, andb_false_r. simpl. reflexivity.
Qed.

Lemma Cursor_restore_forward (env : Env) (rs : WiredTigerRecordStore) (cur : Cursor) :
  _isCapped rs = false -> _forward cur = true ->
  _eof cur = false ->
  _lastReturnedId cur <> RecordId_null ->
  (forall r, In r (table rs) -> id r <> _lastReturnedId cur) ->
  exists cur' cur'',
    Cursor_restore env rs cur = Returns (true, cur')
    /\ Cursor_next env rs cur' =
       Returns (nth_error (table rs)
                          (lower_bound (table rs) (_lastReturnedId cur)), cur'').
Proof.
  intros Hcap Hfwd Heof Hlast Habs.
  assert (Hnull : isNull (_lastReturnedId cur) = false)
    by (apply Z.eqb_neq; exact Hlast).
  unfold Cursor_restore, wt_search_near.
  rewrite Heof, Hnull, Hcap, Hfwd.
  destruct (nth_error (table rs) (lower_bound (table rs) (_lastReturnedId cur)))
    as [r|] eqn:Enth.
  - destruct (lower_bound_nth _ _ _ Enth) as [Hin Hge].
    assert (Hne : (id r =? _lastReturnedId cur) = false)
      by (apply Z.eqb_neq; auto).
    rewrite Hne.
    assert (Hlen : (lower_bound (table rs) (_lastReturnedId cur)
                    < length (table rs))%nat)
      by (apply nth_error_Some; congruence).
    destruct (lower_bound (table rs) (_lastReturnedId cur)) as [|j] eqn:Elb.
    + simpl. eexists. eexists. split; [reflexivity|].
      rewrite (Cursor_next_plain _ _ _ _ _ _ Hcap).
      rewrite (wt_next_first _ _ Enth). cbn -[nth_error]. rewrite Enth. reflexivity.
    + destruct (landAfter env); simpl;
        (eexists; eexists; split; [reflexivity|]);
        rewrite (Cursor_next_plain _ _ _ _ _ _ Hcap);
        rewrite (wt_next_At _ _ Hlen); cbn -[nth_error]; rewrite Enth; reflexivity.
  - apply nth_error_None in Enth.
    destruct (lower_bound (table rs) (_lastReturnedId cur)) as [|j] eqn:Elb.
    + simpl. eexists. eexists. split; [reflexivity|].
      unfold Cursor_next. simpl. reflexivity.
    + simpl. eexists. eexists. split; [reflexivity|].
      rewrite (Cursor_next_plain _ _ _ _ _ _ Hcap).
      rewrite (wt_next_At_end _ _ Enth). simpl. reflexivity.
Qed.

Lemma Cursor_restore_reverse (env : Env) (rs : WiredTigerRecordStore) (cur : Cursor) :
  _isCapped rs = false -> _forward cur = false ->
  _eof cur = false ->
  _lastReturnedId cur <> RecordId_null ->
  (forall r, In r (table rs) -> id r <> _lastReturnedId cur) ->
  exists cur' cur'',
    Cursor_restore env rs cur = Returns (true, cur')
    /\ Cursor_next env rs cur' =
       Returns (match lower_bound (table rs) (_lastReturnedId cur) with
                | O => None
                | S j => nth_error (table rs) j
                end, cur'').
Proof.
  intros Hcap Hfwd Heof Hlast Habs.
  assert (Hnull : isNull (_lastReturnedId cur) = false)
    by (apply Z.eqb_neq; exact Hlast).
  unfold Cursor_restore, wt_search_near.
  rewrite Heof, Hnull, Hcap, Hfwd.
  pose proof (lower_bound_le (table rs) (_lastReturnedId cur)) as Hle.
  pose proof (lower_bound_prefix (table rs) (_lastReturnedId cur)) as Hpre.
  destruct (nth_error (table rs) (lower_bound (table rs) (_lastReturnedId cur)))
    as [r|] eqn:Enth.
  - destruct (lower_bound_nth _ _ _ Enth) as [Hin Hge].
    assert (Hne : (id r =? _lastReturnedId cur) = false)
      by (apply Z.eqb_neq; auto).
    rewrite Hne.
    assert (Hlen : (lower_bound (table rs) (_lastReturnedId cur)
                    < length (table rs))%nat)
      by (apply nth_error_Some; congruence).
    destruct (lower_bound (table rs) (_lastReturnedId cur)) as [|j] eqn:Elb.
    + simpl. eexists. eexists. split; [reflexivity|].
      rewrite (Cursor_next_plain _ _ _ _ _ _ Hcap). simpl. reflexivity.
    + destruct (Hpre j) as [y [Hy _]]; [lia|].
      destruct (landAfter env); cbn -[wt_next wt_prev nth_error].
      * eexists. eexists. split; [reflexivity|].
        rewrite (Cursor_next_plain _ _ _ _ _ _ Hcap). cbn -[nth_error].
        rewrite Hy. reflexivity.
      * rewrite (wt_next_At _ _ Hlen). simpl.
        eexists. eexists. split; [reflexivity|].
        rewrite (Cursor_next_plain _ _ _ _ _ _ Hcap). cbn -[nth_error].
        rewrite Hy. reflexivity.
  - apply nth_error_None in Enth.
    destruct (lower_bound (table rs) (_lastReturnedId cur)) as [|j] eqn:Elb.
    + simpl. eexists. eexists. split; [reflexivity|].
      unfold Cursor_next. simpl. reflexivity.
    + destruct (Hpre j) as [y [Hy _]]; [lia|].
      cbn -[wt_next wt_prev nth_error]. rewrite (wt_next_At_end _ _ Enth). simpl.
      eexists. eexists. split; [reflexivity|].
      rewrite (Cursor_next_plain _ _ _ _ _ _ Hcap).
      rewrite (wt_prev_last (table rs) j) by lia. cbn -[nth_error].
      rewrite Hy. reflexivity.
Qed.

(** C7.  A cursor that is not at its end is restored while no record carries
    its last returned id.  On a capped store [restore] returns false and
    leaves the cursor at its end, so that [next] returns nothing.  On a store
    that is not capped (its table in key order) [restore] returns true and the
    following [next] returns the next record the cursor has not seen: going
    forward the first record above the last returned id, going backward the
    last record below it, nothing when there is no such record. *)
Theorem Cursor_restore_missing (env : Env) (rs : WiredTigerRecordStore)
        (cur : Cursor) :
  _eof cur = false ->
  _lastReturnedId cur <> RecordId_null ->
  (forall r, In r (table rs) -> id r <> _lastReturnedId cur) ->
  (_isCapped rs = true ->
   exists cur',
     Cursor_restore env rs cur = Returns (false, cur')
     /\ _eof cur' = true
     /\ Cursor_next env rs cur' = Returns (None, cur'))
  /\ (_isCapped rs = false ->
      key_ordered (table rs) = true ->
      exists cur' cur'',
        Cursor_restore env rs cur = Returns (true, cur')
        /\ Cursor_next env rs cur' =
           Returns (if _forward cur
                    then find (fun r => _lastReturnedId cur <? id r) (table rs)
                    else find (fun r => id r <? _lastReturnedId cur)
                              (rev (table rs)),
                    cur'')).
Proof.
  intros Heof Hlast Habs. split.
  - intros Hcap.
    assert (Hnull : isNull (_lastReturnedId cur) = false)
      by (apply Z.eqb_neq; exact Hlast).
    unfold Cursor_restore, wt_search_near.
    rewrite Heof, Hnull, Hcap.
    destruct (nth_error (table rs) (lower_bound (table rs) (_lastReturnedId cur)))
      as [r|] eqn:Enth.
    + destruct (lower_bound_nth _ _ _ Enth) as [Hin _].
      assert (Hne : (id r =? _lastReturnedId cur) = false)
        by (apply Z.eqb_neq; auto).
      rewrite Hne.
      destruct (lower_bound (table rs) (_lastReturnedId cur)) as [|j];
        [|destruct (landAfter env)]; simpl;
        (eexists; split; [reflexivity | split; reflexivity]).
    + destruct (lower_bound (table rs) (_lastReturnedId cur)) as [|j]; simpl;
        (eexists; split; [reflexivity | split; reflexivity]).
  - intros Hcap Hord. destruct (_forward cur) eqn:Hfwd.
    + rewrite (find_above _ _ Habs).
      exact (Cursor_restore_forward env rs cur Hcap Hfwd Heof Hlast Habs).
    + rewrite (find_below _ (_lastReturnedId cur) Hord).
      exact (Cursor_restore_reverse env rs cur Hcap Hfwd Heof Hlast Habs).
Qed.

(** A capped scan that stopped at id 1 and finds it evicted fails to restore;
    a forward scan of [plainStore] that stopped at the deleted id 30 goes on
    with id 40. *)
Lemma Cursor_restore_missing_witness :
  (exists cur',
     Cursor_restore quietEnv evictedStore (savedCursor true 1) = Returns (false, cur')
     /\ _eof cur' = true
     /\ Cursor_next quietEnv evictedStore cur' = Returns (None, cur'))
  /\ (exists cur' cur'',
        Cursor_restore quietEnv plainStore (savedCursor true 30) = Returns (true, cur')
        /\ Cursor_next quietEnv plainStore cur' = Returns (Some (mkRec 40 abc), cur'')).
Proof.
  split.
  - apply (Cursor_restore_missing quietEnv evictedStore (savedCursor true 1)).
    + reflexivity.
    + discriminate.
    + simpl. intros r [H|[H|[H|[]]]]; subst r; simpl; lia.
    + reflexivity.
  - apply (Cursor_restore_missing quietEnv plainStore (savedCursor true 30)).
    + reflexivity.
    + discriminate.
    + simpl. intros r [H|[H|[H|[]]]]; subst r; simpl; lia.
    + reflexivity.
    + reflexivity.
Defined.

(** ** Placing stones by sampling (C8) *)



Lemma insert_sorted_In (x y : RecordId) (l : list RecordId) :
  In y (insert_sorted x l) <-> y = x \/ In y l.
Proof.
  induction l as [|z l IH]; simpl.
  - intuition.
  - destruct (x <=? z); simpl; intuition.
Qed.

Lemma insert_sorted_Sorted (x : RecordId) (l : list RecordId) :
  Sorted Z.le l -> Sorted Z.le (insert_sorted x l).
Proof.
  induction l as [|y l IH]; intros Hs; simpl.
  - repeat constructor.
  - destruct (x <=? y) eqn:E.
    + apply Z.leb_le in E. constructor; [exact Hs | constructor; exact E].
    + apply Z.leb_gt in E. inversion Hs as [|? ? Hl Hhd]; subst.
      constructor; [apply IH; exact Hl|].
      destruct l as [|z l]; simpl.
      * constructor. lia.
      * inversion Hhd as [|? ? Hyz]; subst.
        destruct (x <=? z); constructor; lia.
Qed.

(** [sort_ids] does sort, and keeps what it is given. *)
Lemma sort_ids_Sorted (l : list RecordId) : Sorted Z.le (sort_ids l).
Proof.
  induction l as [|x l IH]; [constructor|].
  apply insert_sorted_Sorted. exact IH.
Qed.

Lemma sort_ids_In (y : RecordId) (l : list RecordId) :
  In y (sort_ids l) <-> In y l.
Proof.
  induction l as [|x l IH]; [reflexivity|].
  unfold sort_ids in *. simpl. rewrite insert_sorted_In, IH. intuition.
Qed.




Lemma wrap64_small (z : Z) : - 2 ^ 63 <= z < 2 ^ 63 -> wrap64 z = z.
Proof.
  intros H. unfold wrap64. rewrite Z.mod_small; lia.
Qed.




(** The scan that sampling falls back to never runs out of fuel: a forward
    cursor moves on with every record it returns. *)
Lemma Cursor_next_forward (env : Env) (rs : WiredTigerRecordStore) (cur : Cursor)
      (c : WT_CURSOR) :
  _forward cur = true -> _cursor cur = Some c ->
  match Cursor_next env rs cur with
  | Returns (Some _, cur') =>
      _forward cur' = true
      /\ exists i, _cursor cur' = Some (At i)
                   /\ (remaining (table rs) (At i) < remaining (table rs) c)%nat
  | Returns (None, _) => True
  | _ => False
  end.
Proof.
  intros Hfwd Hc. unfold Cursor_next. rewrite Hc, Hfwd.
  destruct (_eof cur); [exact I|].
  rewrite andb_false_r. cbn [andb].
  destruct (wt_next (table rs) c) as [r c2] eqn:Enext.
  destruct (wt_next_ok _ _ _ _ Enext) as [[-> [i [-> [Hi Hstep]]]]|[-> [-> _]]];
    [|exact I].
  cbn -[nth_error isVisible].
  destruct (nth_error (table rs) i) as [rec|] eqn:Erec.
  2:{ apply nth_error_None in Erec. lia. }
  destruct (negb (isVisible rs cur (id rec))); [exact I|].
  cbn [_forward _cursor]. split; [reflexivity|].
  exists i. split; [reflexivity|].
  destruct c as [|j]; unfold remaining.
  - lia.
  - pose proof (Hstep j eq_refl). lia.
Qed.

Lemma scanStones_fuel (env : Env) (rs : WiredTigerRecordStore) (fuel : nat) :
  forall cur c os numRecords dataSize,
    _forward cur = true -> _cursor cur = Some c ->
    (remaining (table rs) c < fuel)%nat ->
    exists result,
      scanStones env fuel rs cur os numRecords dataSize = Returns result.
Proof.
  induction fuel as [|fuel IH]; intros cur c os n d Hfwd Hc Hfuel; [lia|].
  pose proof (Cursor_next_forward env rs cur c Hfwd Hc) as Hnext.
  cbn [scanStones].
  destruct (Cursor_next env rs cur) as [[[record|] cur']|e|]; try contradiction.
  - destruct Hnext as [Hfwd' [i [Hc' Hless]]].
    eapply IH; [exact Hfwd' | exact Hc' | lia].
  - eauto.
Qed.

(** * Further properties *)

(** ** What the counter updates leave alone *)

Lemma sameSetup_refl (rs : WiredTigerRecordStore) : sameSetup rs rs.
Proof.
  unfold sameSetup. repeat split.
Qed.

Lemma sameSetup_trans (rs1 rs2 rs3 : WiredTigerRecordStore) :
  sameSetup rs1 rs2 -> sameSetup rs2 rs3 -> sameSetup rs1 rs3.
Proof.
  unfold sameSetup. intros H1 H2.
  repeat match goal with H : _ /\ _ |- _ => destruct H end.
  repeat split; congruence.
Qed.

Lemma _changeNumRecords_run (diff : Z) (txn : OperationContext)
      (rs : WiredTigerRecordStore) :
  _changeNumRecords diff (txn, rs)
  = Returns (tt, (addChange txn (NumRecordsChange diff),
                  set_numRecords (if _numRecords rs <? 0 then Z.max diff 0
                                  else wrap64 (_numRecords rs + diff)) rs)).
Proof.
  unfold _changeNumRecords, bind, registerChange, getRS, modifyRS, ret,
    fetchAndAdd, addChange.
  simpl. destruct (_numRecords rs <? 0); reflexivity.
Qed.

Lemma _increaseDataSize_run (withTxn : bool) (amount : Z)
      (txn : OperationContext) (rs : WiredTigerRecordStore) :
  exists rs',
    _increaseDataSize withTxn amount (txn, rs)
    = Returns (tt, (if withTxn then addChange txn (DataSizeChange amount) else txn,
                    rs'))
    /\ _dataSize rs' =
         (if _dataSize rs <? 0 then Z.max amount 0
          else wrap64 (_dataSize rs + amount))
    /\ table rs' = table rs
    /\ _numRecords rs' = _numRecords rs
    /\ sameSetup rs rs'.
Proof.
  unfold _increaseDataSize, bind, registerChange, getRS, modifyRS, ret,
    fetchAndAdd, addChange, sameSetup.
  destruct txn as [chs till active].
  destruct withTxn; simpl;
    destruct (_dataSize rs <? 0); simpl;
    destruct (_sizeStorer rs); simpl;
    try destruct (Z.rem (_sizeStorerCounter rs) 1000 =? 0); simpl;
    eexists; repeat split.
Qed.

(** ** Tables in key order *)

Lemma key_ordered_skipn (t : Table) (n : nat) :
  key_ordered t = true -> key_ordered (skipn n t) = true.
Proof.
  revert t. induction n as [|n IH]; intros t H; [exact H|].
  destruct t as [|x t]; [reflexivity|].
  simpl. apply IH. eapply key_ordered_tail. eassumption.
Qed.

Lemma filter_all {A} (f : A -> bool) (l : list A) :
  (forall x, In x l -> f x = true) -> filter f l = l.
Proof.
  induction l as [|x l IH]; intros H; [reflexivity|].
  simpl. rewrite (H x (or_introl eq_refl)). f_equal.
  apply IH. intros y Hy. apply H. now right.
Qed.

Lemma filter_none {A} (f : A -> bool) (l : list A) :
  (forall x, In x l -> f x = false) -> filter f l = [].
Proof.
  induction l as [|x l IH]; intros H; [reflexivity|].
  simpl. rewrite (H x (or_introl eq_refl)).
  apply IH. intros y Hy. apply H. now right.
Qed.

(** In a table in key order, truncating from a key at or below the first
    record up to the key of the record at position [d] leaves the records
    behind that position. *)
Lemma wt_truncate_prefix (t : Table) (lo : Z) :
  key_ordered t = true ->
  forall (d : nat) (last : Rec),
    nth_error t d = Some last ->
    (forall r, In r t -> lo <= id r) ->
    wt_truncate t (Some lo) (Some (id last)) = skipn (S d) t.
Proof.
  unfold wt_truncate.
  induction t as [|x t IH]; intros Hord d last Hd Hlo; [destruct d; discriminate|].
  pose proof (Hlo x (or_introl eq_refl)) as Hx. apply Z.leb_le in Hx.
  destruct d as [|d]; simpl in Hd.
  - injection Hd as <-. simpl. rewrite Hx, Z.leb_refl. simpl.
    apply filter_all. intros r Hr.
    pose proof (key_ordered_head _ _ Hord _ Hr) as Hlt.
    apply Z.leb_gt in Hlt. rewrite Hlt, andb_false_r. reflexivity.
  - pose proof (key_ordered_head _ _ Hord _ (nth_error_In _ _ Hd)) as Hlt.
    assert (Hle : (id x <=? id last) = true) by (apply Z.leb_le; lia).
    cbn [filter]. rewrite Hx, Hle. cbn [andb negb skipn].
    apply IH; [eapply key_ordered_tail; eassumption | exact Hd |].
    intros r Hr. apply Hlo. now right.
Qed.

(** The same with the far side open: everything from the record at position
    [d] on goes. *)
Lemma wt_truncate_suffix (t : Table) :
  key_ordered t = true ->
  forall (d : nat) (first : Rec),
    nth_error t d = Some first ->
    wt_truncate t (Some (id first)) None = firstn d t.
Proof.
  unfold wt_truncate.
  induction t as [|x t IH]; intros Hord d first Hd; [destruct d; discriminate|].
  destruct d as [|d]; simpl in Hd.
  - injection Hd as <-. cbn [filter firstn]. rewrite Z.leb_refl. cbn [andb negb].
    apply filter_none. intros r Hr.
    pose proof (key_ordered_head _ _ Hord _ Hr) as Hlt.
    assert (Hle : (id x <=? id r) = true) by (apply Z.leb_le; lia).
    rewrite Hle. reflexivity.
  - pose proof (key_ordered_head _ _ Hord _ (nth_error_In _ _ Hd)) as Hlt.
    apply Z.leb_gt in Hlt. cbn [filter firstn]. rewrite Hlt. cbn [andb negb].
    f_equal. apply IH; [eapply key_ordered_tail; eassumption | exact Hd].
Qed.

Lemma key_ordered_first (t : Table) (first : Rec) :
  key_ordered t = true -> nth_error t 0 = Some first ->
  forall r, In r t -> id first <= id r.
Proof.
  destruct t as [|x t]; [discriminate|].
  intros Hord H r Hr. injection H as <-.
  destruct Hr as [<-|Hr]; [lia|].
  pose proof (key_ordered_head _ _ Hord _ Hr). lia.
Qed.

(** ** What the capped eviction removes *)

Lemma wt_next_cursorAfter (t : Table) (k : nat) :
  (k <= length t)%nat ->
  wt_next t (cursorAfter k) =
  if (k <? length t)%nat then (0, At k) else (WT_NOTFOUND, Unpositioned).
Proof.
  intros Hk. destruct k as [|i]; simpl.
  - destruct t; reflexivity.
  - reflexivity.
Qed.

Lemma totalSize_firstn_S (t : Table) (k : nat) (r : Rec) :
  nth_error t k = Some r ->
  totalSize (firstn (S k) t) = totalSize (firstn k t) + size (data r).
Proof.
  revert k. induction t as [|x t IH]; intros k Hk; [destruct k; discriminate|].
  destruct k as [|k].
  - injection Hk as <-. unfold totalSize. simpl. lia.
  - simpl in Hk. specialize (IH k Hk).
    change (totalSize (firstn (S (S k)) (x :: t)))
      with (size (data x) + totalSize (firstn (S k) t)).
    change (totalSize (firstn (S k) (x :: t)))
      with (size (data x) + totalSize (firstn k t)).
    lia.
Qed.

(** The eviction loop counts the records it passes: when it stops it has
    counted the first [k] records of the table, the range to truncate ends at
    the [k]-th, and it names why it stopped. *)
Lemma evictScan_counts (rs : WiredTigerRecordStore) (justInserted : RecordId)
      (sizeOverCap docsOverCap : Z) (fuel : nat) :
  forall s s',
    (exists k,
        docsRemoved s = Z.of_nat k
        /\ sizeSaved s = totalSize (firstn k (table rs))
        /\ (k <= length (table rs))%nat
        /\ Z.of_nat k <= 20000
        /\ (forall i r, (i < k)%nat -> nth_error (table rs) i = Some r ->
                        id r < justInserted)
        /\ scan_c s = cursorAfter k
        /\ ((0 < k)%nat ->
            scan_ret s = 0 /\ newestOld s < justInserted
            /\ _shuttingDown rs = false)) ->
    evictScan fuel rs justInserted sizeOverCap docsOverCap s = Returns s' ->
    exists k,
      docsRemoved s' = Z.of_nat k
      /\ sizeSaved s' = totalSize (firstn k (table rs))
      /\ (k <= length (table rs))%nat
      /\ Z.of_nat k <= 20000
      /\ (forall i r, (i < k)%nat -> nth_error (table rs) i = Some r ->
                      id r < justInserted)
      /\ ((0 < k)%nat ->
          truncateEnd (table rs) justInserted s' = (0, At (k - 1)))
      /\ ((sizeOverCap <= sizeSaved s' /\ docsOverCap <= docsRemoved s')
          \/ 20000 <= Z.of_nat k
          \/ k = length (table rs)
          \/ (exists r, nth_error (table rs) k = Some r /\ justInserted <= id r)
          \/ _shuttingDown rs = true).
Proof.
  assert (Hstop : forall s k,
             docsRemoved s = Z.of_nat k ->
             sizeSaved s = totalSize (firstn k (table rs)) ->
             (k <= length (table rs))%nat ->
             Z.of_nat k <= 20000 ->
             (forall i r, (i < k)%nat -> nth_error (table rs) i = Some r ->
                          id r < justInserted) ->
             scan_c s = cursorAfter k ->
             ((0 < k)%nat ->
              scan_ret s = 0 /\ newestOld s < justInserted
              /\ _shuttingDown rs = false) ->
             ((sizeSaved s <? sizeOverCap) || (docsRemoved s <? docsOverCap))
             && (docsRemoved s <? 20000) = false ->
             exists k',
               docsRemoved s = Z.of_nat k'
               /\ sizeSaved s = totalSize (firstn k' (table rs))
               /\ (k' <= length (table rs))%nat
               /\ Z.of_nat k' <= 20000
               /\ (forall i r, (i < k')%nat -> nth_error (table rs) i = Some r ->
                               id r < justInserted)
               /\ ((0 < k')%nat ->
                   truncateEnd (table rs) justInserted s = (0, At (k' - 1)))
               /\ ((sizeOverCap <= sizeSaved s /\ docsOverCap <= docsRemoved s)
                   \/ 20000 <= Z.of_nat k'
                   \/ k' = length (table rs)
                   \/ (exists r, nth_error (table rs) k' = Some r
                                 /\ justInserted <= id r)
                   \/ _shuttingDown rs = true)).
  { intros s k Hd Hsz Hk Hcap Hbelow Hc Hpos Econd. exists k.
    repeat split; try assumption.
    - intros Hk0. destruct (Hpos Hk0) as [Hret [Hold _]].
      unfold truncateEnd. rewrite Hret. apply Z.leb_gt in Hold. rewrite Hold.
      simpl. rewrite Hc. destruct k; [lia|]. simpl. rewrite Nat.sub_0_r.
      reflexivity.
    - apply andb_false_iff in Econd. destruct Econd as [E|E].
      + apply orb_false_iff in E. destruct E as [E1 E2].
        apply Z.ltb_ge in E1. apply Z.ltb_ge in E2. left. lia.
      + apply Z.ltb_ge in E. right. left. lia. }
  assert (Hend : forall s k,
             docsRemoved s = Z.of_nat k ->
             sizeSaved s = totalSize (firstn k (table rs)) ->
             (k <= length (table rs))%nat ->
             Z.of_nat k <= 20000 ->
             (forall i r, (i < k)%nat -> nth_error (table rs) i = Some r ->
                          id r < justInserted) ->
             (length (table rs) <= k)%nat ->
             exists k',
               docsRemoved (mkScan Unpositioned WT_NOTFOUND (newestOld s)
                                   (sizeSaved s) (docsRemoved s)) = Z.of_nat k'
               /\ sizeSaved (mkScan Unpositioned WT_NOTFOUND (newestOld s)
                                    (sizeSaved s) (docsRemoved s))
                  = totalSize (firstn k' (table rs))
               /\ (k' <= length (table rs))%nat
               /\ Z.of_nat k' <= 20000
               /\ (forall i r, (i < k')%nat -> nth_error (table rs) i = Some r ->
                               id r < justInserted)
               /\ ((0 < k')%nat ->
                   truncateEnd (table rs) justInserted
                               (mkScan Unpositioned WT_NOTFOUND (newestOld s)
                                       (sizeSaved s) (docsRemoved s))
                   = (0, At (k' - 1)))
               /\ ((sizeOverCap <= sizeSaved s /\ docsOverCap <= docsRemoved s)
                   \/ 20000 <= Z.of_nat k'
                   \/ k' = length (table rs)
                   \/ (exists r, nth_error (table rs) k' = Some r
                                 /\ justInserted <= id r)
                   \/ _shuttingDown rs = true)).
  { intros s k Hd Hsz Hk Hcap Hbelow Hlen. exists k. simpl.
    repeat split; try assumption.
    - intros Hk0. unfold truncateEnd. simpl.
      assert (Hl : length (table rs) = S (k - 1)) by lia.
      rewrite Hl. reflexivity.
    - right. right. left. lia. }
  induction fuel as [|fuel IH];
    intros s s' [k [Hd [Hsz [Hk [Hcap [Hbelow [Hc Hpos]]]]]]] Hrun;
    simpl in Hrun;
    destruct (((sizeSaved s <? sizeOverCap) || (docsRemoved s <? docsOverCap))
              && (docsRemoved s <? 20000)) eqn:Econd.
  - rewrite Hc, (wt_next_cursorAfter _ _ Hk) in Hrun.
    destruct (k <? length (table rs))%nat eqn:Elt; [discriminate|].
    apply Nat.ltb_ge in Elt. simpl in Hrun. injection Hrun as <-.
    exact (Hend s k Hd Hsz Hk Hcap Hbelow Elt).
  - injection Hrun as <-. exact (Hstop s k Hd Hsz Hk Hcap Hbelow Hc Hpos Econd).
  - rewrite Hc, (wt_next_cursorAfter _ _ Hk) in Hrun.
    destruct (k <? length (table rs))%nat eqn:Elt.
    2:{ apply Nat.ltb_ge in Elt. simpl in Hrun. injection Hrun as <-.
        exact (Hend s k Hd Hsz Hk Hcap Hbelow Elt). }
    apply Nat.ltb_lt in Elt. simpl in Hrun.
    destruct (nth_error (table rs) k) as [old|] eqn:Eold.
    2:{ apply nth_error_None in Eold. lia. }
    destruct (justInserted <=? id old) eqn:Ejust.
    { injection Hrun as <-. exists k. simpl.
      repeat split; try assumption.
      - intros Hk0. unfold truncateEnd. simpl. rewrite Ejust. simpl.
        destruct k; [lia|]. simpl. rewrite Nat.sub_0_r. reflexivity.
      - right. right. right. left. exists old. apply Z.leb_le in Ejust. auto. }
    apply Z.leb_gt in Ejust.
    destruct (_shuttingDown rs) eqn:Edown.
    { injection Hrun as <-. exists k. simpl.
      repeat split; try assumption.
      - intros Hk0. destruct (Hpos Hk0) as [_ [_ Hno]]. discriminate.
      - right. right. right. right. reflexivity. }
    apply andb_true_iff in Econd. destruct Econd as [_ Ecap].
    apply Z.ltb_lt in Ecap.
    assert (Hinv :
              exists k',
                docsRemoved (mkScan (At k) 0 (id old)
                                    (sizeSaved s + size (data old))
                                    (docsRemoved s + 1)) = Z.of_nat k'
                /\ sizeSaved (mkScan (At k) 0 (id old)
                                     (sizeSaved s + size (data old))
                                     (docsRemoved s + 1))
                   = totalSize (firstn k' (table rs))
                /\ (k' <= length (table rs))%nat
                /\ Z.of_nat k' <= 20000
                /\ (forall i r, (i < k')%nat ->
                                nth_error (table rs) i = Some r ->
                                id r < justInserted)
                /\ scan_c (mkScan (At k) 0 (id old)
                                  (sizeSaved s + size (data old))
                                  (docsRemoved s + 1)) = cursorAfter k'
                /\ ((0 < k')%nat ->
                    scan_ret (mkScan (At k) 0 (id old)
                                     (sizeSaved s + size (data old))
                                     (docsRemoved s + 1)) = 0
                    /\ newestOld (mkScan (At k) 0 (id old)
                                         (sizeSaved s + size (data old))
                                         (docsRemoved s + 1)) < justInserted
                    /\ false = false)).
    { exists (S k). cbn [scan_c docsRemoved sizeSaved scan_ret newestOld cursorAfter].
      rewrite (totalSize_firstn_S _ _ _ Eold), Hsz, Hd.
      repeat split; try lia.
      intros i r Hi Hr. destruct (Nat.eq_dec i k) as [->|Hne].
      - rewrite Eold in Hr. injection Hr as <-. exact Ejust.
      - apply (Hbelow i r); [lia | exact Hr]. }
    destruct (_cappedDeleteCallback rs) as [cb|].
    + destruct (cb (id old) (data old)); [|discriminate].
      exact (IH _ _ Hinv Hrun).
    + exact (IH _ _ Hinv Hrun).
  - injection Hrun as <-. exact (Hstop s k Hd Hsz Hk Hcap Hbelow Hc Hpos Econd).
Qed.

(** What a return of [cappedDeleteAsNeeded_inlock] leaves behind: nothing
    changed (write conflict or soft truncate failure), or the first [k]
    records gone, the counters charged with them, and the reason the loop
    stopped at [k]. *)
Lemma cappedDeleteAsNeeded_inlock_result (env : Env) (justInserted : RecordId)
      (txn txn' : OperationContext) (rs rs' : WiredTigerRecordStore) (n : Z) :
  key_ordered (table rs) = true ->
  cappedDeleteAsNeeded_inlock env justInserted (txn, rs) = Returns (n, (txn', rs')) ->
  txn' = txn /\ sameSetup rs rs'
  /\ ((n = 0 /\ rs' = rs
       /\ (evictionConflict env = true
           \/ truncateRet env = ENOENT \/ truncateRet env = WT_NOTFOUND))
      \/ evicted justInserted rs rs' n).
Proof.
  intros Hord Hrun.
  unfold cappedDeleteAsNeeded_inlock, bind, getTxn, putTxn, getRS in Hrun.
  cbn [fst snd] in Hrun.
  destruct (evictionConflict env) eqn:Econf.
  { injection Hrun as <- <- <-.
    split; [reflexivity|]. split; [apply sameSetup_refl|]. left. auto. }
  match type of Hrun with
  | context [evictScan ?f ?a ?b ?c ?d ?e] =>
      destruct (evictScan f a b c d e) as [s|e0|] eqn:Escan
  end; try discriminate.
  match type of Hrun with
  | context [(if negb (scan_ret s =? WT_NOTFOUND) then _ else _) ?st] =>
      destruct ((if negb (scan_ret s =? WT_NOTFOUND)
                 then invariantWTOK (scan_ret s) else ret tt) st)
        as [[u st1]| |] eqn:Echeck
  end; try discriminate.
  assert (Hst1 : st1 = (mkTxn [] RecordId_null false, rs)).
  { destruct (negb (scan_ret s =? WT_NOTFOUND)).
    - apply invariant_returns in Echeck. destruct Echeck as [_ ->]. reflexivity.
    - injection Echeck as _ <-. reflexivity. }
  subst st1.
  assert (Hinit :
            exists k,
              docsRemoved (mkScan Unpositioned 0 RecordId_null 0 0) = Z.of_nat k
              /\ sizeSaved (mkScan Unpositioned 0 RecordId_null 0 0)
                 = totalSize (firstn k (table rs))
              /\ (k <= length (table rs))%nat
              /\ Z.of_nat k <= 20000
              /\ (forall i r, (i < k)%nat -> nth_error (table rs) i = Some r ->
                              id r < justInserted)
              /\ scan_c (mkScan Unpositioned 0 RecordId_null 0 0) = cursorAfter k
              /\ ((0 < k)%nat ->
                  scan_ret (mkScan Unpositioned 0 RecordId_null 0 0) = 0
                  /\ newestOld (mkScan Unpositioned 0 RecordId_null 0 0)
                     < justInserted
                  /\ _shuttingDown rs = false)).
  { exists O. simpl. repeat split; lia. }
  destruct (evictScan_counts _ _ _ _ _ _ _ Hinit Escan)
    as [k [Hd [Hsz [Hk [Hcap [Hbelow [Hend Hwhy]]]]]]].
  fold (sizeOverCapOf rs) in Hwhy. fold (docsOverCapOf rs) in Hwhy.
  rewrite Hsz, Hd in Hwhy.
  destruct (0 <? docsRemoved s) eqn:Epos.
  2:{ injection Hrun as <- <- <-.
      split; [reflexivity|]. split; [apply sameSetup_refl|].
      right. exists k. rewrite Hd in *. rewrite Epos.
      apply Z.ltb_ge in Epos. assert (k = O) by lia. subst k.
      repeat split; try lia. exact Hwhy. }
  pose proof Epos as Epos'. apply Z.ltb_lt in Epos'.
  assert (Hk0 : (0 < k)%nat) by lia.
  rewrite (Hend Hk0) in Hrun.
  unfold invariantWTOK at 1 in Hrun. cbn [Z.eqb invariant ret] in Hrun.
  destruct (nth_error (table rs) 0) as [first|] eqn:Efirst.
  2:{ apply nth_error_None in Efirst. lia. }
  rewrite (wt_next_first _ _ Efirst) in Hrun.
  unfold invariantWTOK at 1 in Hrun. cbn [Z.eqb invariant ret wt_get] in Hrun.
  rewrite Efirst in Hrun.
  destruct (nth_error (table rs) (k - 1)) as [last|] eqn:Elast.
  2:{ apply nth_error_None in Elast. lia. }
  destruct ((truncateRet env =? ENOENT) || (truncateRet env =? WT_NOTFOUND))
    eqn:Esoft.
  { injection Hrun as <- <- <-.
    split; [reflexivity|]. split; [apply sameSetup_refl|]. left.
    repeat split. right.
    apply orb_true_iff in Esoft. destruct Esoft as [E|E];
      apply Z.eqb_eq in E; auto. }
  destruct (invariantWTOK (truncateRet env) _) as [[u4 st4]| |] eqn:E4;
    try discriminate.
  apply invariant_returns in E4. destruct E4 as [_ ->].
  unfold modifyRS in Hrun. cbn [fst snd] in Hrun.
  rewrite _changeNumRecords_run in Hrun.
  match type of Hrun with
  | context [_increaseDataSize true ?d (?t, ?st)] =>
      destruct (_increaseDataSize_run true d t st)
        as [s6 [Hsize [Hds [Htable [Hnum Hsetup]]]]]
  end.
  rewrite Hsize in Hrun. injection Hrun as <- <- <-.
  split; [reflexivity|].
  split.
  { eapply sameSetup_trans; [|exact Hsetup]. unfold sameSetup. simpl.
    repeat split. }
  right. exists k. rewrite Hd in *. rewrite Epos.
  rewrite Htable, Hnum, Hds.
  cbn [table set_table set_numRecords _numRecords _dataSize].
  pose proof (wt_truncate_prefix _ _ Hord (k - 1) last Elast
                (key_ordered_first _ _ Hord Efirst)) as Htrunc.
  replace (S (k - 1)) with k in Htrunc by lia.
  rewrite Hsz.
  split; [reflexivity|]. split; [lia|]. split; [exact Hk|].
  split; [exact Hbelow|].
  split; [exact Htrunc|].
  split; [destruct (_numRecords rs <? 0); [reflexivity | f_equal; lia]|].
  split; [destruct (_dataSize rs <? 0); [reflexivity | f_equal; lia]|].
  exact Hwhy.
Qed.

(** The same for [cappedDeleteAsNeeded]: it leaves without evicting (nothing
    to delete, eviction left to the thread that holds the lock, write
    conflict, soft truncate failure), or it evicts the first [k] records. *)
Lemma cappedDeleteAsNeeded_result (env : Env) (justInserted : RecordId)
      (txn txn' : OperationContext) (rs rs' : WiredTigerRecordStore) (n : Z) :
  key_ordered (table rs) = true ->
  cappedDeleteAsNeeded env justInserted (txn, rs) = Returns (n, (txn', rs')) ->
  txn' = txn /\ sameSetup rs rs' /\ _oplogStones rs = None
  /\ ((n = 0 /\ table rs' = table rs
       /\ _numRecords rs' = _numRecords rs /\ _dataSize rs' = _dataSize rs
       /\ (cappedAndNeedDelete rs = false
           \/ (_cappedMaxDocs rs = -1 /\ try_lock env = false)
           \/ evictionConflict env = true
           \/ truncateRet env = ENOENT \/ truncateRet env = WT_NOTFOUND))
      \/ evicted justInserted rs rs' n).
Proof.
  intros Hord Hrun.
  unfold cappedDeleteAsNeeded, bind, getRS in Hrun. cbn [fst snd] in Hrun.
  destruct (invariant _ (txn, rs)) as [[u st]| |] eqn:Einv; try discriminate.
  apply invariant_returns in Einv. destruct Einv as [Hstones ->].
  assert (Hnone : _oplogStones rs = None)
    by (destruct (_oplogStones rs); [discriminate | reflexivity]).
  assert (Hquit : forall rs0 : WiredTigerRecordStore,
             ret 0 (txn, rs0) = Returns (n, (txn', rs')) ->
             sameSetup rs rs0 -> table rs0 = table rs ->
             _numRecords rs0 = _numRecords rs -> _dataSize rs0 = _dataSize rs ->
             (cappedAndNeedDelete rs = false
              \/ (_cappedMaxDocs rs = -1 /\ try_lock env = false)
              \/ evictionConflict env = true
              \/ truncateRet env = ENOENT \/ truncateRet env = WT_NOTFOUND) ->
             txn' = txn /\ sameSetup rs rs' /\ _oplogStones rs = None
             /\ ((n = 0 /\ table rs' = table rs
                  /\ _numRecords rs' = _numRecords rs
                  /\ _dataSize rs' = _dataSize rs
                  /\ (cappedAndNeedDelete rs = false
                      \/ (_cappedMaxDocs rs = -1 /\ try_lock env = false)
                      \/ evictionConflict env = true
                      \/ truncateRet env = ENOENT
                      \/ truncateRet env = WT_NOTFOUND))
                 \/ evicted justInserted rs rs' n)).
  { intros rs0 H Hsetup Ht Hn Hd Hwhy. injection H as <- <- <-.
    split; [reflexivity|]. split; [exact Hsetup|]. split; [exact Hnone|].
    left. auto. }
  assert (Hevict : forall rs0 : WiredTigerRecordStore,
             cappedDeleteAsNeeded_inlock env justInserted (txn, rs0)
             = Returns (n, (txn', rs')) ->
             sameSetup rs rs0 -> table rs0 = table rs ->
             _numRecords rs0 = _numRecords rs -> _dataSize rs0 = _dataSize rs ->
             txn' = txn /\ sameSetup rs rs' /\ _oplogStones rs = None
             /\ ((n = 0 /\ table rs' = table rs
                  /\ _numRecords rs' = _numRecords rs
                  /\ _dataSize rs' = _dataSize rs
                  /\ (cappedAndNeedDelete rs = false
                      \/ (_cappedMaxDocs rs = -1 /\ try_lock env = false)
                      \/ evictionConflict env = true
                      \/ truncateRet env = ENOENT
                      \/ truncateRet env = WT_NOTFOUND))
                 \/ evicted justInserted rs rs' n)).
  { intros rs0 H Hsetup Ht Hn Hd.
    assert (Hord0 : key_ordered (table rs0) = true) by (rewrite Ht; exact Hord).
    destruct (cappedDeleteAsNeeded_inlock_result _ _ _ _ _ _ _ Hord0 H)
      as [-> [Hsetup' Hcases]].
    split; [reflexivity|].
    split; [exact (sameSetup_trans _ _ _ Hsetup Hsetup')|].
    split; [exact Hnone|].
    destruct Hcases as [[-> [-> Hwhy]]|Hk].
    - left. repeat split; try assumption. right. right. exact Hwhy.
    - right. unfold evicted in *.
      assert (Hso : sizeOverCapOf rs0 = sizeOverCapOf rs).
      { unfold sizeOverCapOf. rewrite Hd.
        destruct Hsetup as [_ [_ [-> _]]]. reflexivity. }
      assert (Hdo : docsOverCapOf rs0 = docsOverCapOf rs).
      { unfold docsOverCapOf. rewrite Hn.
        destruct Hsetup as [_ [_ [_ [_ [-> _]]]]]. reflexivity. }
      assert (Hdown : _shuttingDown rs0 = _shuttingDown rs).
      { destruct Hsetup as [_ [_ [_ [_ [_ [_ [_ [_ [_ [_ [-> _]]]]]]]]]]].
        reflexivity. }
      rewrite Ht, Hn, Hd, Hso, Hdo, Hdown in Hk. exact Hk. }
  destruct (negb (cappedAndNeedDelete rs)) eqn:Eneed.
  { apply negb_true_iff in Eneed.
    apply (Hquit _ Hrun); auto using sameSetup_refl. }
  destruct (negb (_cappedMaxDocs rs =? -1)) eqn:Edocs.
  { apply (Hevict _ Hrun); auto using sameSetup_refl. }
  apply negb_false_iff in Edocs. apply Z.eqb_eq in Edocs.
  destruct (try_lock env) eqn:Elock.
  { apply (Hevict _ Hrun); auto using sameSetup_refl. }
  destruct (_dataSize rs - _cappedMaxSize rs <? _cappedMaxSizeSlack rs).
  { apply (Hquit _ Hrun); auto using sameSetup_refl. }
  unfold modifyRS in Hrun. cbn [fst snd] in Hrun.
  assert (Hslept : forall a b, sameSetup rs (set_cappedSleepMS a (set_cappedSleep b rs)))
    by (intros a b; unfold sameSetup; simpl; repeat split).
  destruct (negb (try_lock_for env)).
  { apply (Hquit _ Hrun); auto. }
  destruct (_dataSize rs - _cappedMaxSize rs <? 2 * _cappedMaxSizeSlack rs).
  { apply (Hquit _ Hrun); auto. }
  apply (Hevict _ Hrun); auto.
Qed.

Lemma totalSize_nonneg (t : Table) : 0 <= totalSize t.
Proof.
  induction t as [|x t IH]; unfold totalSize in *; cbn [fold_right]; [lia|].
  assert (0 <= size (data x)) by (unfold size; lia). lia.
Qed.

Lemma totalSize_firstn_le (t : Table) (k : nat) :
  totalSize (firstn k t) <= totalSize t.
Proof.
  revert k. induction t as [|x t IH]; intros k.
  - rewrite firstn_nil. lia.
  - destruct k as [|k].
    + pose proof (totalSize_nonneg (x :: t)). unfold totalSize in *.
      cbn [firstn fold_right] in *. lia.
    + specialize (IH k). unfold totalSize in *. cbn [firstn fold_right]. lia.
Qed.

(** X1.  Capped eviction is a truncation of the oldest records: when
    [cappedDeleteAsNeeded] returns [n] on a table in key order, [n] is between
    0 and 20000, the table has lost exactly its first [n] records, and the
    caller's operation context (its registered changes) and the setup of the
    store are as they were. *)
Theorem cappedDeleteAsNeeded_removes_oldest
        (env : Env) (justInserted : RecordId) (txn txn' : OperationContext)
        (rs rs' : WiredTigerRecordStore) (n : Z) :
  key_ordered (table rs) = true ->
  cappedDeleteAsNeeded env justInserted (txn, rs) = Returns (n, (txn', rs')) ->
  txn' = txn
  /\ 0 <= n <= 20000
  /\ table rs' = skipn (Z.to_nat n) (table rs)
  /\ sameSetup rs rs'.
Proof.
  intros Hord Hrun.
  destruct (cappedDeleteAsNeeded_result _ _ _ _ _ _ _ Hord Hrun)
    as [-> [Hsetup [_ [[-> [Ht _]]|[k [-> [Hcap [_ [_ [Ht _]]]]]]]]]].
  - split; [reflexivity|]. split; [lia|]. split; [exact Ht | exact Hsetup].
  - rewrite Nat2Z.id.
    split; [reflexivity|]. split; [lia|]. split; [exact Ht | exact Hsetup].
Qed.

Lemma cappedDeleteAsNeeded_removes_oldest_witness :
  table evictedStore = skipn 1 (table overfullStore).
Proof.
  apply (cappedDeleteAsNeeded_removes_oldest quietEnv 4 freshTxn freshTxn
           overfullStore evictedStore 1).
  - reflexivity.
  - vm_compute. reflexivity.
Defined.

(** X2.  The size counters follow the eviction: with counters that are not
    negative (and 63-bit sizes), a return of [n] leaves the record count lower
    by [n] and the data size lower by the bytes of the [n] records removed. *)
Theorem cappedDeleteAsNeeded_counters
        (env : Env) (justInserted : RecordId) (txn txn' : OperationContext)
        (rs rs' : WiredTigerRecordStore) (n : Z) :
  key_ordered (table rs) = true ->
  0 <= _numRecords rs < 2 ^ 63 ->
  0 <= _dataSize rs < 2 ^ 63 ->
  totalSize (table rs) < 2 ^ 63 ->
  cappedDeleteAsNeeded env justInserted (txn, rs) = Returns (n, (txn', rs')) ->
  _numRecords rs' = _numRecords rs - n
  /\ _dataSize rs' = _dataSize rs - totalSize (firstn (Z.to_nat n) (table rs)).
Proof.
  intros Hord Hnum Hsize Htotal Hrun.
  destruct (cappedDeleteAsNeeded_result _ _ _ _ _ _ _ Hord Hrun)
    as [_ [_ [_ [[-> [_ [Hn [Hd _]]]]|[k [-> [Hcap [_ [_ [_ [Hn [Hd _]]]]]]]]]]]].
  - unfold totalSize. cbn [Z.to_nat firstn fold_right]. lia.
  - rewrite Nat2Z.id.
    pose proof (totalSize_nonneg (firstn k (table rs))) as H0.
    pose proof (totalSize_firstn_le (table rs) k) as H1.
    assert (Hn0 : (_numRecords rs <? 0) = false) by (apply Z.ltb_ge; lia).
    assert (Hd0 : (_dataSize rs <? 0) = false) by (apply Z.ltb_ge; lia).
    rewrite Hn0 in Hn. rewrite Hd0 in Hd.
    destruct (0 <? Z.of_nat k) eqn:Epos.
    + rewrite wrap64_small in Hn by lia. rewrite wrap64_small in Hd by lia.
      auto.
    + apply Z.ltb_ge in Epos. assert (k = O) by lia. subst k.
      unfold totalSize. cbn [firstn fold_right]. lia.
Qed.

Lemma cappedDeleteAsNeeded_counters_witness :
  _numRecords evictedStore = _numRecords overfullStore - 1
  /\ _dataSize evictedStore
     = _dataSize overfullStore
       - totalSize (firstn (Z.to_nat 1) (table overfullStore)).
Proof.
  apply (cappedDeleteAsNeeded_counters quietEnv 4 freshTxn freshTxn
           overfullStore evictedStore 1).
  - reflexivity.
  - simpl. lia.
  - simpl. lia.
  - vm_compute. reflexivity.
  - vm_compute. reflexivity.
Defined.

Lemma key_ordered_nth (t : Table) :
  key_ordered t = true ->
  forall i j a b,
    nth_error t i = Some a -> nth_error t j = Some b -> (i < j)%nat ->
    id a < id b.
Proof.
  induction t as [|x t IH]; intros Hord i j a b Hi Hj Hlt;
    [destruct i; discriminate|].
  destruct j as [|j]; [lia|]. simpl in Hj.
  destruct i as [|i].
  - injection Hi as <-.
    exact (key_ordered_head _ _ Hord _ (nth_error_In _ _ Hj)).
  - simpl in Hi.
    apply (IH (key_ordered_tail _ _ Hord) i j); [assumption | assumption | lia].
Qed.

(** X3.  The document bound holds after an eviction that runs to its end.  On
    a capped store with a document bound, an exact record count that
    overshoots the bound by at most 20000 and a table in key order whose
    newest record is the one just inserted, a return of
    [cappedDeleteAsNeeded] without write conflict, truncate failure or
    shutdown leaves the record count at or below [cappedMaxDocs]. *)
Theorem cappedDeleteAsNeeded_docs_bound
        (env : Env) (justInserted : RecordId) (txn txn' : OperationContext)
        (rs rs' : WiredTigerRecordStore) (n : Z) (newest : Rec) :
  _isCapped rs = true ->
  1 <= _cappedMaxDocs rs ->
  key_ordered (table rs) = true ->
  _numRecords rs = Z.of_nat (length (table rs)) ->
  _numRecords rs < 2 ^ 63 ->
  _numRecords rs - _cappedMaxDocs rs <= 20000 ->
  nth_error (table rs) (length (table rs) - 1) = Some newest ->
  id newest = justInserted ->
  evictionConflict env = false ->
  truncateRet env = 0 ->
  _shuttingDown rs = false ->
  cappedDeleteAsNeeded env justInserted (txn, rs) = Returns (n, (txn', rs')) ->
  _numRecords rs' <= _cappedMaxDocs rs.
Proof.
  intros Hcap Hmax Hord Hexact Hfit Hover Hnewest Hjust Hconf Htrunc Hdown Hrun.
  destruct (cappedDeleteAsNeeded_result _ _ _ _ _ _ _ Hord Hrun)
    as [_ [_ [_ [[_ [_ [Hn [_ Hwhy]]]]|[k [-> [Hk20 [Hk [_ [_ [Hn [_ Hwhy]]]]]]]]]]]].
  - rewrite Hn.
    destruct Hwhy as [Hneed|[[Hdocs _]|[Hc|[Ht|Ht]]]];
      try lia; try congruence;
      try (rewrite Htrunc in Ht; discriminate).
    unfold cappedAndNeedDelete in Hneed. rewrite Hcap in Hneed. simpl in Hneed.
    destruct (_cappedMaxSize rs <=? _dataSize rs); [discriminate|].
    assert (Hm : (_cappedMaxDocs rs =? -1) = false) by (apply Z.eqb_neq; lia).
    rewrite Hm in Hneed. simpl in Hneed.
    destruct (_cappedMaxDocs rs <? _numRecords rs) eqn:E; [discriminate|].
    apply Z.ltb_ge in E. exact E.
  - assert (Hn0 : (_numRecords rs <? 0) = false) by (apply Z.ltb_ge; lia).
    rewrite Hn0 in Hn.
    assert (Hval : _numRecords rs' = _numRecords rs - Z.of_nat k).
    { destruct (0 <? Z.of_nat k) eqn:Epos.
      - rewrite wrap64_small in Hn by lia. exact Hn.
      - apply Z.ltb_ge in Epos. lia. }
    rewrite Hval.
    destruct Hwhy as [[_ Hdocs]|[H20|[Hall|[[r [Hr Hge]]|Hs]]]].
    + unfold docsOverCapOf in Hdocs.
      destruct (negb (_cappedMaxDocs rs =? -1)
                && (_cappedMaxDocs rs <? _numRecords rs)) eqn:E; [lia|].
      apply andb_false_iff in E. destruct E as [E|E].
      * apply negb_false_iff in E. apply Z.eqb_eq in E. lia.
      * apply Z.ltb_ge in E. lia.
    + lia.
    + lia.
    + assert (Hkk : (length (table rs) - 1 <= k)%nat).
      { destruct (Nat.le_gt_cases (length (table rs) - 1) k) as [H|H];
          [exact H|].
        pose proof (key_ordered_nth _ Hord _ _ _ _ Hr Hnewest H). lia. }
      assert (Hlen : (k < length (table rs))%nat)
        by (apply nth_error_Some; congruence).
      lia.
    + congruence.
Qed.

Lemma cappedDeleteAsNeeded_docs_bound_witness :
  _numRecords evictedStore <= _cappedMaxDocs overfullStore.
Proof.
  apply (cappedDeleteAsNeeded_docs_bound quietEnv 4 freshTxn freshTxn
           overfullStore evictedStore 1 (mkRec 4 abc));
    try reflexivity; simpl; lia.
Defined.

(** ** Inserting *)

Lemma wt_insert_In (t : Table) (key : Z) (value : RecordData) :
  In (mkRec key value) (wt_insert t key value).
Proof.
  induction t as [|x t IH]; simpl; [auto|].
  destruct (id x <? key); [right; exact IH|].
  destruct (id x =? key); left; reflexivity.
Qed.

Lemma wt_insert_other (t : Table) (key : Z) (value : RecordData) (r : Rec) :
  In r t -> id r <> key -> In r (wt_insert t key value).
Proof.
  induction t as [|x t IH]; intros Hin Hne; [contradiction|].
  simpl. destruct (id x <? key).
  - destruct Hin as [->|Hin]; [left; reflexivity | right; auto].
  - destruct (id x =? key) eqn:E.
    + apply Z.eqb_eq in E. destruct Hin as [->|Hin]; [congruence | right; exact Hin].
    + right. exact Hin.
Qed.

Lemma wt_insert_ordered (t : Table) (key : Z) (value : RecordData) :
  key_ordered t = true -> key_ordered (wt_insert t key value) = true.
Proof.
  induction t as [|x t IH]; intros Hord; [reflexivity|].
  cbn [wt_insert]. destruct (id x <? key) eqn:E.
  - specialize (IH (key_ordered_tail _ _ Hord)).
    destruct t as [|y t].
    + simpl. rewrite E. reflexivity.
    + cbn [wt_insert] in *.
      assert (Hxy : id x < id y)
        by (apply (key_ordered_head _ _ Hord); left; reflexivity).
      apply Z.ltb_lt in Hxy.
      destruct (id y <? key).
      * cbn [key_ordered]. cbn [key_ordered] in IH. rewrite Hxy. exact IH.
      * destruct (id y =? key); cbn [key_ordered id];
          cbn [key_ordered id] in IH; rewrite E; exact IH.
  - apply Z.ltb_ge in E. destruct (id x =? key) eqn:E'.
    + apply Z.eqb_eq in E'. destruct t as [|y t]; [reflexivity|].
      cbn [key_ordered id]. cbn [key_ordered] in Hord. rewrite <- E'. exact Hord.
    + apply Z.eqb_neq in E'.
      assert (Hlt : (key <? id x) = true) by (apply Z.ltb_lt; lia).
      change (key_ordered (mkRec key value :: x :: t))
        with ((key <? id x) && key_ordered (x :: t)).
      rewrite Hlt. exact Hord.
Qed.

(** The first step of [insertRecord]: choosing the id. *)
Lemma insertRecord_chooses (env : Env) (data : RecordData)
      (txn : OperationContext) (rs : WiredTigerRecordStore)
      (a : StatusWith RecordId) (st' : State) :
  (if _useOplogHack rs then
     match extractKey env data with
     | SW_status code => ret (SW_status code)
     | SW_value loc =>
         (if _oplog_highestSeen rs <? loc
          then modifyRS (set_oplog_highestSeen loc) else ret tt) ;;
         ret (SW_value loc)
     end
   else if _isCapped rs then
     loc <- _nextId ;;
     _addUncommitedDiskLoc_inlock loc ;;
     ret (SW_value loc)
   else
     loc <- _nextId ;;
     ret (SW_value loc)) (txn, rs) = Returns (a, st') ->
  match a with
  | SW_value loc => idChosen env data txn rs loc (fst st') (snd st')
  | SW_status _ => True
  end.
Proof.
  unfold idChosen.
  destruct (_useOplogHack rs) eqn:Ehack.
  - destruct (extractKey env data) as [loc|code] eqn:Ekey.
    + unfold bind, modifyRS, ret.
      destruct (_oplog_highestSeen rs <? loc) eqn:Eseen; intros H;
        injection H as <- <-; cbn [fst snd]; rewrite Eseen; auto.
    + intros H. injection H as <- _. exact I.
  - assert (Hnext : forall (k : RecordId -> M (StatusWith RecordId)),
               (loc <- _nextId ;; k loc) (txn, rs) = Returns (a, st') ->
               isNormal (_nextIdNum rs) = true
               /\ k (_nextIdNum rs)
                    (txn, set_nextIdNum (wrap64 (_nextIdNum rs + 1)) rs)
                  = Returns (a, st')).
    { intros k. unfold _nextId, bind, getRS, invariant, modifyRS, ret, abort,
        fetchAndAdd. cbn [fst snd]. rewrite Ehack. cbn [negb].
      cbn [fst snd].
      destruct (isNormal (_nextIdNum rs)); [auto | discriminate]. }
    destruct (_isCapped rs).
    + intros H. apply Hnext in H. destruct H as [Hnormal H].
      unfold _addUncommitedDiskLoc_inlock, bind, getRS, modifyRS,
        registerChange, ret in H.
      cbn [fst snd] in H. injection H as <- <-.
      cbn [fst snd]. repeat split; auto.
    + intros H. apply Hnext in H. destruct H as [Hnormal H].
      unfold ret in H. injection H as <- <-.
      cbn [fst snd]. repeat split; auto.
Qed.

(** Every successful [insertRecord] runs the same course: an id is chosen,
    the record goes into the table under it, the counters are raised, and
    then the oplog stones are told on commit, or the capped eviction runs. *)
Lemma insertRecord_value (env : Env) (data : RecordData)
      (txn txn' : OperationContext) (rs rs' : WiredTigerRecordStore)
      (loc : RecordId) :
  insertRecord env data (txn, rs) = Returns (SW_value loc, (txn', rs')) ->
  exists txn0 rs0 rs1,
    idChosen env data txn rs loc txn0 rs0
    /\ table rs1 = wt_insert (table rs0) loc data
    /\ _numRecords rs1 =
         (if _numRecords rs0 <? 0 then 1 else wrap64 (_numRecords rs0 + 1))
    /\ _dataSize rs1 =
         (if _dataSize rs0 <? 0 then size data
          else wrap64 (_dataSize rs0 + size data))
    /\ sameSetup rs0 rs1
    /\ match _oplogStones rs0 with
       | Some _ =>
           txn' = addChange
                    (addChange (addChange txn0 (NumRecordsChange 1))
                               (DataSizeChange (size data)))
                    (OplogStones_InsertChange (size data) loc)
           /\ rs' = rs1
       | None =>
           exists n,
             cappedDeleteAsNeeded env loc
               (addChange (addChange txn0 (NumRecordsChange 1))
                          (DataSizeChange (size data)), rs1)
             = Returns (n, (txn', rs'))
       end.
Proof.
  intros Hrun. unfold insertRecord in Hrun.
  unfold bind at 1 in Hrun. unfold getRS at 1 in Hrun. cbn [fst snd] in Hrun.
  destruct (_isCapped rs && (_cappedMaxSize rs <? size data));
    [discriminate|].
  unfold bind at 1 in Hrun.
  match type of Hrun with
  | match ?m (txn, rs) with _ => _ end = _ =>
      destruct (m (txn, rs)) as [[a [txn0 rs0]]| |] eqn:Eid
  end; try discriminate.
  apply insertRecord_chooses in Eid.
  destruct a as [loc0|code]; [|discriminate].
  cbn [fst snd] in Eid.
  destruct (negb (insertRet env =? 0)).
  { unfold wtRCToStatus, throw, abort, ret in Hrun.
    destruct (insertRet env =? WT_ROLLBACK); [discriminate|].
    destruct (insertRet env =? WT_PANIC); discriminate. }
  unfold bind at 1 in Hrun. unfold getRS at 1 in Hrun. cbn [fst snd] in Hrun.
  unfold bind at 1 in Hrun. unfold modifyRS at 1 in Hrun. cbn [fst snd] in Hrun.
  unfold bind at 1 in Hrun. rewrite _changeNumRecords_run in Hrun.
  unfold bind at 1 in Hrun.
  match type of Hrun with
  | context [_increaseDataSize true ?d (?t, ?st)] =>
      destruct (_increaseDataSize_run true d t st)
        as [rs1 [Hsize [Hds [Htable [Hnum Hsetup]]]]]
  end.
  rewrite Hsize in Hrun.
  cbn [_dataSize _numRecords table set_numRecords set_table] in Hds, Htable, Hnum.
  assert (Hloc : loc0 = loc /\
                 match _oplogStones rs0 with
                 | Some _ =>
                     txn' = addChange
                              (addChange (addChange txn0 (NumRecordsChange 1))
                                         (DataSizeChange (size data)))
                              (OplogStones_InsertChange (size data) loc0)
                     /\ rs' = rs1
                 | None =>
                     exists n,
                       cappedDeleteAsNeeded env loc0
                         (addChange (addChange txn0 (NumRecordsChange 1))
                                    (DataSizeChange (size data)), rs1)
                       = Returns (n, (txn', rs'))
                 end).
  { destruct (_oplogStones rs0).
    - unfold bind, registerChange, ret in Hrun. cbn [fst snd] in Hrun.
      injection Hrun as <- <- <-. auto.
    - unfold bind at 1 in Hrun.
      destruct (cappedDeleteAsNeeded env loc0 _) as [[n [t2 r2]]| |] eqn:Ecap;
        try discriminate.
      unfold ret in Hrun. injection Hrun as <- <- <-.
      split; [reflexivity|]. exists n. reflexivity. }
  destruct Hloc as [-> Hlast].
  exists txn0, rs0, rs1.
  split; [exact Eid|]. split; [exact Htable|].
  split.
  { rewrite Hnum. reflexivity. }
  split.
  { rewrite Hds. destruct (_dataSize rs0 <? 0); [|reflexivity].
    unfold size. lia. }
  split; [|exact Hlast].
  eapply sameSetup_trans; [|exact Hsetup].
  unfold sameSetup. simpl. repeat split.
Qed.

Lemma idChosen_frame (env : Env) (data : RecordData) (txn txn0 : OperationContext)
      (rs rs0 : WiredTigerRecordStore) (loc : RecordId) :
  idChosen env data txn rs loc txn0 rs0 ->
  table rs0 = table rs
  /\ _numRecords rs0 = _numRecords rs
  /\ _dataSize rs0 = _dataSize rs
  /\ _oplogStones rs0 = _oplogStones rs
  /\ _isCapped rs0 = _isCapped rs
  /\ _useOplogHack rs0 = _useOplogHack rs.
Proof.
  unfold idChosen. destruct rs. cbn.
  destruct _useOplogHack0.
  - intros [_ [_ ->]]. destruct (_ <? loc); repeat split.
  - intros [_ [_ H]]. destruct _isCapped0; destruct H as [_ ->];
      repeat split.
Qed.

Lemma skipn_keeps {A} (P : A -> Prop) (t : list A) (k : nat) (r : A) :
  In r t ->
  (forall i x, (i < k)%nat -> nth_error t i = Some x -> P x) ->
  ~ P r ->
  In r (skipn k t).
Proof.
  intros Hin Hfirst Hnot.
  apply In_nth_error in Hin. destruct Hin as [i Hi].
  destruct (Nat.lt_ge_cases i k) as [Hlt|Hge].
  - exfalso. apply Hnot. exact (Hfirst i r Hlt Hi).
  - apply (nth_error_In _ (i - k)). rewrite nth_error_skipn.
    replace (k + (i - k))%nat with i by lia. exact Hi.
Qed.

(** Where a successful [insertRecord] leaves the store: the record stands in
    the table under its id, the table is still in key order, the changes of
    the two counters (and of the stones, on an oplog with stones) are
    registered, and beyond what the choice of the id changed only the table,
    the counters, the size storer and the sleep statistics have moved. *)
Lemma insertRecord_setup (env : Env) (data : RecordData)
      (txn txn' : OperationContext) (rs rs' : WiredTigerRecordStore)
      (loc : RecordId) :
  key_ordered (table rs) = true ->
  insertRecord env data (txn, rs) = Returns (SW_value loc, (txn', rs')) ->
  exists txn0 rs0,
    idChosen env data txn rs loc txn0 rs0
    /\ sameSetup rs0 rs'
    /\ key_ordered (table rs') = true
    /\ In (mkRec loc data) (table rs')
    /\ changes txn' =
         changes txn0 ++ [NumRecordsChange 1; DataSizeChange (size data)]
         ++ match _oplogStones rs with
            | Some _ => [OplogStones_InsertChange (size data) loc]
            | None => []
            end.
Proof.
  intros Hord Hrun.
  destruct (insertRecord_value _ _ _ _ _ _ _ Hrun)
    as [txn0 [rs0 [rs1 [Hid [Htable [_ [_ [Hsetup Hlast]]]]]]]].
  destruct (idChosen_frame _ _ _ _ _ _ _ Hid) as [Ht0 [_ [_ [Hst _]]]].
  assert (Hord1 : key_ordered (table rs1) = true)
    by (rewrite Htable, Ht0; apply wt_insert_ordered; exact Hord).
  assert (Hin1 : In (mkRec loc data) (table rs1))
    by (rewrite Htable; apply wt_insert_In).
  exists txn0, rs0. split; [exact Hid|].
  rewrite <- Hst.
  destruct (_oplogStones rs0).
  - destruct Hlast as [-> ->].
    split; [exact Hsetup|]. split; [exact Hord1|]. split; [exact Hin1|].
    unfold addChange. cbn. rewrite <- !app_assoc. reflexivity.
  - destruct Hlast as [n Hcap].
    destruct (cappedDeleteAsNeeded_result _ _ _ _ _ _ _ Hord1 Hcap)
      as [-> [Hsetup' [_ Hcases]]].
    split; [exact (sameSetup_trans _ _ _ Hsetup Hsetup')|].
    assert (Hch : changes
                    (addChange (addChange txn0 (NumRecordsChange 1))
                               (DataSizeChange (size data)))
                  = changes txn0
                    ++ [NumRecordsChange 1; DataSizeChange (size data)] ++ [])
      by (unfold addChange; cbn; rewrite <- !app_assoc; reflexivity).
    destruct Hcases as [[_ [Ht _]]|[k [_ [_ [_ [Hbelow [Ht _]]]]]]].
    + rewrite Ht. auto.
    + rewrite Ht. split; [apply key_ordered_skipn; exact Hord1|].
      split; [|exact Hch].
      apply (skipn_keeps (fun x => id x < loc) _ _ _ Hin1 Hbelow).
      simpl. lia.
Qed.

Lemma findRecord_found (rs : WiredTigerRecordStore) (r : Rec) (out : RecordData) :
  key_ordered (table rs) = true -> In r (table rs) ->
  findRecord rs (id r) out = Returns (true, data r)
  /\ dataFor rs (id r) = Returns (data r).
Proof.
  intros Hord Hin.
  destruct (wt_search_found _ _ Hord Hin) as [i [Hs Hi]].
  unfold findRecord, dataFor. rewrite Hs. simpl. rewrite Hi. auto.
Qed.

(** X4.  Insert and look up: after a successful [insertRecord] into a table
    in key order, [findRecord] under the id returned gives the bytes inserted
    and [dataFor] returns them, on every kind of store (and whatever the
    capped eviction removed meanwhile). *)
Theorem insertRecord_then_find (env : Env) (data out : RecordData)
        (txn txn' : OperationContext) (rs rs' : WiredTigerRecordStore)
        (loc : RecordId) :
  key_ordered (table rs) = true ->
  insertRecord env data (txn, rs) = Returns (SW_value loc, (txn', rs')) ->
  findRecord rs' loc out = Returns (true, data)
  /\ dataFor rs' loc = Returns data.
Proof.
  intros Hord Hrun.
  destruct (insertRecord_setup _ _ _ _ _ _ _ Hord Hrun)
    as [_ [_ [_ [_ [Hord' [Hin _]]]]]].
  exact (findRecord_found rs' (mkRec loc data) out Hord' Hin).
Qed.

Lemma insertRecord_then_find_witness :
  exists txn' rs',
    insertRecord quietEnv abc (freshTxn, overfullStore)
    = Returns (SW_value 5, (txn', rs'))
    /\ findRecord rs' 5 [] = Returns (true, abc)
    /\ dataFor rs' 5 = Returns abc.
Proof.
  eexists. eexists. split; [vm_compute; reflexivity|].
  eapply (insertRecord_then_find quietEnv abc [] freshTxn _ overfullStore _ 5).
  - reflexivity.
  - vm_compute. reflexivity.
Defined.

(** X5.  Record ids of a store that allocates its own ids (no oplog hack)
    come out of the counter: a successful insert returns [_nextIdNum], and
    the next successful insert returns the id after it, whatever was evicted
    in between. *)
Theorem insertRecord_ids_consecutive (env : Env) (d1 d2 : RecordData)
        (txn txn1 txn2 : OperationContext)
        (rs rs1 rs2 : WiredTigerRecordStore) (l1 l2 : RecordId) :
  _useOplogHack rs = false ->
  key_ordered (table rs) = true ->
  insertRecord env d1 (txn, rs) = Returns (SW_value l1, (txn1, rs1)) ->
  insertRecord env d2 (txn1, rs1) = Returns (SW_value l2, (txn2, rs2)) ->
  l1 = _nextIdNum rs /\ l2 = l1 + 1 /\ _nextIdNum rs2 = l1 + 2.
Proof.
  intros Hhack Hord Hrun1 Hrun2.
  destruct (insertRecord_setup _ _ _ _ _ _ _ Hord Hrun1)
    as [ta [ra [Hid1 [Hsetup1 [Hord1 _]]]]].
  destruct (insertRecord_setup _ _ _ _ _ _ _ Hord1 Hrun2)
    as [tb [rb [Hid2 [Hsetup2 _]]]].
  assert (Hstep : forall (data : RecordData) (t t0 : OperationContext)
                         (r r0 : WiredTigerRecordStore) (l : RecordId),
             _useOplogHack r = false -> idChosen env data t r l t0 r0 ->
             l = _nextIdNum r /\ isNormal l = true
             /\ _nextIdNum r0 = l + 1 /\ _useOplogHack r0 = false).
  { intros data t t0 r r0 l Hh. unfold idChosen. rewrite Hh.
    intros [Hl [Hn H]].
    assert (Hw : wrap64 (l + 1) = l + 1).
    { apply wrap64_small. unfold isNormal in Hn.
      apply andb_prop in Hn. destruct Hn as [Ha Hb].
      apply Z.ltb_lt in Ha. apply Z.ltb_lt in Hb. lia. }
    destruct r. cbn in *. subst _useOplogHack0.
    destruct _isCapped0; destruct H as [_ ->]; cbn; auto. }
  destruct (Hstep _ _ _ _ _ _ Hhack Hid1) as [Hl1 [_ [Hn1 Hh1]]].
  destruct Hsetup1 as [_ [_ [_ [_ [_ [_ [Hh1' [_ [_ [Hnext1 _]]]]]]]]]].
  rewrite Hh1 in Hh1'. rewrite Hn1 in Hnext1.
  destruct (Hstep _ _ _ _ _ _ Hh1' Hid2) as [Hl2 [_ [Hn2 _]]].
  destruct Hsetup2 as [_ [_ [_ [_ [_ [_ [_ [_ [_ [Hnext2 _]]]]]]]]]].
  rewrite Hn2 in Hnext2.
  split; [exact Hl1|]. split; [lia|]. lia.
Qed.

Lemma insertRecord_ids_consecutive_witness :
  exists txn1 rs1 txn2 rs2,
    insertRecord quietEnv abc (freshTxn, overfullStore)
    = Returns (SW_value 5, (txn1, rs1))
    /\ insertRecord quietEnv abc (txn1, rs1) = Returns (SW_value 6, (txn2, rs2))
    /\ 5 = _nextIdNum overfullStore /\ 6 = 5 + 1 /\ _nextIdNum rs2 = 5 + 2.
Proof.
  do 4 eexists. split; [vm_compute; reflexivity|].
  split; [vm_compute; reflexivity|].
  eapply (insertRecord_ids_consecutive quietEnv abc abc freshTxn _ _
            overfullStore _ _ 5 6).
  - reflexivity.
  - reflexivity.
  - vm_compute. reflexivity.
  - vm_compute. reflexivity.
Defined.

Lemma erase_first_last (loc : RecordId) (l : list RecordId) :
  Forall (fun x => x < loc) l -> erase_first loc (l ++ [loc]) = Some l.
Proof.
  induction 1 as [|x l Hx _ IH]; simpl.
  - rewrite Z.eqb_refl. reflexivity.
  - replace (x =? loc) with false by (symmetry; apply Z.eqb_neq; lia).
    rewrite IH. reflexivity.
Qed.

(** X6.  An insert into a capped collection that allocates its own ids is
    hidden until its change is resolved: the id joins the uncommitted ids at
    the back, a [CappedInsertChange] for it is registered before the changes
    of the counters, and [isCappedHidden] holds for the id (the ids already
    uncommitted were allocated earlier, so they are below the counter).
    Resolving the change ([dealtWithCappedLoc], from commit or rollback)
    gives the uncommitted ids back as they were before the insert. *)
Theorem insertRecord_capped_hidden (env : Env) (data : RecordData)
        (txn txn' : OperationContext) (rs rs' : WiredTigerRecordStore)
        (loc : RecordId) :
  _isCapped rs = true ->
  _useOplogHack rs = false ->
  Forall (fun x => x < _nextIdNum rs) (_uncommittedDiskLocs rs) ->
  key_ordered (table rs) = true ->
  insertRecord env data (txn, rs) = Returns (SW_value loc, (txn', rs')) ->
  _uncommittedDiskLocs rs' = _uncommittedDiskLocs rs ++ [loc]
  /\ isCappedHidden rs' loc = true
  /\ nth_error (changes txn') (length (changes txn))
     = Some (CappedInsertChange loc)
  /\ exists rs'',
       dealtWithCappedLoc loc (txn', rs') = Returns (tt, (txn', rs''))
       /\ _uncommittedDiskLocs rs'' = _uncommittedDiskLocs rs
       /\ table rs'' = table rs'.
Proof.
  intros Hcapped Hhack Hlow Hord Hrun.
  destruct (insertRecord_setup _ _ _ _ _ _ _ Hord Hrun)
    as [txn0 [rs0 [Hid [Hsetup [_ [_ Hch]]]]]].
  assert (Hchosen : loc = _nextIdNum rs
             /\ txn0 = addChange txn (CappedInsertChange loc)
             /\ _uncommittedDiskLocs rs0 = _uncommittedDiskLocs rs ++ [loc]).
  { revert Hid. unfold idChosen. rewrite Hhack, Hcapped.
    intros [Hl [_ [-> ->]]]. destruct rs; cbn. auto. }
  destruct Hchosen as [Hloc [-> Hlist0]].
  assert (Hlist : _uncommittedDiskLocs rs' = _uncommittedDiskLocs rs ++ [loc]).
  { destruct Hsetup as [_ [_ [_ [_ [_ [_ [_ [Hu _]]]]]]]].
    rewrite Hu. exact Hlist0. }
  rewrite <- Hloc in Hlow.
  split; [exact Hlist|]. split; [|split].
  - unfold isCappedHidden. rewrite Hlist.
    destruct Hlow as [|x l Hx _]; cbn; apply Z.leb_le; lia.
  - rewrite Hch. unfold addChange. cbn [changes].
    rewrite <- app_assoc. rewrite nth_error_app2 by lia.
    rewrite Nat.sub_diag. reflexivity.
  - unfold dealtWithCappedLoc, bind, getRS, modifyRS. cbn [fst snd].
    rewrite Hlist, (erase_first_last _ _ Hlow).
    eexists. split; [reflexivity|].
    destruct rs'; cbn. auto.
Qed.

Lemma insertRecord_capped_hidden_witness :
  exists txn' rs',
    insertRecord quietEnv abc (freshTxn, evictedStore)
    = Returns (SW_value 5, (txn', rs'))
    /\ _uncommittedDiskLocs rs' = [4; 5]
    /\ isCappedHidden rs' 5 = true
    /\ nth_error (changes txn') (length (changes freshTxn))
       = Some (CappedInsertChange 5)
    /\ exists rs'',
         dealtWithCappedLoc 5 (txn', rs') = Returns (tt, (txn', rs''))
         /\ _uncommittedDiskLocs rs'' = [4]
         /\ table rs'' = table rs'.
Proof.
  do 2 eexists. split; [vm_compute; reflexivity|].
  eapply (insertRecord_capped_hidden quietEnv abc freshTxn _ evictedStore _ 5).
  - reflexivity.
  - reflexivity.
  - repeat constructor.
  - reflexivity.
  - vm_compute. reflexivity.
Defined.

Lemma cappedDeleteAsNeeded_not_needed (env : Env) (justInserted : RecordId)
      (txn : OperationContext) (rs : WiredTigerRecordStore) :
  _oplogStones rs = None -> cappedAndNeedDelete rs = false ->
  cappedDeleteAsNeeded env justInserted (txn, rs) = Returns (0, (txn, rs)).
Proof.
  intros Hstones Hneed.
  unfold cappedDeleteAsNeeded, bind, getRS, invariant. cbn [fst snd].
  rewrite Hstones, Hneed. reflexivity.
Qed.

(** X7.  The counters of an insert and their rollback, on a collection that
    is not capped, with counters in range: a successful insert registers
    exactly a [NumRecordsChange 1] and a [DataSizeChange len], leaves
    numRecords one higher and dataSize [len] higher, and running the two
    rollbacks (latest change first) puts both counters back. *)
Theorem insertRecord_rollback_counters (env : Env) (data : RecordData)
        (txn txn' : OperationContext) (rs rs' : WiredTigerRecordStore)
        (loc : RecordId) :
  _isCapped rs = false ->
  _oplogStones rs = None ->
  0 <= _numRecords rs < 2 ^ 63 - 1 ->
  0 <= _dataSize rs -> _dataSize rs + size data < 2 ^ 63 ->
  insertRecord env data (txn, rs) = Returns (SW_value loc, (txn', rs')) ->
  changes txn' = changes txn ++ [NumRecordsChange 1; DataSizeChange (size data)]
  /\ _numRecords rs' = _numRecords rs + 1
  /\ _dataSize rs' = _dataSize rs + size data
  /\ exists rs'',
       (rollback (DataSizeChange (size data)) ;; rollback (NumRecordsChange 1))%M
         (txn', rs')
       = Returns (tt, (txn', rs''))
       /\ _numRecords rs'' = _numRecords rs
       /\ _dataSize rs'' = _dataSize rs.
Proof.
  intros Hcapped Hstones Hnum Hds Hfit Hrun.
  assert (Hlen : 0 <= size data) by (unfold size; lia).
  destruct (insertRecord_value _ _ _ _ _ _ _ Hrun)
    as [txn0 [rs0 [rs1 [Hid [_ [Hn1 [Hd1 [Hsetup Hlast]]]]]]]].
  destruct (idChosen_frame _ _ _ _ _ _ _ Hid)
    as [_ [Hn0 [Hd0 [Hst0 [Hc0 _]]]]].
  assert (Htxn0 : txn0 = txn).
  { revert Hid. unfold idChosen. rewrite Hcapped.
    destruct (_useOplogHack rs); tauto. }
  subst txn0. rewrite Hst0, Hstones in Hlast. destruct Hlast as [n Hcap].
  assert (Hc1 : _isCapped rs1 = false).
  { destruct Hsetup as [H _]. rewrite H, Hc0. exact Hcapped. }
  assert (Hst1 : _oplogStones rs1 = None).
  { destruct Hsetup as [_ [_ [_ [_ [_ [_ [_ [_ [_ [_ [_ H]]]]]]]]]]].
    rewrite H, Hst0. exact Hstones. }
  rewrite cappedDeleteAsNeeded_not_needed in Hcap;
    [|exact Hst1 | unfold cappedAndNeedDelete; rewrite Hc1; reflexivity].
  injection Hcap as _ <- <-.
  rewrite Hn0 in Hn1. rewrite Hd0 in Hd1.
  replace (_numRecords rs <? 0) with false in Hn1
    by (symmetry; apply Z.ltb_ge; lia).
  replace (_dataSize rs <? 0) with false in Hd1
    by (symmetry; apply Z.ltb_ge; lia).
  rewrite wrap64_small in Hn1 by lia. rewrite wrap64_small in Hd1 by lia.
  split; [unfold addChange; cbn; rewrite <- app_assoc; reflexivity|].
  split; [exact Hn1|]. split; [exact Hd1|].
  set (t1 := addChange _ _).
  destruct (_increaseDataSize_run false (- size data) t1 rs1)
    as [rs2 [Hback [Hd2 [_ [Hn2 _]]]]].
  unfold rollback. unfold bind at 1. rewrite Hback.
  unfold bind, getRS, modifyRS, fetchAndAdd. cbn [fst snd].
  eexists. split; [reflexivity|].
  destruct rs2. cbn in *. rewrite Hn2, Hn1, Hd2, Hd1.
  replace (_dataSize rs + size data <? 0) with false
    by (symmetry; apply Z.ltb_ge; lia).
  rewrite !wrap64_small by lia. lia.
Qed.

Lemma insertRecord_rollback_counters_witness :
  exists txn' rs',
    insertRecord quietEnv abc (freshTxn, plainStore)
    = Returns (SW_value 41, (txn', rs'))
    /\ changes txn' = [NumRecordsChange 1; DataSizeChange 3]
    /\ _numRecords rs' = 4
    /\ _dataSize rs' = 12
    /\ exists rs'',
         (rollback (DataSizeChange 3) ;; rollback (NumRecordsChange 1))%M
           (txn', rs')
         = Returns (tt, (txn', rs''))
         /\ _numRecords rs'' = 3
         /\ _dataSize rs'' = 9.
Proof.
  do 2 eexists. split; [vm_compute; reflexivity|].
  eapply (insertRecord_rollback_counters quietEnv abc freshTxn _ plainStore _ 41).
  - reflexivity.
  - reflexivity.
  - vm_compute. split; [discriminate | reflexivity].
  - vm_compute. discriminate.
  - vm_compute. reflexivity.
  - vm_compute. reflexivity.
Defined.

(** ** Deleting and truncating *)

Lemma key_ordered_cons (x : Rec) (t : Table) :
  key_ordered t = true -> (forall r, In r t -> id x < id r) ->
  key_ordered (x :: t) = true.
Proof.
  intros Hord Hlow. destruct t as [|y t]; [reflexivity|].
  cbn [key_ordered]. apply andb_true_iff. split; [|exact Hord].
  apply Z.ltb_lt. apply Hlow. now left.
Qed.

Lemma key_ordered_filter (f : Rec -> bool) (t : Table) :
  key_ordered t = true -> key_ordered (filter f t) = true.
Proof.
  induction t as [|x t IH]; intros Hord; [reflexivity|].
  pose proof (key_ordered_tail _ _ Hord) as Ht.
  cbn [filter]. destruct (f x); [|exact (IH Ht)].
  apply key_ordered_cons; [exact (IH Ht)|].
  intros r Hr. apply filter_In in Hr. destruct Hr as [Hr _].
  exact (key_ordered_head _ _ Hord _ Hr).
Qed.

(** [deleteRecord] of a record that exists, step by step. *)
Lemma deleteRecord_run (txn : OperationContext)
      (rs : WiredTigerRecordStore) (r : Rec) :
  _isCapped rs = false ->
  key_ordered (table rs) = true ->
  In r (table rs) ->
  exists rs',
    deleteRecord (id r) (txn, rs)
    = Returns (tt, (addChange (addChange txn (NumRecordsChange (-1)))
                              (DataSizeChange (- size (data r))), rs'))
    /\ table rs' = wt_remove (table rs) (id r)
    /\ _numRecords rs' =
       (if _numRecords rs <? 0 then 0 else wrap64 (_numRecords rs + -1))
    /\ _dataSize rs' =
       (if _dataSize rs <? 0 then Z.max (- size (data r)) 0
        else wrap64 (_dataSize rs + - size (data r)))
    /\ sameSetup rs rs'.
Proof.
  intros Hcapped Hord Hin.
  destruct (wt_search_found _ _ Hord Hin) as [i [Hs Hi]].
  unfold deleteRecord. unfold bind at 1. unfold getRS at 1. cbn [fst snd].
  unfold bind at 1. unfold invariant at 1. rewrite Hcapped. cbn [negb].
  unfold ret at 1. rewrite Hs.
  unfold bind at 1. unfold invariantWTOK, invariant. cbn [Z.eqb].
  unfold ret at 1. cbn [wt_get]. rewrite Hi.
  unfold bind at 1. unfold modifyRS at 1. cbn [fst snd].
  unfold bind at 1. rewrite _changeNumRecords_run.
  match goal with
  | |- context [_increaseDataSize true ?a (?t, ?s)] =>
      destruct (_increaseDataSize_run true a t s)
        as [rs' [Hrun [Hsize [Htable [Hnum Hsetup]]]]]
  end.
  rewrite Hrun. exists rs'. split; [reflexivity|].
  split; [rewrite Htable; destruct rs; reflexivity|].
  split; [rewrite Hnum; destruct rs; reflexivity|].
  split; [rewrite Hsize; destruct rs; reflexivity|].
  eapply sameSetup_trans; [|exact Hsetup].
  destruct rs. unfold sameSetup. cbn. repeat split.
Qed.

(** X8.  Deleting a record that exists, on a collection that is not capped
    with its table in key order: [deleteRecord] returns, the table loses the
    record of that id and nothing else, a later [findRecord] of the id
    reports false, and the two changes registered are a document count of -1
    and a data size of minus the length of the record's data. *)
Theorem deleteRecord_removes (txn : OperationContext)
        (rs : WiredTigerRecordStore) (r : Rec) :
  _isCapped rs = false ->
  key_ordered (table rs) = true ->
  In r (table rs) ->
  exists txn' rs',
    deleteRecord (id r) (txn, rs) = Returns (tt, (txn', rs'))
    /\ (forall x, In x (table rs') <-> In x (table rs) /\ id x <> id r)
    /\ key_ordered (table rs') = true
    /\ (forall out, findRecord rs' (id r) out = Returns (false, out))
    /\ changes txn' = changes txn ++ [NumRecordsChange (-1);
                                      DataSizeChange (- size (data r))]
    /\ sameSetup rs rs'.
Proof.
  intros Hcapped Hord Hin.
  destruct (deleteRecord_run txn rs r Hcapped Hord Hin)
    as [rs' [Hrun [Ht [_ [_ Hsetup]]]]].
  eexists. exists rs'. split; [exact Hrun|].
  split; [|split; [|split; [|split]]].
  - intros x. rewrite Ht. unfold wt_remove. rewrite filter_In.
    rewrite negb_true_iff, Z.eqb_neq. tauto.
  - rewrite Ht. apply key_ordered_filter. exact Hord.
  - intros out. unfold findRecord. rewrite wt_search_absent; [reflexivity|].
    intros x. rewrite Ht. unfold wt_remove. rewrite filter_In.
    rewrite negb_true_iff, Z.eqb_neq. tauto.
  - unfold addChange. cbn. rewrite <- app_assoc. reflexivity.
  - exact Hsetup.
Qed.

Lemma deleteRecord_removes_witness :
  exists txn' rs',
    deleteRecord 20 (freshTxn, plainStore) = Returns (tt, (txn', rs'))
    /\ (forall x, In x (table rs') <-> In x (table plainStore) /\ id x <> 20)
    /\ key_ordered (table rs') = true
    /\ (forall out, findRecord rs' 20 out = Returns (false, out))
    /\ changes txn' = [NumRecordsChange (-1); DataSizeChange (-3)]
    /\ sameSetup plainStore rs'.
Proof.
  apply (deleteRecord_removes freshTxn plainStore (mkRec 20 abc)).
  - reflexivity.
  - reflexivity.
  - simpl. auto.
Defined.

(** X9.  What [deleteRecord] does not accept: on a capped collection, or for
    an id that is not in the table, the call stops the process on a failed
    invariant; nothing is returned and nothing is thrown. *)
Theorem deleteRecord_aborts (txn : OperationContext)
        (rs : WiredTigerRecordStore) (loc : RecordId) :
  _isCapped rs = true \/ (forall r, In r (table rs) -> id r <> loc) ->
  deleteRecord loc (txn, rs) = Aborts.
Proof.
  intros H.
  unfold deleteRecord, bind, getRS, invariant, abort. cbn [fst snd].
  destruct (_isCapped rs); [reflexivity|].
  destruct H as [H|H]; [discriminate|].
  cbn [negb]. unfold ret at 1. rewrite (wt_search_absent _ _ H).
  reflexivity.
Qed.

Lemma deleteRecord_aborts_witness :
  deleteRecord 30 (freshTxn, plainStore) = Aborts.
Proof.
  apply (deleteRecord_aborts freshTxn plainStore 30).
  right. simpl. intros r [<-|[<-|[<-|[]]]]; discriminate.
Defined.

(** ** Scans *)

Lemma isVisible_readUntil (rs : WiredTigerRecordStore) (cur cur' : Cursor)
      (k : RecordId) :
  _readUntilForOplog cur' = _readUntilForOplog cur ->
  isVisible rs cur' k = isVisible rs cur k.
Proof.
  intros H. unfold isVisible. rewrite H. reflexivity.
Qed.

Lemma takeVisible_readUntil (rs : WiredTigerRecordStore) (cur cur' : Cursor)
      (t : Table) :
  _readUntilForOplog cur' = _readUntilForOplog cur ->
  takeVisible rs cur' t = takeVisible rs cur t.
Proof.
  intros H. induction t as [|x t IH]; [reflexivity|].
  cbn [takeVisible]. rewrite (isVisible_readUntil _ _ _ _ H), IH. reflexivity.
Qed.

Lemma skipn_nth_cons {A} (t : list A) (k : nat) (r : A) :
  nth_error t k = Some r -> skipn k t = r :: skipn (S k) t.
Proof.
  revert k. induction t as [|x t IH]; intros k Hk; [destruct k; discriminate|].
  destruct k as [|k]; [injection Hk as ->; reflexivity|].
  cbn [skipn]. apply IH. exact Hk.
Qed.

Lemma drain_forward (env : Env) (rs : WiredTigerRecordStore) (fuel : nat) :
  forall (k : nat) (last readUntil : RecordId),
    (k <= length (table rs))%nat ->
    (length (table rs) - k < fuel)%nat ->
    drain env fuel rs (mkCursor true (Some (cursorAfter k)) false last readUntil)
    = takeVisible rs (mkCursor true (Some (cursorAfter k)) false last readUntil)
                  (skipn k (table rs)).
Proof.
  induction fuel as [|fuel IH]; intros k last p Hk Hfuel; [lia|].
  cbn [drain]. unfold Cursor_next.
  cbn [_eof _cursor _forward _lastReturnedId _readUntilForOplog].
  rewrite andb_false_r. cbn [andb negb].
  rewrite (wt_next_cursorAfter _ _ Hk).
  destruct (k <? length (table rs))%nat eqn:Elt.
  - apply Nat.ltb_lt in Elt.
    change (0 =? WT_NOTFOUND) with false. change (0 =? 0) with true.
    cbn [negb wt_get].
    destruct (nth_error (table rs) k) as [rec|] eqn:Ek;
      [|apply nth_error_None in Ek; lia].
    rewrite (skipn_nth_cons _ _ _ Ek). cbn [takeVisible].
    destruct (isVisible rs _ (id rec)); [|reflexivity].
    cbn [negb]. f_equal.
    change (At k) with (cursorAfter (S k)).
    rewrite IH by lia. apply takeVisible_readUntil. reflexivity.
  - apply Nat.ltb_ge in Elt. rewrite Z.eqb_refl.
    rewrite skipn_all2 by lia. reflexivity.
Qed.

Lemma takeVisible_plain (rs : WiredTigerRecordStore) (cur : Cursor) (t : Table) :
  _isCapped rs = false -> takeVisible rs cur t = t.
Proof.
  intros Hcapped. induction t as [|x t IH]; [reflexivity|].
  cbn [takeVisible]. unfold isVisible at 1. rewrite Hcapped. cbn [negb].
  f_equal. exact IH.
Qed.

(** X10.  A forward scan from a new cursor returns the records of the table
    in key order up to, and not including, the first one that is not visible
    to the cursor, and then stops for good: on a collection that is not
    capped that is the whole table. *)
Theorem forward_scan_visible (env : Env) (rs : WiredTigerRecordStore)
        (txn : OperationContext) (fuel : nat) :
  (length (table rs) < fuel)%nat ->
  drain env fuel rs (Cursor_new txn true)
  = takeVisible rs (Cursor_new txn true) (table rs)
  /\ (_isCapped rs = false ->
      drain env fuel rs (Cursor_new txn true) = table rs).
Proof.
  intros Hfuel.
  assert (Hscan : drain env fuel rs (Cursor_new txn true)
                  = takeVisible rs (Cursor_new txn true) (table rs)).
  { unfold Cursor_new. change Unpositioned with (cursorAfter 0).
    rewrite drain_forward by lia. reflexivity. }
  split; [exact Hscan|].
  intros Hcapped. rewrite Hscan. apply takeVisible_plain. exact Hcapped.
Qed.

Lemma forward_scan_visible_witness :
  drain quietEnv 4 evictedStore (Cursor_new freshTxn true)
  = takeVisible evictedStore (Cursor_new freshTxn true) (table evictedStore)
  /\ (_isCapped evictedStore = false ->
      drain quietEnv 4 evictedStore (Cursor_new freshTxn true)
      = table evictedStore).
Proof.
  apply (forward_scan_visible quietEnv evictedStore freshTxn 4).
  simpl. lia.
Defined.

Lemma takeVisible_firstn (rs : WiredTigerRecordStore) (cur : Cursor) (t : Table) :
  takeVisible rs cur t = firstn (length (takeVisible rs cur t)) t.
Proof.
  induction t as [|x t IH]; [reflexivity|].
  cbn [takeVisible]. destruct (isVisible rs cur (id x)); [|reflexivity].
  cbn [length firstn]. f_equal. exact IH.
Qed.

Lemma takeVisible_nth (rs : WiredTigerRecordStore) (cur : Cursor) (t : Table)
      (i : nat) (r : Rec) :
  (i < length (takeVisible rs cur t))%nat -> nth_error t i = Some r ->
  isVisible rs cur (id r) = true.
Proof.
  revert i. induction t as [|x t IH]; intros i Hi Hr; [destruct i; discriminate|].
  cbn [takeVisible] in Hi. destruct (isVisible rs cur (id x)) eqn:E;
    [|cbn in Hi; lia].
  destruct i as [|i]; [injection Hr as <-; exact E|].
  cbn [length] in Hi. apply (IH i); [lia | exact Hr].
Qed.

Lemma takeVisible_length (rs : WiredTigerRecordStore) (cur : Cursor) (t : Table) :
  (length (takeVisible rs cur t) <= length t)%nat.
Proof.
  induction t as [|x t IH]; [cbn; lia|].
  cbn [takeVisible]. destruct (isVisible rs cur (id x)); cbn; lia.
Qed.

Lemma visible_below (rs : WiredTigerRecordStore) (cur : Cursor) (t : Table)
      (s : RecordId) :
  (forall k, isVisible rs cur k = (k <? s)) ->
  length (takeVisible rs cur t) = lower_bound t s.
Proof.
  intros Hvis. induction t as [|x t IH]; [reflexivity|].
  cbn [takeVisible lower_bound]. rewrite Hvis.
  destruct (id x <? s); [cbn; f_equal; exact IH | reflexivity].
Qed.

Lemma visible_upto (rs : WiredTigerRecordStore) (cur : Cursor) (t : Table)
      (s : RecordId) :
  key_ordered t = true ->
  (forall k, isVisible rs cur k = (k <=? s)) ->
  length (takeVisible rs cur t) =
  match nth_error t (lower_bound t s) with
  | Some r => if id r =? s then S (lower_bound t s) else lower_bound t s
  | None => lower_bound t s
  end.
Proof.
  intros Hord Hvis. induction t as [|x t IH]; [reflexivity|].
  pose proof (key_ordered_tail _ _ Hord) as Ht.
  cbn [takeVisible lower_bound]. rewrite Hvis.
  destruct (id x <? s) eqn:Elt.
  - apply Z.ltb_lt in Elt.
    replace (id x <=? s) with true by (symmetry; apply Z.leb_le; lia).
    cbn [length nth_error]. rewrite (IH Ht).
    destruct (nth_error t (lower_bound t s)) as [r|]; [|reflexivity].
    destruct (id r =? s); reflexivity.
  - apply Z.ltb_ge in Elt. cbn [nth_error].
    destruct (id x =? s) eqn:Eeq.
    + apply Z.eqb_eq in Eeq.
      replace (id x <=? s) with true by (symmetry; apply Z.leb_le; lia).
      cbn [length]. f_equal.
      destruct t as [|y t]; [reflexivity|].
      cbn [takeVisible]. rewrite Hvis.
      pose proof (key_ordered_head _ _ Hord y (or_introl eq_refl)).
      replace (id y <=? s) with false by (symmetry; apply Z.leb_gt; lia).
      reflexivity.
    + apply Z.eqb_neq in Eeq.
      replace (id x <=? s) with false by (symmetry; apply Z.leb_gt; lia).
      reflexivity.
Qed.

Lemma firstn_S_nth {A} (t : list A) (i : nat) (r : A) :
  nth_error t i = Some r -> firstn (S i) t = firstn i t ++ [r].
Proof.
  revert i. induction t as [|x t IH]; intros i Hi; [destruct i; discriminate|].
  destruct i as [|i]; [injection Hi as ->; reflexivity|].
  cbn [firstn app]. f_equal. apply IH. exact Hi.
Qed.

(** A reverse cursor that stands on the record of index [j] and has returned
    it goes on to return the records below it, nearest first. *)
Lemma drain_reverse (env : Env) (rs : WiredTigerRecordStore) (cur0 : Cursor) :
  (forall r, In r (table rs) -> id r <> RecordId_null) ->
  forall (j fuel : nat) (last : RecordId),
    last <> RecordId_null ->
    (j < fuel)%nat ->
    (j <= length (takeVisible rs cur0 (table rs)))%nat ->
    drain env fuel rs
          (mkCursor false (Some (At j)) false last (_readUntilForOplog cur0))
    = rev (firstn j (table rs)).
Proof.
  intros Hids. induction j as [|i IH]; intros fuel last Hlast Hfuel Hj;
    (destruct fuel as [|fuel]; [lia|]); cbn [drain]; unfold Cursor_next;
    cbn [_eof _cursor _forward _lastReturnedId _readUntilForOplog];
    replace (isNull last) with false by (symmetry; apply Z.eqb_neq; exact Hlast);
    cbn [andb wt_prev].
  - rewrite Z.eqb_refl. reflexivity.
  - change (0 =? WT_NOTFOUND) with false. change (0 =? 0) with true.
    cbn [negb wt_get].
    pose proof (takeVisible_length rs cur0 (table rs)) as Hlen.
    destruct (nth_error (table rs) i) as [rec|] eqn:Ei;
      [|apply nth_error_None in Ei; lia].
    assert (Hvis : isVisible rs cur0 (id rec) = true)
      by (apply (takeVisible_nth rs cur0 (table rs) i); [lia | exact Ei]).
    rewrite (isVisible_readUntil rs cur0) by reflexivity.
    rewrite Hvis. cbn [negb].
    rewrite (firstn_S_nth _ _ _ Ei), rev_app_distr. cbn [rev app]. f_equal.
    apply IH; [|lia|lia].
    apply Hids. eapply nth_error_In. exact Ei.
Qed.

Lemma takeVisible_all (rs : WiredTigerRecordStore) (cur : Cursor) (t : Table) :
  (forall k, isVisible rs cur k = true) -> takeVisible rs cur t = t.
Proof.
  intros Hvis. induction t as [|x t IH]; [reflexivity|].
  cbn [takeVisible]. rewrite Hvis. f_equal. exact IH.
Qed.

Lemma drain_reverse_land (env : Env) (rs : WiredTigerRecordStore)
      (cur0 : Cursor) (j fuel : nat) (rec : Rec) :
  (forall r, In r (table rs) -> id r <> RecordId_null) ->
  nth_error (table rs) j = Some rec ->
  length (takeVisible rs cur0 (table rs)) = S j ->
  (j < fuel)%nat ->
  rec :: drain env fuel rs
           (mkCursor false (Some (At j)) false (id rec) (_readUntilForOplog cur0))
  = rev (takeVisible rs cur0 (table rs)).
Proof.
  intros Hids Hj Hm Hfuel.
  rewrite (takeVisible_firstn rs cur0 (table rs)), Hm.
  rewrite (firstn_S_nth _ _ _ Hj), rev_app_distr. cbn [rev app]. f_equal.
  apply drain_reverse; [exact Hids | | exact Hfuel | lia].
  apply Hids. eapply nth_error_In. exact Hj.
Qed.

Lemma takeVisible_none (rs : WiredTigerRecordStore) (cur : Cursor) (t : Table) :
  length (takeVisible rs cur t) = O -> rev (takeVisible rs cur t) = [].
Proof.
  destruct (takeVisible rs cur t); [reflexivity | discriminate].
Qed.

(** [Cursor::next] on a new reverse cursor: the seek of a capped collection,
    then the second half of the method. *)
Lemma Cursor_next_reverse_new (env : Env) (rs : WiredTigerRecordStore)
      (txn : OperationContext) :
  Cursor_next env rs (Cursor_new txn false) =
  let cur := Cursor_new txn false in
  let s := if isNull (oplogReadTill txn) then lowestCappedHiddenRecord rs
           else oplogReadTill txn in
  if _isCapped rs && negb (isNull s) then
    let '(seekRet, c1, cmp) := wt_search_near (table rs) s (landAfter env) in
    if seekRet =? WT_NOTFOUND
    then Returns (None, mkCursor false (Some c1) true RecordId_null
                                 (oplogReadTill txn))
    else if negb (seekRet =? 0) then Aborts
    else Cursor_advance rs cur
                        (if isCappedHidden rs s then 0 <=? cmp else 0 <? cmp) c1
  else Cursor_advance rs cur true Unpositioned.
Proof.
  unfold Cursor_next, Cursor_advance, Cursor_new.
  cbn [_eof _cursor _forward _lastReturnedId _readUntilForOplog].
  change (isNull RecordId_null) with true. cbn [andb negb].
  destruct (_isCapped rs); [|reflexivity]. cbn [andb].
  destruct (negb _); reflexivity.
Qed.

(** What the second half of [next] returns to a reverse cursor: the record
    the engine cursor comes to stand on, when it is visible. *)
Lemma Cursor_advance_stay (rs : WiredTigerRecordStore) (cur : Cursor)
      (j : nat) (rec : Rec) :
  _forward cur = false -> _eof cur = false ->
  nth_error (table rs) j = Some rec -> isVisible rs cur (id rec) = true ->
  Cursor_advance rs cur false (At j)
  = Returns (Some rec, mkCursor false (Some (At j)) false (id rec)
                                (_readUntilForOplog cur)).
Proof.
  intros Hfwd Heof Hj Hvis. unfold Cursor_advance.
  change (0 =? WT_NOTFOUND) with false. change (0 =? 0) with true.
  cbn [negb wt_get]. rewrite Hj, Hvis, Hfwd, Heof. reflexivity.
Qed.

Lemma Cursor_advance_back (rs : WiredTigerRecordStore) (cur : Cursor)
      (j : nat) (rec : Rec) :
  _forward cur = false -> _eof cur = false ->
  nth_error (table rs) j = Some rec -> isVisible rs cur (id rec) = true ->
  Cursor_advance rs cur true (At (S j))
  = Returns (Some rec, mkCursor false (Some (At j)) false (id rec)
                                (_readUntilForOplog cur)).
Proof.
  intros Hfwd Heof Hj Hvis. unfold Cursor_advance. rewrite Hfwd.
  cbn [wt_prev].
  change (0 =? WT_NOTFOUND) with false. change (0 =? 0) with true.
  cbn [negb wt_get]. rewrite Hj, Hvis, Heof. reflexivity.
Qed.

Lemma Cursor_advance_last (rs : WiredTigerRecordStore) (cur : Cursor)
      (j : nat) (rec : Rec) :
  _forward cur = false -> _eof cur = false ->
  length (table rs) = S j ->
  nth_error (table rs) j = Some rec -> isVisible rs cur (id rec) = true ->
  Cursor_advance rs cur true Unpositioned
  = Returns (Some rec, mkCursor false (Some (At j)) false (id rec)
                                (_readUntilForOplog cur)).
Proof.
  intros Hfwd Heof Hlen Hj Hvis. unfold Cursor_advance. rewrite Hfwd.
  rewrite (wt_prev_last _ _ Hlen).
  change (0 =? WT_NOTFOUND) with false. change (0 =? 0) with true.
  cbn [negb wt_get]. rewrite Hj, Hvis, Heof. reflexivity.
Qed.

Lemma Cursor_advance_front (rs : WiredTigerRecordStore) (cur : Cursor) :
  _forward cur = false ->
  exists cur', Cursor_advance rs cur true (At 0) = Returns (None, cur').
Proof.
  intros Hfwd. unfold Cursor_advance. rewrite Hfwd. cbn [wt_prev].
  rewrite Z.eqb_refl. eexists. reflexivity.
Qed.

(** The reverse scan when nothing is hidden from the cursor: it starts at the
    last record of the table. *)
Lemma reverse_scan_all (env : Env) (rs : WiredTigerRecordStore)
      (txn : OperationContext) (fuel : nat) :
  (forall r, In r (table rs) -> id r <> RecordId_null) ->
  _isCapped rs = false
  \/ (oplogReadTill txn = RecordId_null /\ _uncommittedDiskLocs rs = []) ->
  (length (table rs) < fuel)%nat ->
  drain env fuel rs (Cursor_new txn false)
  = rev (takeVisible rs (Cursor_new txn false) (table rs)).
Proof.
  intros Hids Hshape Hfuel.
  assert (Hvis : forall k, isVisible rs (Cursor_new txn false) k = true).
  { intros k. unfold isVisible, isCappedHidden, Cursor_new.
    cbn [_readUntilForOplog].
    destruct Hshape as [->|[-> ->]]; [reflexivity|].
    destruct (_isCapped rs); reflexivity. }
  pose proof (takeVisible_all rs _ (table rs) Hvis) as Hall.
  destruct fuel as [|fuel]; [lia|]. cbn [drain].
  rewrite Cursor_next_reverse_new. cbv zeta.
  replace (_isCapped rs && negb _) with false.
  2:{ destruct Hshape as [->|[-> H]]; [reflexivity|].
      unfold lowestCappedHiddenRecord. rewrite H. symmetry. apply andb_false_r. }
  destruct (length (table rs)) as [|j] eqn:Elen.
  - apply length_zero_iff_nil in Elen. rewrite Hall.
    unfold Cursor_advance, Cursor_new. cbn [_forward]. rewrite Elen.
    reflexivity.
  - destruct (nth_error (table rs) j) as [rec|] eqn:Ej;
      [|apply nth_error_None in Ej; lia].
    rewrite (Cursor_advance_last rs _ j rec); try reflexivity; try assumption;
      [|apply Hvis].
    apply (drain_reverse_land env rs (Cursor_new txn false));
      [exact Hids | exact Ej | rewrite Hall; exact Elen | lia].
Qed.

(** The reverse scan of a capped collection that has something to hide: the
    cursor seeks [s], the lowest hidden id or the oplog read-till point, and
    starts at the highest record it may see. *)
Lemma reverse_scan_seek (env : Env) (rs : WiredTigerRecordStore)
      (txn : OperationContext) (s : RecordId) (fuel : nat) :
  (forall r, In r (table rs) -> id r <> RecordId_null) ->
  key_ordered (table rs) = true ->
  _isCapped rs = true ->
  (if isNull (oplogReadTill txn) then lowestCappedHiddenRecord rs
   else oplogReadTill txn) = s ->
  s <> RecordId_null ->
  (forall k, isVisible rs (Cursor_new txn false) k
             = if isCappedHidden rs s then k <? s else k <=? s) ->
  (length (table rs) < fuel)%nat ->
  drain env fuel rs (Cursor_new txn false)
  = rev (takeVisible rs (Cursor_new txn false) (table rs)).
Proof.
  intros Hids Hord Hcap Hseek Hs Hvis Hfuel.
  set (cur := Cursor_new txn false) in *.
  assert (Hfwd : _forward cur = false) by reflexivity.
  assert (Heof : _eof cur = false) by reflexivity.
  assert (Hp : _readUntilForOplog cur = oplogReadTill txn) by reflexivity.
  pose proof (lower_bound_le (table rs) s) as Hle.
  assert (Hbelow : forall j, lower_bound (table rs) s = S j ->
             exists rec, nth_error (table rs) j = Some rec
                         /\ isVisible rs cur (id rec) = true).
  { intros j Hj.
    destruct (lower_bound_prefix (table rs) s j) as [rec [Hrec Hlt]]; [lia|].
    exists rec. split; [exact Hrec|]. rewrite Hvis.
    destruct (isCappedHidden rs s); [apply Z.ltb_lt | apply Z.leb_le]; lia. }
  assert (Hm : length (takeVisible rs cur (table rs)) =
               if isCappedHidden rs s then lower_bound (table rs) s
               else match nth_error (table rs) (lower_bound (table rs) s) with
                    | Some r => if id r =? s then S (lower_bound (table rs) s)
                                else lower_bound (table rs) s
                    | None => lower_bound (table rs) s
                    end).
  { destruct (isCappedHidden rs s).
    - apply visible_below. exact Hvis.
    - apply visible_upto; [exact Hord | exact Hvis]. }
  assert (Hland : forall j rec,
             nth_error (table rs) j = Some rec ->
             length (takeVisible rs cur (table rs)) = S j ->
             (j < length (table rs))%nat ->
             rec :: drain env fuel rs
                      (mkCursor false (Some (At j)) false (id rec)
                                (_readUntilForOplog cur))
             = rev (takeVisible rs cur (table rs))).
  { intros j rec Hj Hlen Hlt.
    apply (drain_reverse_land env rs cur); [exact Hids | exact Hj | exact Hlen |].
    destruct fuel; lia. }
  assert (Hnone : length (takeVisible rs cur (table rs)) = O ->
                  [] = rev (takeVisible rs cur (table rs))).
  { intros H. symmetry. apply takeVisible_none. exact H. }
  destruct fuel as [|fuel']; [lia|].
  assert (Hland' : forall j rec,
             nth_error (table rs) j = Some rec ->
             length (takeVisible rs cur (table rs)) = S j ->
             rec :: drain env fuel' rs
                      (mkCursor false (Some (At j)) false (id rec)
                                (_readUntilForOplog cur))
             = rev (takeVisible rs cur (table rs))).
  { intros j rec Hj Hlen.
    apply (drain_reverse_land env rs cur); [exact Hids | exact Hj | exact Hlen |].
    assert (j < length (table rs))%nat by (apply nth_error_Some; congruence).
    lia. }
  clear Hland.
  cbn [drain]. subst cur. rewrite Cursor_next_reverse_new. cbv zeta.
  set (cur := Cursor_new txn false) in *.
  rewrite Hseek, Hcap.
  replace (isNull s) with false by (symmetry; apply Z.eqb_neq; exact Hs).
  cbn [andb negb]. unfold wt_search_near.
  destruct (nth_error (table rs) (lower_bound (table rs) s)) as [r|] eqn:Enth.
  - destruct (id r =? s) eqn:Eeq.
    + change (0 =? WT_NOTFOUND) with false. change (0 =? 0) with true.
      cbn [negb].
      destruct (isCappedHidden rs s) eqn:Ehid.
      * change (0 <=? 0) with true.
        destruct (lower_bound (table rs) s) as [|j] eqn:Elb.
        -- destruct (Cursor_advance_front rs cur Hfwd) as [c' ->].
           apply Hnone. exact Hm.
        -- destruct (Hbelow j eq_refl) as [rec [Hj Hv]].
           rewrite (Cursor_advance_back rs cur j rec Hfwd Heof Hj Hv).
           apply Hland'; [exact Hj | exact Hm].
      * change (0 <? 0) with false.
        assert (Hv : isVisible rs cur (id r) = true).
        { rewrite Hvis. apply Z.eqb_eq in Eeq. apply Z.leb_le. lia. }
        rewrite (Cursor_advance_stay rs cur _ r Hfwd Heof Enth Hv).
        apply Hland'; [exact Enth | exact Hm].
    + assert (Hm' : length (takeVisible rs cur (table rs))
                    = lower_bound (table rs) s).
      { rewrite Hm. destruct (isCappedHidden rs s); reflexivity. }
      destruct (lower_bound (table rs) s) as [|j] eqn:Elb.
      * change (0 =? WT_NOTFOUND) with false. change (0 =? 0) with true.
        cbn [negb]. change (0 <=? 1) with true. change (0 <? 1) with true.
        replace (if isCappedHidden rs s then true else true) with true
          by (destruct (isCappedHidden rs s); reflexivity).
        destruct (Cursor_advance_front rs cur Hfwd) as [c' ->].
        apply Hnone. exact Hm'.
      * destruct (Hbelow j eq_refl) as [rec [Hj Hv]].
        destruct (landAfter env).
        -- change (0 =? WT_NOTFOUND) with false. change (0 =? 0) with true.
           cbn [negb]. change (0 <=? 1) with true. change (0 <? 1) with true.
           replace (if isCappedHidden rs s then true else true) with true
             by (destruct (isCappedHidden rs s); reflexivity).
           rewrite (Cursor_advance_back rs cur j rec Hfwd Heof Hj Hv).
           apply Hland'; [exact Hj | exact Hm'].
        -- change (0 =? WT_NOTFOUND) with false. change (0 =? 0) with true.
           cbn [negb]. change (0 <=? -1) with false. change (0 <? -1) with false.
           replace (if isCappedHidden rs s then false else false) with false
             by (destruct (isCappedHidden rs s); reflexivity).
           rewrite (Cursor_advance_stay rs cur j rec Hfwd Heof Hj Hv).
           apply Hland'; [exact Hj | exact Hm'].
  - assert (Hm' : length (takeVisible rs cur (table rs))
                  = lower_bound (table rs) s).
    { rewrite Hm. destruct (isCappedHidden rs s); reflexivity. }
    destruct (lower_bound (table rs) s) as [|j] eqn:Elb.
    + rewrite Z.eqb_refl. apply Hnone. exact Hm'.
    + destruct (Hbelow j eq_refl) as [rec [Hj Hv]].
      change (0 =? WT_NOTFOUND) with false. change (0 =? 0) with true.
      cbn [negb]. change (0 <=? -1) with false. change (0 <? -1) with false.
      replace (if isCappedHidden rs s then false else false) with false
        by (destruct (isCappedHidden rs s); reflexivity).
      rewrite (Cursor_advance_stay rs cur j rec Hfwd Heof Hj Hv).
      apply Hland'; [exact Hj | exact Hm'].
Qed.

(** X11.  A reverse scan from a new cursor returns exactly the records a
    forward scan can reach, highest id first: on a capped collection the
    cursor first seeks the highest record it may see (below the lowest
    uncommitted id, or at the oplog read-till point), whichever neighbour the
    engine's search_near lands on; on a collection that is not capped it
    returns the whole table backwards.  Record ids are not null, and a
    read-till point is only set on the oplog. *)
Theorem reverse_scan_visible (env : Env) (rs : WiredTigerRecordStore)
        (txn : OperationContext) (fuel : nat) :
  key_ordered (table rs) = true ->
  (forall r, In r (table rs) -> id r <> RecordId_null) ->
  ~ In RecordId_null (_uncommittedDiskLocs rs) ->
  (_isCapped rs = true -> oplogReadTill txn <> RecordId_null ->
   _isOplog rs = true) ->
  (length (table rs) < fuel)%nat ->
  drain env fuel rs (Cursor_new txn false)
  = rev (takeVisible rs (Cursor_new txn false) (table rs))
  /\ (_isCapped rs = false ->
      drain env fuel rs (Cursor_new txn false) = rev (table rs)).
Proof.
  intros Hord Hids Hlocs Holog Hfuel.
  assert (Hscan : drain env fuel rs (Cursor_new txn false)
                  = rev (takeVisible rs (Cursor_new txn false) (table rs))).
  { destruct (_isCapped rs) eqn:Hcap;
      [|apply reverse_scan_all; [exact Hids | left; exact Hcap | exact Hfuel]].
    destruct (isNull (oplogReadTill txn)) eqn:Hnull.
    - apply Z.eqb_eq in Hnull.
      destruct (_uncommittedDiskLocs rs) as [|front rest] eqn:Hu.
      + apply reverse_scan_all; [exact Hids | right; auto | exact Hfuel].
      + assert (Hfront : front <> RecordId_null)
          by (intros ->; apply Hlocs; left; reflexivity).
        apply (reverse_scan_seek env rs txn front);
          try assumption.
        * rewrite Hnull. unfold lowestCappedHiddenRecord. rewrite Hu.
          reflexivity.
        * intros k. unfold isVisible, isCappedHidden, Cursor_new.
          cbn [_readUntilForOplog]. rewrite Hcap, Hnull, Hu. cbn.
          rewrite Z.leb_refl. rewrite Z.ltb_antisym. reflexivity.
    - assert (Hp : oplogReadTill txn <> RecordId_null)
        by (apply Z.eqb_neq; exact Hnull).
      apply (reverse_scan_seek env rs txn (oplogReadTill txn));
        try assumption.
      + rewrite Hnull. reflexivity.
      + intros k. unfold isVisible, Cursor_new.
        cbn [_readUntilForOplog]. rewrite Hcap, (Holog eq_refl Hp).
        unfold isNull in *. rewrite Hnull. cbn [negb orb].
        destruct (k =? oplogReadTill txn) eqn:Ek.
        * apply Z.eqb_eq in Ek. subst k.
          destruct (isCappedHidden rs (oplogReadTill txn)); cbn [negb];
            [rewrite Z.ltb_irrefl | rewrite Z.leb_refl]; reflexivity.
        * apply Z.eqb_neq in Ek.
          destruct (isCappedHidden rs (oplogReadTill txn)); [reflexivity|].
          destruct (k <? oplogReadTill txn) eqn:E1;
            [apply Z.ltb_lt in E1; symmetry; apply Z.leb_le; lia
            |apply Z.ltb_ge in E1; symmetry; apply Z.leb_gt; lia]. }
  split; [exact Hscan|].
  intros Hcap. rewrite Hscan, (takeVisible_plain _ _ _ Hcap). reflexivity.
Qed.

Lemma reverse_scan_visible_witness :
  drain quietEnv 4 evictedStore (Cursor_new freshTxn false)
  = rev (takeVisible evictedStore (Cursor_new freshTxn false)
                     (table evictedStore))
  /\ (_isCapped evictedStore = false ->
      drain quietEnv 4 evictedStore (Cursor_new freshTxn false)
      = rev (table evictedStore)).
Proof.
  apply (reverse_scan_visible quietEnv evictedStore freshTxn 4).
  - reflexivity.
  - simpl. intros r [<-|[<-|[<-|[]]]]; discriminate.
  - simpl. intros [H|[]]. discriminate.
  - intros _ H. exfalso. apply H. reflexivity.
  - simpl. lia.
Defined.

(** X12.  Visibility has no holes: a cursor that may see an id may see every
    lower id, on every kind of store and with or without an oplog read-till
    point.  So what a scan stops at is a threshold, not a single record. *)
Theorem isVisible_downward (rs : WiredTigerRecordStore) (cur : Cursor)
        (k k' : RecordId) :
  isVisible rs cur k = true -> k' <= k -> isVisible rs cur k' = true.
Proof.
  unfold isVisible, isCappedHidden.
  destruct (negb (_isCapped rs)); [reflexivity|].
  intros Hvis Hle.
  assert (Hhid : forall a b,
             negb (match _uncommittedDiskLocs rs with
                   | [] => false
                   | front :: _ => front <=? a
                   end) = true -> b <= a ->
             negb (match _uncommittedDiskLocs rs with
                   | [] => false
                   | front :: _ => front <=? b
                   end) = true).
  { intros a b. destruct (_uncommittedDiskLocs rs) as [|front rest];
      [reflexivity|].
    rewrite !negb_true_iff, !Z.leb_gt. lia. }
  destruct (isNull (_readUntilForOplog cur) || negb (_isOplog rs));
    [exact (Hhid _ _ Hvis Hle)|].
  destruct (k =? _readUntilForOplog cur) eqn:Ek.
  - apply Z.eqb_eq in Ek.
    destruct (k' =? _readUntilForOplog cur) eqn:Ek'.
    + exact (Hhid _ _ Hvis Hle).
    + apply Z.eqb_neq in Ek'. apply Z.ltb_lt. lia.
  - apply Z.ltb_lt in Hvis.
    destruct (k' =? _readUntilForOplog cur) eqn:Ek'.
    + apply Z.eqb_eq in Ek'. lia.
    + apply Z.ltb_lt. lia.
Qed.

Lemma isVisible_downward_witness :
  isVisible evictedStore (Cursor_new freshTxn true) 2 = true.
Proof.
  apply (isVisible_downward evictedStore (Cursor_new freshTxn true) 3 2).
  - reflexivity.
  - lia.
Defined.

(** X13.  Saving and restoring a cursor whose last returned record is still
    in the table: [restore] reports true and puts the engine cursor back on
    that record, wherever it stands in the table by now, on capped and
    uncapped collections alike; the other fields of the cursor are as they
    were saved. *)
Theorem Cursor_restore_found (env : Env) (rs : WiredTigerRecordStore)
        (cur : Cursor) (r : Rec) :
  key_ordered (table rs) = true ->
  In r (table rs) ->
  _lastReturnedId cur = id r ->
  id r <> RecordId_null ->
  _eof cur = false ->
  exists i,
    nth_error (table rs) i = Some r
    /\ Cursor_restore env rs (Cursor_save cur)
       = Returns (true, mkCursor (_forward cur) (Some (At i)) false (id r)
                                 (_readUntilForOplog cur)).
Proof.
  intros Hord Hin Hlast Hid Heof.
  pose proof (lower_bound_found _ _ Hord Hin) as Hnth.
  exists (lower_bound (table rs) (id r)). split; [exact Hnth|].
  unfold Cursor_restore, Cursor_save.
  cbn [_eof _cursor _forward _lastReturnedId _readUntilForOplog].
  rewrite Heof, Hlast.
  replace (isNull (id r)) with false by (symmetry; apply Z.eqb_neq; exact Hid).
  unfold wt_search_near. rewrite Hnth, Z.eqb_refl. reflexivity.
Qed.

Lemma Cursor_restore_found_witness :
  exists i,
    nth_error (table plainStore) i = Some (mkRec 20 abc)
    /\ Cursor_restore quietEnv plainStore (Cursor_save (savedCursor true 20))
       = Returns (true, mkCursor true (Some (At i)) false 20 RecordId_null).
Proof.
  apply (Cursor_restore_found quietEnv plainStore (savedCursor true 20)
                              (mkRec 20 abc)).
  - reflexivity.
  - simpl. auto.
  - reflexivity.
  - discriminate.
  - reflexivity.
Defined.

(** X14.  [seekExact] looks the id up and nothing else: for a record of the
    table it returns the record and leaves the cursor on it, not at its end,
    with that id as the last one returned, whether or not the cursor may see
    the id; for an id that is not in the table it returns nothing and the
    cursor is at its end. *)
Theorem Cursor_seekExact_spec (rs : WiredTigerRecordStore) (cur : Cursor)
        (c : WT_CURSOR) :
  key_ordered (table rs) = true ->
  _cursor cur = Some c ->
  (forall r, In r (table rs) ->
     exists i,
       nth_error (table rs) i = Some r
       /\ Cursor_seekExact rs cur (id r)
          = Returns (Some r, mkCursor (_forward cur) (Some (At i)) false (id r)
                                      (_readUntilForOplog cur)))
  /\ (forall k, (forall r, In r (table rs) -> id r <> k) ->
        exists cur',
          Cursor_seekExact rs cur k = Returns (None, cur')
          /\ _eof cur' = true
          /\ _lastReturnedId cur' = _lastReturnedId cur).
Proof.
  intros Hord Hc. split.
  - intros r Hin. destruct (wt_search_found _ _ Hord Hin) as [i [Hs Hi]].
    exists i. split; [exact Hi|].
    unfold Cursor_seekExact. rewrite Hc, Hs.
    change (0 =? WT_NOTFOUND) with false. change (0 =? 0) with true.
    cbn [negb wt_get]. rewrite Hi. destruct r; reflexivity.
  - intros k Habs. unfold Cursor_seekExact.
    rewrite Hc, (wt_search_absent _ _ Habs), Z.eqb_refl.
    eexists. repeat split.
Qed.

Lemma Cursor_seekExact_spec_witness :
  (forall r, In r (table evictedStore) ->
     exists i,
       nth_error (table evictedStore) i = Some r
       /\ Cursor_seekExact evictedStore (Cursor_new freshTxn true) (id r)
          = Returns (Some r, mkCursor true (Some (At i)) false (id r)
                                      RecordId_null))
  /\ (forall k, (forall r, In r (table evictedStore) -> id r <> k) ->
        exists cur',
          Cursor_seekExact evictedStore (Cursor_new freshTxn true) k
          = Returns (None, cur')
          /\ _eof cur' = true
          /\ _lastReturnedId cur' = RecordId_null).
Proof.
  apply (Cursor_seekExact_spec evictedStore (Cursor_new freshTxn true)
                               Unpositioned).
  - reflexivity.
  - reflexivity.
Defined.

(** X15.  A forward cursor opened on the oplog outside a storage
    transaction reads up to the first uncommitted id and no further: the
    read-till point of the operation context is set to the front of the
    uncommitted ids, or to the highest id seen when there is none, and the
    cursor takes that point as its own; the store is not changed, and the
    cursor may see an id exactly when it is below that front, or not above
    the highest id seen (every id when nothing has been seen yet). *)
Theorem getCursor_oplog_readTill (txn : OperationContext)
        (rs : WiredTigerRecordStore) :
  _isOplog rs = true ->
  _isCapped rs = true ->
  inActiveTxn txn = false ->
  exists cur txn',
    getCursor true (txn, rs) = Returns (cur, (txn', rs))
    /\ changes txn' = changes txn
    /\ oplogReadTill txn' =
       match _uncommittedDiskLocs rs with
       | front :: _ => front
       | [] => _oplog_highestSeen rs
       end
    /\ _readUntilForOplog cur = oplogReadTill txn'
    /\ inActiveTxn txn' = inActiveTxn txn
    /\ _forward cur = true /\ _eof cur = false
    /\ _lastReturnedId cur = RecordId_null
    /\ forall k,
         isVisible rs cur k =
         match _uncommittedDiskLocs rs with
         | front :: _ => k <? front
         | [] => isNull (_oplog_highestSeen rs) || (k <=? _oplog_highestSeen rs)
         end.
Proof.
  intros Holog Hcap Hactive.
  unfold getCursor, bind, getRS, getTxn, putTxn, ret. cbn [fst snd].
  rewrite Holog, Hactive. cbn [andb negb orb fst snd].
  do 2 eexists. split; [reflexivity|].
  unfold _oplogSetStartHack, Cursor_new.
  cbn [changes oplogReadTill inActiveTxn _readUntilForOplog _forward _eof
       _lastReturnedId].
  split; [reflexivity|].
  split; [destruct (_uncommittedDiskLocs rs); reflexivity|].
  repeat (split; [first [reflexivity | exact Hactive]|]).
  intros k. unfold isVisible, isCappedHidden.
  cbn [_readUntilForOplog]. rewrite Hcap, Holog. cbn [negb orb].
  rewrite orb_false_r.
  destruct (_uncommittedDiskLocs rs) as [|front rest].
  - destruct (isNull (_oplog_highestSeen rs)); [reflexivity|].
    cbn [negb orb].
    destruct (k =? _oplog_highestSeen rs) eqn:Ek.
    + apply Z.eqb_eq in Ek. symmetry. apply Z.leb_le. lia.
    + apply Z.eqb_neq in Ek.
      destruct (k <? _oplog_highestSeen rs) eqn:E1;
        [apply Z.ltb_lt in E1; symmetry; apply Z.leb_le; lia
        |apply Z.ltb_ge in E1; symmetry; apply Z.leb_gt; lia].
  - destruct (isNull front); [symmetry; apply Z.ltb_antisym|].
    destruct (k =? front) eqn:Ek.
    + apply Z.eqb_eq in Ek. subst k. rewrite Z.leb_refl, Z.ltb_irrefl.
      reflexivity.
    + reflexivity.
Qed.

Lemma getCursor_oplog_readTill_witness :
  exists cur txn',
    getCursor true (freshTxn, oplogStore) = Returns (cur, (txn', oplogStore))
    /\ changes txn' = changes freshTxn
    /\ oplogReadTill txn' =
       match _uncommittedDiskLocs oplogStore with
       | front :: _ => front
       | [] => _oplog_highestSeen oplogStore
       end
    /\ _readUntilForOplog cur = oplogReadTill txn'
    /\ inActiveTxn txn' = inActiveTxn freshTxn
    /\ _forward cur = true /\ _eof cur = false
    /\ _lastReturnedId cur = RecordId_null
    /\ forall k,
         isVisible oplogStore cur k =
         match _uncommittedDiskLocs oplogStore with
         | front :: _ => k <? front
         | [] => isNull (_oplog_highestSeen oplogStore)
                 || (k <=? _oplog_highestSeen oplogStore)
         end.
Proof.
  apply (getCursor_oplog_readTill freshTxn oplogStore); reflexivity.
Defined.

(** ** Updating *)

(** X16.  Update and look up, on a store without oplog stones: when
    [updateRecord] of an existing record returns, it returns the id, exactly
    one [DataSizeChange] of the difference in length is registered, and
    [findRecord] and [dataFor] under the id give the new data, of whatever
    length, and whatever the capped eviction that follows removed. *)
Theorem updateRecord_then_find (env : Env) (txn txn' : OperationContext)
        (rs rs' : WiredTigerRecordStore) (old : Rec)
        (newData out : RecordData) (res : StatusWith RecordId) :
  _oplogStones rs = None ->
  key_ordered (table rs) = true ->
  In old (table rs) ->
  updateRecord env (id old) newData (txn, rs) = Returns (res, (txn', rs')) ->
  res = SW_value (id old)
  /\ findRecord rs' (id old) out = Returns (true, newData)
  /\ dataFor rs' (id old) = Returns newData
  /\ changes txn' =
     changes txn ++ [DataSizeChange (size newData - size (data old))].
Proof.
  intros Hstones Hord Hin Hrun.
  destruct (wt_search_found _ _ Hord Hin) as [i [Hs Hi]].
  unfold updateRecord in Hrun. unfold bind at 1 in Hrun.
  unfold getRS at 1 in Hrun. cbn [fst snd] in Hrun.
  rewrite Hs in Hrun. unfold bind at 1 in Hrun.
  unfold invariantWTOK, invariant in Hrun. cbn [Z.eqb] in Hrun.
  unfold ret at 1 in Hrun. cbn [wt_get] in Hrun. rewrite Hi in Hrun.
  destruct old as [k v]. cbn [id data] in *.
  rewrite Hstones in Hrun. cbn [andb] in Hrun.
  unfold bind at 1 in Hrun. unfold modifyRS at 1 in Hrun.
  cbn [fst snd] in Hrun. unfold bind at 1 in Hrun.
  match type of Hrun with
  | context [_increaseDataSize true ?a (?t, ?s)] =>
      destruct (_increaseDataSize_run true a t s)
        as [rs1 [Hsize [_ [Htable _]]]]
  end.
  rewrite Hsize in Hrun. unfold bind at 1 in Hrun.
  destruct (cappedDeleteAsNeeded env k _) as [[n [t2 r2]]| |] eqn:Ecap;
    try discriminate.
  unfold ret in Hrun. injection Hrun as <- <- <-.
  assert (Ht1 : table rs1 = wt_insert (table rs) k newData)
    by (rewrite Htable; destruct rs; reflexivity).
  assert (Hord1 : key_ordered (table rs1) = true)
    by (rewrite Ht1; apply wt_insert_ordered; exact Hord).
  assert (Hin1 : In (mkRec k newData) (table rs1))
    by (rewrite Ht1; apply wt_insert_In).
  destruct (cappedDeleteAsNeeded_result _ _ _ _ _ _ _ Hord1 Ecap)
    as [-> [_ [_ Hcases]]].
  assert (Hfinal : key_ordered (table r2) = true
                   /\ In (mkRec k newData) (table r2)).
  { destruct Hcases as [[_ [Ht _]]|[j [_ [_ [_ [Hbelow [Ht _]]]]]]].
    - rewrite Ht. auto.
    - rewrite Ht. split; [apply key_ordered_skipn; exact Hord1|].
      apply (skipn_keeps (fun x => id x < k) _ _ _ Hin1 Hbelow).
      simpl. lia. }
  destruct Hfinal as [Hord2 Hin2].
  destruct (findRecord_found r2 (mkRec k newData) out Hord2 Hin2)
    as [Hfind Hdata].
  split; [reflexivity|]. split; [exact Hfind|]. split; [exact Hdata|].
  reflexivity.
Qed.

Lemma updateRecord_then_find_witness :
  exists txn' rs',
    updateRecord quietEnv 20 (abc ++ abc) (freshTxn, plainStore)
    = Returns (SW_value 20, (txn', rs'))
    /\ SW_value 20 = SW_value (id (mkRec 20 abc))
    /\ findRecord rs' 20 [] = Returns (true, abc ++ abc)
    /\ dataFor rs' 20 = Returns (abc ++ abc)
    /\ changes txn' = [DataSizeChange 3].
Proof.
  do 2 eexists. split; [vm_compute; reflexivity|].
  eapply (updateRecord_then_find quietEnv freshTxn _ plainStore _
            (mkRec 20 abc) (abc ++ abc) [] (SW_value 20)).
  - reflexivity.
  - reflexivity.
  - simpl. auto.
  - vm_compute. reflexivity.
Defined.

(** X17.  Truncating a collection that holds records, table in key order:
    [truncate] returns OK and the table is empty; the changes registered are
    a document count and a data size of minus the counters held (and the
    clearing of the stones, on an oplog with stones); counters that were not
    negative are zero afterwards. *)
Theorem truncate_all (txn : OperationContext) (rs : WiredTigerRecordStore) :
  key_ordered (table rs) = true ->
  table rs <> [] ->
  exists txn' rs',
    truncate (txn, rs) = Returns (Status_OK, (txn', rs'))
    /\ table rs' = []
    /\ changes txn' =
       changes txn
       ++ [NumRecordsChange (- _numRecords rs); DataSizeChange (- _dataSize rs)]
       ++ match _oplogStones rs with
          | Some _ => [OplogStones_TruncateChange]
          | None => []
          end
    /\ (0 <= _numRecords rs -> _numRecords rs' = 0)
    /\ (0 <= _dataSize rs -> _dataSize rs' = 0)
    /\ sameSetup rs rs'.
Proof.
  intros Hord Hne.
  destruct (table rs) as [|first t] eqn:Et; [congruence|].
  assert (H0 : nth_error (table rs) 0 = Some first) by (rewrite Et; reflexivity).
  pose proof (wt_truncate_suffix (table rs)) as Htr.
  rewrite Et in Htr. specialize (Htr Hord O first eq_refl).
  cbn [firstn] in Htr.
  unfold truncate. unfold bind at 1. unfold getRS at 1. cbn [fst snd].
  rewrite Et. cbn [wt_next].
  change (0 =? WT_NOTFOUND) with false. cbv iota.
  unfold bind at 1. unfold invariantWTOK, invariant. cbn [Z.eqb].
  unfold ret at 1. cbn [wt_get nth_error].
  unfold bind at 1. unfold modifyRS at 1. cbn [fst snd].
  rewrite Htr.
  unfold bind at 1. rewrite _changeNumRecords_run.
  unfold bind at 1.
  match goal with
  | |- context [_increaseDataSize true ?a (?t, ?s)] =>
      destruct (_increaseDataSize_run true a t s)
        as [rs' [Hrun [Hsize [Htable [Hnum Hsetup]]]]]
  end.
  rewrite Hrun.
  assert (Hgoal :
    table rs' = []
    /\ (0 <= _numRecords rs -> _numRecords rs' = 0)
    /\ (0 <= _dataSize rs -> _dataSize rs' = 0)
    /\ sameSetup rs rs').
  { split; [rewrite Htable; destruct rs; reflexivity|].
    split; [|split].
    - intros Hn. rewrite Hnum. destruct rs. cbn in *.
      replace (_numRecords0 <? 0) with false by (symmetry; apply Z.ltb_ge; lia).
      rewrite Z.add_opp_diag_r. reflexivity.
    - intros Hd. rewrite Hsize. destruct rs. cbn in *.
      replace (_dataSize0 <? 0) with false by (symmetry; apply Z.ltb_ge; lia).
      rewrite Z.add_opp_diag_r. reflexivity.
    - eapply sameSetup_trans; [|exact Hsetup].
      destruct rs. unfold sameSetup. cbn. repeat split. }
  destruct Hgoal as [Ht [Hn [Hd Hs]]].
  destruct (_oplogStones rs).
  - unfold bind, registerChange, ret. cbn [fst snd].
    do 2 eexists. split; [reflexivity|].
    split; [exact Ht|]. split; [|auto].
    unfold addChange. cbn. rewrite <- !app_assoc. reflexivity.
  - unfold ret. do 2 eexists. split; [reflexivity|].
    split; [exact Ht|]. split; [|auto].
    unfold addChange. cbn. rewrite <- !app_assoc. reflexivity.
Qed.

Lemma truncate_all_witness :
  exists txn' rs',
    truncate (freshTxn, oplogStore) = Returns (Status_OK, (txn', rs'))
    /\ table rs' = []
    /\ changes txn' =
       [NumRecordsChange (-2); DataSizeChange (-6); OplogStones_TruncateChange]
    /\ (0 <= _numRecords oplogStore -> _numRecords rs' = 0)
    /\ (0 <= _dataSize oplogStore -> _dataSize rs' = 0)
    /\ sameSetup oplogStore rs'.
Proof.
  apply (truncate_all freshTxn oplogStore).
  - reflexivity.
  - discriminate.
Defined.

(** ** Oplog stones *)

Lemma sum_records_app (l1 l2 : list Stone) :
  fold_right (fun st acc => records st + acc) 0 (l1 ++ l2)
  = fold_right (fun st acc => records st + acc) 0 l1
    + fold_right (fun st acc => records st + acc) 0 l2.
Proof.
  induction l1 as [|x l1 IH]; cbn [app fold_right]; lia.
Qed.

Lemma sum_bytes_app (l1 l2 : list Stone) :
  fold_right (fun st acc => bytes st + acc) 0 (l1 ++ l2)
  = fold_right (fun st acc => bytes st + acc) 0 l1
    + fold_right (fun st acc => bytes st + acc) 0 l2.
Proof.
  induction l1 as [|x l1 IH]; cbn [app fold_right]; lia.
Qed.

(** X18.  The commit of an oplog insert keeps the stones' books: with a
    non-negative length, a normal id and counters that do not overflow, the
    records the stones account for go up by one and the bytes by the length
    inserted, whether or not a stone is closed.  A stone is closed exactly
    when the bytes of the stone being filled reach [minBytesPerStone] and
    the mutex is free: it takes the counters, ends at the record just
    inserted, and the counters restart at zero. *)
Theorem InsertChange_commit_accounts (lk : bool) (bytesInserted : Z)
        (justInserted : RecordId) (os : OplogStones) :
  0 <= bytesInserted ->
  isNormal justInserted = true ->
  - 2 ^ 63 <= _currentRecords os + 1 < 2 ^ 63 ->
  - 2 ^ 63 <= _currentBytes os + bytesInserted < 2 ^ 63 ->
  exists os',
    InsertChange_commit lk bytesInserted justInserted os = Returns os'
    /\ stonesRecords os' = stonesRecords os + 1
    /\ stonesBytes os' = stonesBytes os + bytesInserted
    /\ _minBytesPerStone os' = _minBytesPerStone os
    /\ _numStonesToKeep os' = _numStonesToKeep os
    /\ firstRecord os' = firstRecord os
    /\ (if lk && (_minBytesPerStone os <=? _currentBytes os + bytesInserted)
        then _stones os' =
             _stones os ++ [mkStone (_currentRecords os + 1)
                                    (_currentBytes os + bytesInserted)
                                    justInserted]
             /\ _currentRecords os' = 0 /\ _currentBytes os' = 0
        else _stones os' = _stones os
             /\ _currentRecords os' = _currentRecords os + 1
             /\ _currentBytes os' = _currentBytes os + bytesInserted).
Proof.
  intros Hb Hj Hr Hbytes.
  unfold InsertChange_commit, createNewStoneIfNeeded, addAndFetch.
  replace (0 <=? bytesInserted) with true by (symmetry; apply Z.leb_le; lia).
  rewrite Hj. cbn [negb fst].
  rewrite !wrap64_small by lia.
  cbn [_stones _currentRecords _currentBytes _minBytesPerStone _numStonesToKeep
       firstRecord].
  destruct (_minBytesPerStone os <=? _currentBytes os + bytesInserted) eqn:Efull.
  - destruct lk; cbn [negb andb].
    + apply Z.leb_le in Efull.
      replace (_currentBytes os + bytesInserted <? _minBytesPerStone os)
        with false by (symmetry; apply Z.ltb_ge; lia).
      eexists. split; [reflexivity|].
      unfold stonesRecords, stonesBytes.
      cbn [_stones _currentRecords _currentBytes _minBytesPerStone
           _numStonesToKeep firstRecord].
      rewrite sum_records_app, sum_bytes_app.
      cbn [fold_right records bytes]. repeat split; lia.
    + eexists. split; [reflexivity|].
      unfold stonesRecords, stonesBytes.
      cbn [_stones _currentRecords _currentBytes _minBytesPerStone
           _numStonesToKeep firstRecord].
      repeat split; lia.
  - rewrite andb_false_r.
    eexists. split; [reflexivity|].
    unfold stonesRecords, stonesBytes.
    cbn [_stones _currentRecords _currentBytes _minBytesPerStone
         _numStonesToKeep firstRecord].
    repeat split; lia.
Qed.

Lemma InsertChange_commit_accounts_witness :
  exists os',
    InsertChange_commit true 94 30 (mkOplogStones [] 2 6 100 10 RecordId_null)
    = Returns os'
    /\ stonesRecords os' = 3
    /\ stonesBytes os' = 100
    /\ _stones os' = [mkStone 3 100 30]
    /\ _currentRecords os' = 0 /\ _currentBytes os' = 0.
Proof.
  destruct (InsertChange_commit_accounts true 94 30
              (mkOplogStones [] 2 6 100 10 RecordId_null))
    as [os' [Hrun [Hr [Hb [_ [_ [_ Hstone]]]]]]].
  - lia.
  - reflexivity.
  - cbn. lia.
  - cbn. lia.
  - exists os'. cbn in Hstone. tauto.
Defined.

Lemma stones_ordered_app_inv (l : list Stone) (x : Stone) :
  stones_ordered (l ++ [x]) = true ->
  stones_ordered l = true
  /\ Forall (fun st => lastRecord st < lastRecord x) l.
Proof.
  induction l as [|a l IH]; intros H; [split; [reflexivity | constructor]|].
  destruct l as [|b l].
  - cbn in H. apply andb_true_iff in H. destruct H as [H _].
    apply Z.ltb_lt in H. split; [reflexivity|]. repeat constructor. exact H.
  - cbn [app stones_ordered] in H. apply andb_true_iff in H.
    destruct H as [Hab Hrest].
    destruct (IH Hrest) as [Hord Hall].
    split.
    + cbn [stones_ordered]. rewrite Hab. exact Hord.
    + constructor; [|exact Hall].
      apply Z.ltb_lt in Hab. inversion Hall; subst. lia.
Qed.

(** What the backward loop of [updateStonesAfterCappedTruncateAfter] finds:
    the stones it counts are the newest ones, all ending at or after the
    first removed id; the sums are theirs; with the stones in order, every
    stone left ends before the first removed id. *)
Lemma stonesToRemove_spec (stones : list Stone) (firstRemovedId : RecordId) :
  let '(k, r, b) := stonesToRemove (rev stones) firstRemovedId in
  (k <= length stones)%nat
  /\ Forall (fun st => firstRemovedId <= lastRecord st)
            (skipn (length stones - k) stones)
  /\ r = fold_right (fun st acc => records st + acc) 0
                    (skipn (length stones - k) stones)
  /\ b = fold_right (fun st acc => bytes st + acc) 0
                    (skipn (length stones - k) stones)
  /\ (stones_ordered stones = true ->
      Forall (fun st => lastRecord st < firstRemovedId)
             (firstn (length stones - k) stones)).
Proof.
  induction stones as [|x l IH] using rev_ind.
  - cbn. repeat split; constructor.
  - rewrite rev_app_distr. cbn [rev app stonesToRemove].
    rewrite length_app. cbn [length].
    destruct (lastRecord x <? firstRemovedId) eqn:Elt.
    + apply Z.ltb_lt in Elt.
      rewrite Nat.sub_0_r.
      replace (length l + 1)%nat with (length (l ++ [x]))
        by (rewrite length_app; reflexivity).
      rewrite skipn_all, firstn_all.
      split; [lia|]. split; [constructor|]. split; [reflexivity|].
      split; [reflexivity|].
      intros Hord. destruct (stones_ordered_app_inv _ _ Hord) as [_ Hall].
      apply Forall_app. split.
      * eapply Forall_impl; [|exact Hall]. cbn. intros a Ha. lia.
      * repeat constructor. exact Elt.
    + apply Z.ltb_ge in Elt.
      destruct (stonesToRemove (rev l) firstRemovedId) as [[k r] b].
      destruct IH as [Hk [Hge [Hr [Hb Hlt]]]].
      replace (length l + 1 - S k)%nat with (length l - k)%nat by lia.
      rewrite skipn_app, firstn_app.
      replace (length l - k - length l)%nat with O by lia.
      cbn [skipn firstn]. rewrite app_nil_r.
      split; [lia|]. split; [|split; [|split]].
      * apply Forall_app. split; [exact Hge|]. repeat constructor. exact Elt.
      * rewrite sum_records_app. cbn [fold_right]. lia.
      * rewrite sum_bytes_app. cbn [fold_right]. lia.
      * intros Hord. destruct (stones_ordered_app_inv _ _ Hord) as [Hord' _].
        exact (Hlt Hord').
Qed.

Lemma sum_records_nonneg (l : list Stone) :
  Forall (fun st => 0 <= records st /\ 0 <= bytes st) l ->
  0 <= fold_right (fun st acc => records st + acc) 0 l
  /\ 0 <= fold_right (fun st acc => bytes st + acc) 0 l.
Proof.
  induction 1 as [|x l [Hr Hb] _ [IHr IHb]]; cbn [fold_right]; lia.
Qed.

(** X19.  After a capped truncate-after the stones are brought in line: the
    stones that end at or after the first removed id are dropped, they are
    the newest ones, and with the stones in order every stone kept ends
    before that id; the records and bytes the stones account for go down by
    exactly what was removed, the remainder of a partly truncated stone
    being moved to the stone being filled. *)
Theorem updateStonesAfterCappedTruncateAfter_accounts
        (recordsRemoved bytesRemoved : Z) (firstRemovedId : RecordId)
        (os : OplogStones) :
  Forall (fun st => 0 <= records st /\ 0 <= bytes st) (_stones os) ->
  0 <= _currentRecords os -> 0 <= _currentBytes os ->
  stonesRecords os < 2 ^ 63 -> stonesBytes os < 2 ^ 63 ->
  0 <= recordsRemoved < 2 ^ 63 -> 0 <= bytesRemoved < 2 ^ 63 ->
  let os' := updateStonesAfterCappedTruncateAfter recordsRemoved bytesRemoved
                                                  firstRemovedId os in
  stonesRecords os' = stonesRecords os - recordsRemoved
  /\ stonesBytes os' = stonesBytes os - bytesRemoved
  /\ (exists dropped,
        _stones os = _stones os' ++ dropped
        /\ Forall (fun st => firstRemovedId <= lastRecord st) dropped)
  /\ (stones_ordered (_stones os) = true ->
      Forall (fun st => lastRecord st < firstRemovedId) (_stones os')).
Proof.
  intros Hpos Hcr Hcb Hrtot Hbtot Hn Hb.
  unfold updateStonesAfterCappedTruncateAfter, addAndFetch.
  pose proof (stonesToRemove_spec (_stones os) firstRemovedId) as Hspec.
  destruct (stonesToRemove (rev (_stones os)) firstRemovedId) as [[k r] b].
  destruct Hspec as [Hk [Hge [Hr [Hbs Hlt]]]].
  cbn [fst].
  pose proof (firstn_skipn (length (_stones os) - k) (_stones os)) as Hsplit.
  assert (Hsum : stonesRecords os
                 = fold_right (fun st acc => records st + acc) 0
                     (firstn (length (_stones os) - k) (_stones os))
                   + r + _currentRecords os
                 /\ stonesBytes os
                    = fold_right (fun st acc => bytes st + acc) 0
                        (firstn (length (_stones os) - k) (_stones os))
                      + b + _currentBytes os).
  { unfold stonesRecords, stonesBytes.
    pose proof (sum_records_app
                  (firstn (length (_stones os) - k) (_stones os))
                  (skipn (length (_stones os) - k) (_stones os))) as H1.
    pose proof (sum_bytes_app
                  (firstn (length (_stones os) - k) (_stones os))
                  (skipn (length (_stones os) - k) (_stones os))) as H2.
    rewrite Hsplit in H1, H2. lia. }
  destruct Hsum as [Hsr Hsb].
  assert (Hkept : Forall (fun st => 0 <= records st /\ 0 <= bytes st)
                         (firstn (length (_stones os) - k) (_stones os))).
  { rewrite <- Hsplit in Hpos. apply Forall_app in Hpos. tauto. }
  assert (Hgone : Forall (fun st => 0 <= records st /\ 0 <= bytes st)
                         (skipn (length (_stones os) - k) (_stones os))).
  { rewrite <- Hsplit in Hpos. apply Forall_app in Hpos. tauto. }
  apply sum_records_nonneg in Hkept. apply sum_records_nonneg in Hgone.
  rewrite <- Hr, <- Hbs in Hgone.
  rewrite !wrap64_small by lia.
  unfold stonesRecords, stonesBytes in *.
  cbn [_stones _currentRecords _currentBytes].
  split; [lia|]. split; [lia|]. split.
  - exists (skipn (length (_stones os) - k) (_stones os)).
    split; [symmetry; exact Hsplit | exact Hge].
  - exact Hlt.
Qed.

Lemma updateStonesAfterCappedTruncateAfter_accounts_witness :
  let os := mkOplogStones [mkStone 2 6 20; mkStone 2 6 40] 1 3 6 10 RecordId_null in
  let os' := updateStonesAfterCappedTruncateAfter 2 6 40 os in
  stonesRecords os' = stonesRecords os - 2
  /\ stonesBytes os' = stonesBytes os - 6
  /\ (exists dropped,
        _stones os = _stones os' ++ dropped
        /\ Forall (fun st => 40 <= lastRecord st) dropped)
  /\ (stones_ordered (_stones os) = true ->
      Forall (fun st => lastRecord st < 40) (_stones os')).
Proof.
  apply (updateStonesAfterCappedTruncateAfter_accounts 2 6 40
           (mkOplogStones [mkStone 2 6 20; mkStone 2 6 40] 1 3 6 10
                          RecordId_null)).
  - repeat constructor; cbn; lia.
  - cbn. lia.
  - cbn. lia.
  - cbn. lia.
  - cbn. lia.
  - lia.
  - lia.
Defined.

Lemma last_cons {A} (a d : A) (l : list A) : last (a :: l) d = last l a.
Proof.
  revert a d. induction l as [|b l IH]; intros a d; [reflexivity|].
  change (last (a :: b :: l) d) with (last (b :: l) d).
  rewrite (IH b d), (IH b a). reflexivity.
Qed.

(** The loop of [reclaimOplog], when no write conflict comes up and the
    engine's truncate succeeds: the excess stones are popped, oldest first,
    and their ranges truncated. *)
Lemma reclaimLoop_run (env : Env) :
  evictionConflict env = false -> truncateRet env = 0 ->
  forall (fuel : nat) (stones : list Stone) (txn : OperationContext)
         (rs : WiredTigerRecordStore) (cr cb minB keep : Z) (f0 : RecordId),
    _oplogStones rs = Some (mkOplogStones stones cr cb minB keep f0) ->
    0 <= keep ->
    (length stones - Z.to_nat keep <= fuel)%nat ->
    Forall (fun st => isNormal (lastRecord st) = true)
           (firstn (length stones - Z.to_nat keep) stones) ->
    exists txn' rs',
      reclaimLoop env fuel (txn, rs) = Returns (tt, (txn', rs'))
      /\ _oplogStones rs' =
         Some (mkOplogStones
                 (skipn (length stones - Z.to_nat keep) stones) cr cb minB keep
                 (last (map lastRecord
                            (firstn (length stones - Z.to_nat keep) stones)) f0))
      /\ table rs' =
         truncatedByStones (table rs) f0
                           (firstn (length stones - Z.to_nat keep) stones)
      /\ _uncommittedDiskLocs rs' = _uncommittedDiskLocs rs
      /\ _isCapped rs' = _isCapped rs.
Proof.
  intros Hconflict Htrunc.
  induction fuel as [|fuel IH];
    intros stones txn rs cr cb minB keep f0 Hos Hkeep Hfuel Hnormal.
  - assert (Hk : (length stones - Z.to_nat keep = 0)%nat) by lia.
    rewrite Hk in *. cbn [reclaimLoop].
    unfold bind at 1. unfold getRS at 1. cbn [fst snd]. rewrite Hos.
    unfold peekOldestStoneIfNeeded, hasExcessStones. cbn [_numStonesToKeep _stones].
    replace (keep <? Z.of_nat (length stones)) with false
      by (symmetry; apply Z.ltb_ge; lia).
    cbn [negb]. exists txn, rs. split; [reflexivity|].
    cbn [skipn firstn map last truncatedByStones]. auto.
  - cbn [reclaimLoop].
    unfold bind at 1. unfold getRS at 1. cbn [fst snd]. rewrite Hos.
    unfold peekOldestStoneIfNeeded, hasExcessStones. cbn [_numStonesToKeep _stones].
    destruct (keep <? Z.of_nat (length stones)) eqn:Eexcess.
    + apply Z.ltb_lt in Eexcess. cbn [negb].
      destruct stones as [|stone rest]; [cbn in Eexcess; lia|].
      cbn [hd_error].
      assert (Hk : (length (stone :: rest) - Z.to_nat keep
                    = S (length rest - Z.to_nat keep))%nat)
        by (cbn [length] in *; lia).
      rewrite Hk in *. cbn [firstn skipn map] in *.
      inversion Hnormal as [|x l Hstone Hrest]; subst.
      unfold bind at 1. unfold invariant at 1. rewrite Hstone.
      unfold ret at 1. rewrite Hconflict.
      unfold bind at 1. unfold invariantWTOK, invariant. rewrite Htrunc.
      cbn [Z.eqb]. unfold ret at 1.
      unfold bind at 1. unfold modifyRS at 1. cbn [fst snd].
      unfold bind at 1. rewrite _changeNumRecords_run.
      unfold bind at 1.
      match goal with
      | |- context [_increaseDataSize true ?a (?t, ?s)] =>
          destruct (_increaseDataSize_run true a t s)
            as [rs2 [Hrun [_ [Htable [_ Hsetup]]]]]
      end.
      rewrite Hrun.
      unfold bind at 1. unfold modifyRS at 1. cbn [fst snd].
      cbn [popOldestStone _stones tl _currentRecords _currentBytes
           _minBytesPerStone _numStonesToKeep firstRecord].
      match goal with
      | |- context [reclaimLoop env fuel (?t, ?s)] =>
          destruct (IH rest t s cr cb minB keep (lastRecord stone))
            as [txn' [rs' [Hloop [Hstones [Ht [Hu Hc]]]]]];
            [destruct rs2; reflexivity | exact Hkeep | lia | exact Hrest |]
      end.
      rewrite Hloop. exists txn', rs'. split; [reflexivity|].
      rewrite last_cons. split; [exact Hstones|].
      cbn [truncatedByStones].
      destruct Hsetup as [Hs1 [_ [_ [_ [_ [_ [_ [Hs8 _]]]]]]]].
      split; [|split].
      * rewrite Ht. f_equal. destruct rs2. cbn in *. rewrite Htable.
        destruct rs; reflexivity.
      * rewrite Hu. destruct rs2. cbn in *. rewrite Hs8. destruct rs; reflexivity.
      * rewrite Hc. destruct rs2. cbn in *. rewrite Hs1. destruct rs; reflexivity.
    + apply Z.ltb_ge in Eexcess. cbn [negb].
      assert (Hk : (length stones - Z.to_nat keep = 0)%nat) by lia.
      rewrite Hk. exists txn, rs. split; [reflexivity|].
      cbn [skipn firstn map last truncatedByStones]. auto.
Qed.

Lemma wt_truncate_join (t : Table) (a b c : Z) :
  a <= b -> b <= c ->
  wt_truncate (wt_truncate t (Some a) (Some b)) (Some b) (Some c)
  = wt_truncate t (Some a) (Some c).
Proof.
  intros Hab Hbc. unfold wt_truncate.
  induction t as [|x t IH]; [reflexivity|].
  cbn [filter].
  destruct (a <=? id x) eqn:E1; destruct (id x <=? b) eqn:E2;
    destruct (id x <=? c) eqn:E3; cbn [andb negb filter];
    try rewrite E3; destruct (b <=? id x) eqn:E4; cbn [andb negb];
    try (rewrite IH; reflexivity);
    try apply Z.leb_le in E1; try apply Z.leb_le in E2;
    try apply Z.leb_le in E3; try apply Z.leb_le in E4;
    try apply Z.leb_gt in E1; try apply Z.leb_gt in E2;
    try apply Z.leb_gt in E3; try apply Z.leb_gt in E4; lia.
Qed.

Lemma truncatedByStones_ordered (popped : list Stone) :
  forall (t : Table) (f0 : RecordId) (stone : Stone),
    stones_ordered (stone :: popped) = true ->
    f0 <= lastRecord stone ->
    truncatedByStones t f0 (stone :: popped)
    = wt_truncate t (Some f0)
                  (Some (last (map lastRecord popped) (lastRecord stone)))
    /\ lastRecord stone <= last (map lastRecord popped) (lastRecord stone).
Proof.
  induction popped as [|next rest IH]; intros t f0 stone Hord Hf0.
  - cbn. split; [reflexivity | lia].
  - cbn [stones_ordered] in Hord. apply andb_true_iff in Hord.
    destruct Hord as [Hlt Hord]. apply Z.ltb_lt in Hlt.
    change (truncatedByStones t f0 (stone :: next :: rest))
      with (truncatedByStones
              (wt_truncate t (Some f0) (Some (lastRecord stone)))
              (lastRecord stone) (next :: rest)).
    destruct (IH (wt_truncate t (Some f0) (Some (lastRecord stone)))
                 (lastRecord stone) next Hord) as [Hrun Hle]; [lia|].
    cbn [map]. rewrite last_cons. rewrite Hrun.
    split; [|lia].
    apply wt_truncate_join; lia.
Qed.

Lemma stones_ordered_firstn (l : list Stone) :
  forall n, stones_ordered l = true -> stones_ordered (firstn n l) = true.
Proof.
  induction l as [|a l IH]; intros n Hord; [destruct n; reflexivity|].
  destruct n as [|n]; [reflexivity|].
  destruct l as [|b l]; [destruct n; reflexivity|].
  cbn [stones_ordered] in Hord. apply andb_true_iff in Hord.
  destruct Hord as [Hab Hord].
  destruct n as [|n]; [reflexivity|].
  specialize (IH (S n) Hord).
  cbn [firstn] in *. cbn [stones_ordered]. rewrite Hab. exact IH.
Qed.

Lemma Forall_firstn_keep {A} (P : A -> Prop) (l : list A) (n : nat) :
  Forall P l -> Forall P (firstn n l).
Proof.
  intros H. rewrite <- (firstn_skipn n l) in H.
  apply Forall_app in H. tauto.
Qed.

(** X20.  [reclaimOplog], with no write conflict and a truncate that
    succeeds, on stones in order whose first range starts at [firstRecord]:
    it returns once the stones are no more than [numStonesToKeep]; the
    stones popped are the oldest ones, the counters of the stone being
    filled are not touched, [firstRecord] becomes the last record of the
    newest stone popped, and the table has lost exactly the records from the
    old [firstRecord] up to the new one.  Without excess stones nothing
    changes. *)
Theorem reclaimOplog_result (env : Env) (txn : OperationContext)
        (rs : WiredTigerRecordStore) (os : OplogStones) :
  evictionConflict env = false ->
  truncateRet env = 0 ->
  _oplogStones rs = Some os ->
  0 <= _numStonesToKeep os ->
  Forall (fun st => isNormal (lastRecord st) = true) (_stones os) ->
  stones_ordered (_stones os) = true ->
  (forall st, hd_error (_stones os) = Some st -> firstRecord os <= lastRecord st) ->
  exists txn' rs' os',
    reclaimOplog env (txn, rs) = Returns (tt, (txn', rs'))
    /\ _oplogStones rs' = Some os'
    /\ hasExcessStones os' = false
    /\ _stones os' =
       skipn (length (_stones os) - Z.to_nat (_numStonesToKeep os)) (_stones os)
    /\ _currentRecords os' = _currentRecords os
    /\ _currentBytes os' = _currentBytes os
    /\ firstRecord os' =
       last (map lastRecord
                 (firstn (length (_stones os) - Z.to_nat (_numStonesToKeep os))
                         (_stones os)))
            (firstRecord os)
    /\ table rs' =
       (if hasExcessStones os
        then wt_truncate (table rs) (Some (firstRecord os))
                         (Some (firstRecord os'))
        else table rs).
Proof.
  intros Hconflict Htrunc Hos Hkeep Hnormal Hord Hfirst.
  destruct os as [stones cr cb minB keep f0].
  cbn [_stones _numStonesToKeep firstRecord _currentRecords _currentBytes] in *.
  set (k := (length stones - Z.to_nat keep)%nat) in *.
  destruct (reclaimLoop_run env Hconflict Htrunc (length stones) stones txn rs
              cr cb minB keep f0 Hos Hkeep)
    as [txn' [rs' [Hrun [Hstones [Ht _]]]]];
    [lia | apply Forall_firstn_keep; exact Hnormal |].
  fold k in Hstones, Ht.
  exists txn', rs'. eexists. 
  split.
  { unfold reclaimOplog, bind, getRS. cbn [fst snd]. rewrite Hos.
    cbn [_stones]. exact Hrun. }
  split; [exact Hstones|].
  cbn [_stones _numStonesToKeep firstRecord _currentRecords _currentBytes].
  unfold hasExcessStones.
  cbn [_stones _numStonesToKeep firstRecord _currentRecords _currentBytes].
  split.
  { apply Z.ltb_ge. rewrite length_skipn. lia. }
  repeat (split; [reflexivity|]).
  rewrite Ht.
  destruct (keep <? Z.of_nat (length stones)) eqn:Eexcess.
  - apply Z.ltb_lt in Eexcess.
    destruct stones as [|stone rest]; [cbn in Eexcess; lia|].
    assert (Hk : k = S (length rest - Z.to_nat keep))
      by (unfold k; cbn [length] in *; lia).
    rewrite Hk. cbn [firstn map]. rewrite last_cons.
    apply truncatedByStones_ordered.
    + pose proof (stones_ordered_firstn _ k Hord) as H.
      rewrite Hk in H. exact H.
    + apply Hfirst. reflexivity.
  - apply Z.ltb_ge in Eexcess.
    assert (Hk : k = O) by (unfold k; lia).
    rewrite Hk. reflexivity.
Qed.

Lemma reclaimOplog_result_witness :
  let os := mkOplogStones [mkStone 1 3 10; mkStone 1 3 20] 0 0 3 1 RecordId_null in
  let rs := mkRS true true 1000 100 (-1) 0 0 None true [] 20 1 6 2 None 0 false
                 (Some os) (map (fun k => mkRec k abc) [10; 20]) in
  exists txn' rs' os',
    reclaimOplog quietEnv (freshTxn, rs) = Returns (tt, (txn', rs'))
    /\ _oplogStones rs' = Some os'
    /\ hasExcessStones os' = false
    /\ _stones os' = [mkStone 1 3 20]
    /\ _currentRecords os' = 0
    /\ _currentBytes os' = 0
    /\ firstRecord os' = 10
    /\ table rs' =
       (if hasExcessStones os
        then wt_truncate (table rs) (Some (firstRecord os))
                         (Some (firstRecord os'))
        else table rs).
Proof.
  cbv zeta.
  apply (reclaimOplog_result quietEnv freshTxn
           (mkRS true true 1000 100 (-1) 0 0 None true [] 20 1 6 2 None 0 false
                 (Some (mkOplogStones [mkStone 1 3 10; mkStone 1 3 20] 0 0 3 1
                                      RecordId_null))
                 (map (fun k => mkRec k abc) [10; 20]))
           (mkOplogStones [mkStone 1 3 10; mkStone 1 3 20] 0 0 3 1
                          RecordId_null)).
  - reflexivity.
  - reflexivity.
  - reflexivity.
  - cbn. lia.
  - repeat constructor.
  - reflexivity.
  - cbn. intros st H. injection H as <-. cbn. unfold RecordId_null. lia.
Defined.

(** ** Where an oplog read starts *)

Lemma lower_bound_suffix (t : Table) (key : Z) :
  key_ordered t = true ->
  forall i r, (lower_bound t key <= i)%nat -> nth_error t i = Some r ->
              key <= id r.
Proof.
  induction t as [|x t IH]; intros Hord i r Hi Hr; [destruct i; discriminate|].
  cbn [lower_bound] in Hi. destruct (id x <? key) eqn:E.
  - destruct i as [|i]; [lia|].
    apply (IH (key_ordered_tail _ _ Hord) i); [lia | exact Hr].
  - apply Z.ltb_ge in E. destruct i as [|i].
    + injection Hr as <-. exact E.
    + cbn [nth_error] in Hr.
      pose proof (key_ordered_head _ _ Hord r (nth_error_In _ _ Hr)). lia.
Qed.

(** The record just below the lower bound of [key] is the greatest record
    below [key]. *)
Lemma lower_bound_pred (t : Table) (key : Z) (j : nat) :
  key_ordered t = true ->
  lower_bound t key = S j ->
  exists rec,
    nth_error t j = Some rec /\ id rec < key
    /\ forall r, In r t -> id r < key -> id r <= id rec.
Proof.
  intros Hord Hlb.
  destruct (lower_bound_prefix t key j) as [rec [Hrec Hlt]]; [lia|].
  exists rec. split; [exact Hrec|]. split; [exact Hlt|].
  intros r Hin Hr. apply In_nth_error in Hin. destruct Hin as [i Hi].
  destruct (Nat.lt_ge_cases j i) as [Hji|Hij].
  - pose proof (lower_bound_suffix t key Hord i r) as H.
    rewrite Hlb in H. specialize (H Hji Hi). lia.
  - destruct (Nat.eq_dec i j) as [->|Hne].
    + rewrite Hrec in Hi. injection Hi as <-. lia.
    + pose proof (key_ordered_nth t Hord i j r rec Hi Hrec). lia.
Qed.

(** X21.  [oplogStartHack] on a store that extracts oplog keys, table in key
    order: it sets the oplog read-till point as [getCursor] does, leaves the
    store alone and returns the greatest record id that is not above the
    starting position, whichever neighbour the engine's search_near lands
    on, or the null id when every record lies above the starting position.
    On any other store it returns nothing and changes nothing. *)
Theorem oplogStartHack_spec (env : Env) (txn : OperationContext)
        (rs : WiredTigerRecordStore) (startingPosition : RecordId) :
  key_ordered (table rs) = true ->
  (_useOplogHack rs = false ->
   oplogStartHack env startingPosition (txn, rs) = Returns (None, (txn, rs)))
  /\ (_useOplogHack rs = true ->
      exists k,
        oplogStartHack env startingPosition (txn, rs)
        = Returns (Some k, (_oplogSetStartHack rs txn, rs))
        /\ ((k = RecordId_null
             /\ forall r, In r (table rs) -> startingPosition < id r)
            \/ (exists rec, In rec (table rs) /\ id rec = k
                            /\ k <= startingPosition
                            /\ forall r, In r (table rs) ->
                                         id r <= startingPosition ->
                                         id r <= k))).
Proof.
  intros Hord. split; intros Hhack;
    unfold oplogStartHack, bind, getRS, getTxn, putTxn; cbn [fst snd];
    rewrite Hhack; cbn [negb]; [reflexivity|].
  set (sp := startingPosition).
  assert (Habove : forall r, In r (table rs) ->
             (forall x, In x (table rs) -> id x <> sp) ->
             lower_bound (table rs) sp = O -> sp < id r).
  { intros r Hin Hne Hlb. apply In_nth_error in Hin as Hi. destruct Hi as [i Hi].
    pose proof (lower_bound_suffix _ sp Hord i r) as H.
    rewrite Hlb in H. specialize (H (Nat.le_0_l i) Hi).
    specialize (Hne r Hin). lia. }
  assert (Hbelow : forall j,
             (forall x, In x (table rs) -> id x <> sp) ->
             lower_bound (table rs) sp = S j ->
             exists rec,
               nth_error (table rs) j = Some rec
               /\ In rec (table rs) /\ id rec <= sp
               /\ forall r, In r (table rs) -> id r <= sp -> id r <= id rec).
  { intros j Hne Hlb.
    destruct (lower_bound_pred _ sp j Hord Hlb) as [rec [Hrec [Hlt Hmax]]].
    exists rec. split; [exact Hrec|].
    split; [eapply nth_error_In; exact Hrec|]. split; [lia|].
    intros r Hin Hr. apply Hmax; [exact Hin|].
    specialize (Hne r Hin). lia. }
  assert (Hexact : forall r,
             nth_error (table rs) (lower_bound (table rs) sp) = Some r ->
             (id r =? sp) = false ->
             forall x, In x (table rs) -> id x <> sp).
  { intros r Hr Hne x Hx Heq.
    pose proof (lower_bound_found _ _ Hord Hx) as H. rewrite Heq in H.
    rewrite Hr in H. injection H as ->. apply Z.eqb_neq in Hne. congruence. }
  unfold wt_search_near. fold sp.
  destruct (nth_error (table rs) (lower_bound (table rs) sp)) as [r|] eqn:Enth.
  - destruct (id r =? sp) eqn:Eeq.
    + change ((0 =? 0) && (0 <? 0)) with false. cbv iota.
      change (0 =? WT_NOTFOUND) with false. cbv iota.
      unfold invariantWTOK, invariant. change (0 =? 0) with true.
      unfold ret. cbn [wt_get]. rewrite Enth.
      apply Z.eqb_eq in Eeq.
      exists (id r). split; [reflexivity|]. right. exists r.
      split; [eapply nth_error_In; exact Enth|].
      split; [reflexivity|]. split; lia.
    + pose proof (Hexact r eq_refl Eeq) as Hne.
      destruct (lower_bound (table rs) sp) as [|j] eqn:Elb.
      * change ((0 =? 0) && (0 <? 1)) with true. cbv iota. cbn [wt_prev].
        rewrite Z.eqb_refl. unfold ret.
        exists RecordId_null. split; [reflexivity|]. left.
        split; [reflexivity|]. intros x Hx. apply Habove; auto.
      * destruct (Hbelow j Hne eq_refl) as [rec [Hrec [Hin [Hle Hmax]]]].
        exists (id rec).
        split; [|right; exists rec; auto].
        destruct (landAfter env).
        -- change ((0 =? 0) && (0 <? 1)) with true. cbv iota. cbn [wt_prev].
           change (0 =? WT_NOTFOUND) with false. cbv iota.
           unfold invariantWTOK, invariant. change (0 =? 0) with true.
           unfold ret. cbn [wt_get]. rewrite Hrec. reflexivity.
        -- change ((0 =? 0) && (0 <? -1)) with false. cbv iota.
           change (0 =? WT_NOTFOUND) with false. cbv iota.
           unfold invariantWTOK, invariant. change (0 =? 0) with true.
           unfold ret. cbn [wt_get]. rewrite Hrec. reflexivity.
  - assert (Hne : forall x, In x (table rs) -> id x <> sp).
    { intros x Hx Heq.
      pose proof (lower_bound_found _ _ Hord Hx) as H. rewrite Heq in H.
      fold sp in H. congruence. }
    destruct (lower_bound (table rs) sp) as [|j] eqn:Elb.
    + change ((WT_NOTFOUND =? 0) && (0 <? 0)) with false. cbv iota.
      rewrite Z.eqb_refl. unfold ret.
      exists RecordId_null. split; [reflexivity|]. left.
      split; [reflexivity|]. intros x Hx. apply Habove; auto.
    + destruct (Hbelow j Hne eq_refl) as [rec [Hrec [Hin [Hle Hmax]]]].
      exists (id rec).
      split; [|right; exists rec; auto].
      change ((0 =? 0) && (0 <? -1)) with false. cbv iota.
      change (0 =? WT_NOTFOUND) with false. cbv iota.
      unfold invariantWTOK, invariant. change (0 =? 0) with true.
      unfold ret. cbn [wt_get]. rewrite Hrec. reflexivity.
Qed.

Lemma oplogStartHack_spec_witness :
  (_useOplogHack oplogStore = false ->
   oplogStartHack quietEnv 15 (freshTxn, oplogStore)
   = Returns (None, (freshTxn, oplogStore)))
  /\ (_useOplogHack oplogStore = true ->
      exists k,
        oplogStartHack quietEnv 15 (freshTxn, oplogStore)
        = Returns (Some k, (_oplogSetStartHack oplogStore freshTxn, oplogStore))
        /\ ((k = RecordId_null
             /\ forall r, In r (table oplogStore) -> 15 < id r)
            \/ (exists rec, In rec (table oplogStore) /\ id rec = k
                            /\ k <= 15
                            /\ forall r, In r (table oplogStore) ->
                                         id r <= 15 -> id r <= k))).
Proof.
  apply (oplogStartHack_spec quietEnv freshTxn oplogStore 15).
  reflexivity.
Defined.

(** ** Truncating a capped collection after a record *)

(** [next] on a forward cursor that stands on the record of index [j]. *)
Lemma Cursor_next_forward_At (env : Env) (rs : WiredTigerRecordStore)
      (j : nat) (last p : RecordId) :
  Cursor_next env rs (mkCursor true (Some (At j)) false last p) =
  match nth_error (table rs) (S j) with
  | Some rec =>
      if isVisible rs (mkCursor true (Some (At j)) false last p) (id rec)
      then Returns (Some rec, mkCursor true (Some (At (S j))) false (id rec) p)
      else Returns (None, mkCursor true (Some (At (S j))) true last p)
  | None => Returns (None, mkCursor true (Some Unpositioned) true last p)
  end.
Proof.
  unfold Cursor_next.
  cbn [_eof _cursor _forward _lastReturnedId _readUntilForOplog].
  rewrite andb_false_r. cbn [andb negb wt_next].
  destruct (S j <? length (table rs))%nat eqn:E.
  - apply Nat.ltb_lt in E.
    change (0 =? WT_NOTFOUND) with false. change (0 =? 0) with true.
    cbn [negb wt_get].
    destruct (nth_error (table rs) (S j)) as [rec|] eqn:Ej;
      [|apply nth_error_None in Ej; lia].
    destruct (isVisible rs _ (id rec)); reflexivity.
  - apply Nat.ltb_ge in E. rewrite Z.eqb_refl.
    apply nth_error_None in E. rewrite E. reflexivity.
Qed.

(** The counting loop of [temp_cappedTruncateAfter] when the cursor may see
    every record and the delete callback, if any, agrees: it counts the
    records from the cursor's to the end of the table. *)
Lemma truncateAfterCount_run (env : Env) (rs : WiredTigerRecordStore)
      (p : RecordId) :
  (forall x last c, In x (table rs) ->
     isVisible rs (mkCursor true c false last p) (id x) = true) ->
  (forall cb x, _cappedDeleteCallback rs = Some cb -> In x (table rs) ->
                cb (id x) (data x) = Status_OK) ->
  forall (fuel j : nat) (record : Rec) (last : RecordId) (n b : Z),
    nth_error (table rs) j = Some record ->
    (length (table rs) - j <= S fuel)%nat ->
    truncateAfterCount env fuel rs (mkCursor true (Some (At j)) false last p)
                       record n b
    = Returns (n + Z.of_nat (length (table rs) - j),
               b + totalSize (skipn j (table rs))).
Proof.
  intros Hvis Hcb.
  induction fuel as [|fuel IH]; intros j record last n b Hj Hfuel;
    assert (Hlt : (j < length (table rs))%nat)
      by (apply nth_error_Some; congruence);
    assert (Hok : match _cappedDeleteCallback rs with
                  | Some aboutToDeleteCapped =>
                      aboutToDeleteCapped (id record) (data record)
                  | None => Status_OK
                  end = Status_OK)
      by (destruct (_cappedDeleteCallback rs) as [cb|] eqn:Ecb;
          [apply Hcb; [reflexivity | eapply nth_error_In; exact Hj]
          |reflexivity]);
    cbn [truncateAfterCount]; rewrite Hok;
    rewrite Cursor_next_forward_At;
    rewrite (skipn_nth_cons _ _ _ Hj);
    unfold totalSize; cbn [fold_right]; fold (totalSize (skipn (S j) (table rs))).
  - destruct (nth_error (table rs) (S j)) as [rec|] eqn:Enext;
      [assert (S j < length (table rs))%nat
         by (apply nth_error_Some; congruence); lia|].
    apply nth_error_None in Enext.
    rewrite skipn_all2 by lia.
    replace (length (table rs) - j)%nat with 1%nat by lia.
    unfold totalSize. cbn [fold_right]. f_equal. f_equal; lia.
  - destruct (nth_error (table rs) (S j)) as [rec|] eqn:Enext.
    + rewrite Hvis by (eapply nth_error_In; exact Enext).
      rewrite (IH (S j) rec (id rec)); [|exact Enext | lia].
      assert (S j < length (table rs))%nat
        by (apply nth_error_Some; congruence).
      f_equal. f_equal; lia.
    + apply nth_error_None in Enext.
      rewrite skipn_all2 by lia.
      replace (length (table rs) - j)%nat with 1%nat by lia.
      unfold totalSize. cbn [fold_right]. f_equal. f_equal; lia.
Qed.

Lemma key_ordered_split (t : Table) (d : nat) (first : Rec) :
  key_ordered t = true -> nth_error t d = Some first ->
  (forall x, In x (firstn d t) -> id x < id first)
  /\ (forall x, In x (skipn d t) -> id first <= id x).
Proof.
  intros Hord Hd. split; intros x Hx.
  - apply In_nth_error in Hx. destruct Hx as [i Hi].
    rewrite nth_error_firstn in Hi.
    destruct (i <? d)%nat eqn:E; [|discriminate].
    apply Nat.ltb_lt in E.
    exact (key_ordered_nth t Hord i d x first Hi Hd E).
  - apply In_nth_error in Hx. destruct Hx as [i Hi].
    rewrite nth_error_skipn in Hi.
    destruct i as [|i].
    + rewrite Nat.add_0_r, Hd in Hi. injection Hi as <-. lia.
    + pose proof (key_ordered_nth t Hord d (d + S i) first x Hd Hi). lia.
Qed.

(** The second half of [temp_cappedTruncateAfter]: the table is cut at the
    first removed record, the counters are charged and the stones, if any,
    brought in line. *)
Lemma truncateAfter_tail (txn : OperationContext) (rs : WiredTigerRecordStore)
      (d : nat) (first : Rec) (n b : Z) :
  key_ordered (table rs) = true ->
  nth_error (table rs) d = Some first ->
  exists txn' rs',
    (modifyRS (set_table (wt_truncate (table rs) (Some (id first)) None)) ;;
     _changeNumRecords (- n) ;;
     _increaseDataSize true (- b) ;;
     match _oplogStones rs with
     | None => ret tt
     | Some os =>
         modifyRS (set_oplogStones
                     (Some (updateStonesAfterCappedTruncateAfter n b (id first) os)))
     end)%M (txn, rs)
    = Returns (tt, (txn', rs'))
    /\ table rs' = firstn d (table rs)
    /\ changes txn' = changes txn ++ [NumRecordsChange (- n); DataSizeChange (- b)]
    /\ _oplogStones rs' =
       option_map (updateStonesAfterCappedTruncateAfter n b (id first))
                  (_oplogStones rs).
Proof.
  intros Hord Hd.
  rewrite (wt_truncate_suffix _ Hord d first Hd).
  unfold bind at 1. unfold modifyRS at 1. cbn [fst snd].
  unfold bind at 1. rewrite _changeNumRecords_run.
  unfold bind at 1.
  match goal with
  | |- context [_increaseDataSize true ?a (?t, ?s)] =>
      destruct (_increaseDataSize_run true a t s)
        as [rs2 [Hrun [_ [Htable [_ Hsetup]]]]]
  end.
  rewrite Hrun.
  assert (Ht2 : table rs2 = firstn d (table rs))
    by (rewrite Htable; destruct rs; reflexivity).
  assert (Hs2 : _oplogStones rs2 = _oplogStones rs).
  { destruct Hsetup as [_ [_ [_ [_ [_ [_ [_ [_ [_ [_ [_ H]]]]]]]]]]].
    rewrite H. destruct rs; reflexivity. }
  assert (Hch : forall l, (changes txn ++ [NumRecordsChange (- n)]) ++ l
                          = changes txn ++ NumRecordsChange (- n) :: l)
    by (intros l; rewrite <- app_assoc; reflexivity).
  destruct (_oplogStones rs) as [os|].
  - unfold modifyRS. cbn [fst snd]. do 2 eexists.
    split; [reflexivity|]. split; [|split].
    + destruct rs2; exact Ht2.
    + unfold addChange. cbn [changes]. apply Hch.
    + destruct rs2; reflexivity.
  - unfold ret. do 2 eexists. split; [reflexivity|]. split; [exact Ht2|].
    split; [|exact Hs2].
    unfold addChange. cbn [changes]. apply Hch.
Qed.

(** X22.  [temp_cappedTruncateAfter] at a record that exists, for an
    operation that may see every record, with a delete callback (if any)
    that agrees and an engine truncate that succeeds, table in key order:
    the call returns and the table keeps
    exactly the records below the end record (and the end record itself
    when it is not included).  When something is removed, the changes
    registered carry minus the number and minus the total size of the
    removed records, and the stones, if any, are updated with those numbers
    and the id of the first removed record; when nothing is removed,
    nothing changes. *)
Theorem temp_cappedTruncateAfter_result (env : Env) (txn : OperationContext)
        (rs : WiredTigerRecordStore) (r : Rec) (inclusive : bool) :
  key_ordered (table rs) = true ->
  In r (table rs) ->
  (forall x, In x (table rs) ->
     isVisible rs (Cursor_new txn true) (id x) = true) ->
  (forall cb x, _cappedDeleteCallback rs = Some cb -> In x (table rs) ->
                cb (id x) (data x) = Status_OK) ->
  truncateRet env = 0 ->
  exists txn' rs' removed,
    temp_cappedTruncateAfter env (id r) inclusive (txn, rs)
    = Returns (tt, (txn', rs'))
    /\ table rs = table rs' ++ removed
    /\ (forall x, In x (table rs') ->
          if inclusive then id x < id r else id x <= id r)
    /\ (forall x, In x removed ->
          if inclusive then id r <= id x else id r < id x)
    /\ match removed with
       | [] => txn' = txn /\ rs' = rs
       | first :: _ =>
           changes txn' =
           changes txn ++ [NumRecordsChange (- Z.of_nat (length removed));
                           DataSizeChange (- totalSize removed)]
           /\ _oplogStones rs' =
              option_map (updateStonesAfterCappedTruncateAfter
                            (Z.of_nat (length removed)) (totalSize removed)
                            (id first))
                         (_oplogStones rs)
       end.
Proof.
  intros Hord Hin Hvis Hcb Htrunc.
  destruct (wt_search_found _ _ Hord Hin) as [i [Hs Hi]].
  assert (Hseek : Cursor_seekExact rs (Cursor_new txn true) (id r)
                  = Returns (Some r, mkCursor true (Some (At i)) false (id r)
                                              (oplogReadTill txn))).
  { unfold Cursor_seekExact, Cursor_new.
    cbn [_cursor _forward _readUntilForOplog]. rewrite Hs.
    change (0 =? WT_NOTFOUND) with false. change (0 =? 0) with true.
    cbn [negb wt_get]. rewrite Hi. destruct r; reflexivity. }
  assert (Hvis' : forall x last c, In x (table rs) ->
             isVisible rs (mkCursor true c false last (oplogReadTill txn)) (id x)
             = true).
  { intros x last c Hx.
    rewrite (isVisible_readUntil rs (Cursor_new txn true)) by reflexivity.
    apply Hvis. exact Hx. }
  pose proof (truncateAfterCount_run env rs (oplogReadTill txn) Hvis' Hcb)
    as Hcount.
  assert (Hili : (i < length (table rs))%nat)
    by (apply nth_error_Some; congruence).
  unfold temp_cappedTruncateAfter.
  unfold bind at 1. unfold getTxn at 1. cbn [fst snd].
  unfold bind at 1. unfold getRS at 1. cbn [fst snd].
  rewrite Hseek.
  destruct inclusive.
  - rewrite (Hcount (S (length (table rs))) i r (id r) 0 0 Hi) by lia.
    unfold bind at 1. unfold invariantWTOK, invariant. rewrite Htrunc.
    cbn [Z.eqb]. unfold ret at 1.
    destruct (truncateAfter_tail txn rs i r
                (0 + Z.of_nat (length (table rs) - i))
                (0 + totalSize (skipn i (table rs))) Hord Hi)
      as [txn' [rs' [Hrun [Ht [Hch Hst]]]]].
    rewrite Hrun. exists txn', rs', (skipn i (table rs)).
    destruct (key_ordered_split _ _ _ Hord Hi) as [Hlow Hhigh].
    split; [reflexivity|].
    split; [rewrite Ht; symmetry; apply firstn_skipn|].
    split; [rewrite Ht; exact Hlow|]. split; [exact Hhigh|].
    rewrite (skipn_nth_cons _ _ _ Hi) in *.
    rewrite Hch, Hst.
    assert (Hlen : Z.of_nat (length (r :: skipn (S i) (table rs)))
                   = 0 + Z.of_nat (length (table rs) - i)).
    { rewrite <- (skipn_nth_cons _ _ _ Hi), length_skipn. lia. }
    rewrite Hlen, !Z.add_0_l. split; reflexivity.
  - rewrite Cursor_next_forward_At.
    destruct (nth_error (table rs) (S i)) as [rec|] eqn:Enext.
    + rewrite Hvis' by (eapply nth_error_In; exact Enext).
      rewrite (Hcount (S (length (table rs))) (S i) rec (id rec) 0 0 Enext)
        by lia.
      unfold bind at 1. unfold invariantWTOK, invariant. rewrite Htrunc.
      cbn [Z.eqb]. unfold ret at 1.
      destruct (truncateAfter_tail txn rs (S i) rec
                  (0 + Z.of_nat (length (table rs) - S i))
                  (0 + totalSize (skipn (S i) (table rs))) Hord Enext)
        as [txn' [rs' [Hrun [Ht [Hch Hst]]]]].
      rewrite Hrun. exists txn', rs', (skipn (S i) (table rs)).
      destruct (key_ordered_split _ _ _ Hord Enext) as [Hlow Hhigh].
      pose proof (key_ordered_nth _ Hord i (S i) r rec Hi Enext) as Hstep.
      split; [reflexivity|].
      split; [rewrite Ht; symmetry; apply firstn_skipn|].
      split; [|split].
      * rewrite Ht. intros x Hx.
        rewrite (firstn_S_nth _ _ _ Hi) in Hx. apply in_app_or in Hx.
        destruct (key_ordered_split _ _ _ Hord Hi) as [Hlow' _].
        destruct Hx as [Hx|[<-|[]]]; [specialize (Hlow' x Hx)|]; lia.
      * intros x Hx. specialize (Hhigh x Hx). lia.
      * rewrite (skipn_nth_cons _ _ _ Enext) in *.
        rewrite Hch, Hst.
        assert (Hlen : Z.of_nat (length (rec :: skipn (S (S i)) (table rs)))
                       = 0 + Z.of_nat (length (table rs) - S i)).
        { rewrite <- (skipn_nth_cons _ _ _ Enext), length_skipn. lia. }
        rewrite Hlen, !Z.add_0_l. split; reflexivity.
    + apply nth_error_None in Enext.
      exists txn, rs, []. split; [reflexivity|].
      split; [rewrite app_nil_r; reflexivity|].
      split; [|split; [intros x []|auto]].
      intros x Hx. apply In_nth_error in Hx. destruct Hx as [j Hj].
      assert (j < length (table rs))%nat by (apply nth_error_Some; congruence).
      destruct (Nat.eq_dec j i) as [->|Hne].
      * rewrite Hi in Hj. injection Hj as <-. lia.
      * pose proof (key_ordered_nth _ Hord j i x r Hj Hi). lia.
Qed.

Lemma temp_cappedTruncateAfter_result_witness :
  exists txn' rs' removed,
    temp_cappedTruncateAfter quietEnv 20 false (freshTxn, plainStore)
    = Returns (tt, (txn', rs'))
    /\ table plainStore = table rs' ++ removed
    /\ (forall x, In x (table rs') -> id x <= 20)
    /\ (forall x, In x removed -> 20 < id x)
    /\ match removed with
       | [] => txn' = freshTxn /\ rs' = plainStore
       | first :: _ =>
           changes txn' =
           changes freshTxn ++ [NumRecordsChange (- Z.of_nat (length removed));
                                DataSizeChange (- totalSize removed)]
           /\ _oplogStones rs' =
              option_map (updateStonesAfterCappedTruncateAfter
                            (Z.of_nat (length removed)) (totalSize removed)
                            (id first))
                         (_oplogStones plainStore)
       end.
Proof.
  apply (temp_cappedTruncateAfter_result quietEnv freshTxn plainStore
           (mkRec 20 abc) false).
  - reflexivity.
  - simpl. auto.
  - intros x _. reflexivity.
  - intros cb x H. discriminate.
  - reflexivity.
Defined.



(** ** Placing the stones by scanning *)

(** [next] on a forward cursor that has read [k] records. *)
Lemma Cursor_next_cursorAfter (env : Env) (rs : WiredTigerRecordStore)
      (k : nat) (last p : RecordId) :
  (k <= length (table rs))%nat ->
  Cursor_next env rs (mkCursor true (Some (cursorAfter k)) false last p) =
  match nth_error (table rs) k with
  | Some rec =>
      if isVisible rs (mkCursor true (Some (cursorAfter k)) false last p) (id rec)
      then Returns (Some rec, mkCursor true (Some (At k)) false (id rec) p)
      else Returns (None, mkCursor true (Some (At k)) true last p)
  | None => Returns (None, mkCursor true (Some Unpositioned) true last p)
  end.
Proof.
  intros Hk. unfold Cursor_next.
  cbn [_eof _cursor _forward _lastReturnedId _readUntilForOplog].
  rewrite andb_false_r. cbn [andb negb].
  rewrite (wt_next_cursorAfter _ _ Hk).
  destruct (k <? length (table rs))%nat eqn:E.
  - apply Nat.ltb_lt in E.
    change (0 =? WT_NOTFOUND) with false. change (0 =? 0) with true.
    cbn [negb wt_get].
    destruct (nth_error (table rs) k) as [rec|] eqn:Ek;
      [|apply nth_error_None in Ek; lia].
    destruct (isVisible rs _ (id rec)); reflexivity.
  - apply Nat.ltb_ge in E. rewrite Z.eqb_refl.
    apply nth_error_None in E. rewrite E. reflexivity.
Qed.

(** The scanning loop: what it tallies and what becomes of the stones. *)
Lemma scanStones_run (env : Env) (rs : WiredTigerRecordStore) (cur0 : Cursor)
      (minB keep : Z) (f0 : RecordId) :
  0 < minB ->
  forall (fuel k : nat) (stones : list Stone) (cr cb n d : Z) (last : RecordId),
    (k <= length (table rs))%nat ->
    (length (table rs) - k <= fuel)%nat ->
    0 <= cr -> 0 <= cb < minB ->
    cr + Z.of_nat (length (takeVisible rs cur0 (skipn k (table rs)))) < 2 ^ 63 ->
    cb + totalSize (takeVisible rs cur0 (skipn k (table rs))) < 2 ^ 63 ->
    exists stones' cr' cb' new,
      scanStones env fuel rs
                 (mkCursor true (Some (cursorAfter k)) false last
                           (_readUntilForOplog cur0))
                 (mkOplogStones stones cr cb minB keep f0) n d
      = Returns (mkOplogStones stones' cr' cb' minB keep f0,
                 n + Z.of_nat (length (takeVisible rs cur0 (skipn k (table rs)))),
                 d + totalSize (takeVisible rs cur0 (skipn k (table rs))))
      /\ stones' = stones ++ new
      /\ fold_right (fun st acc => records st + acc) 0 new + cr'
         = cr + Z.of_nat (length (takeVisible rs cur0 (skipn k (table rs))))
      /\ fold_right (fun st acc => bytes st + acc) 0 new + cb'
         = cb + totalSize (takeVisible rs cur0 (skipn k (table rs)))
      /\ 0 <= cr' /\ 0 <= cb' < minB
      /\ Forall (fun st => minB <= bytes st) new.
Proof.
  intros HminB.
  assert (Hstop : forall stones cr cb n d,
             exists stones' cr' cb' new,
               Returns (mkOplogStones stones cr cb minB keep f0, n, d)
               = Returns (mkOplogStones stones' cr' cb' minB keep f0,
                          n + Z.of_nat (@length Rec []), d + totalSize [])
               /\ stones' = stones ++ new
               /\ fold_right (fun st acc => records st + acc) 0 new + cr'
                  = cr + Z.of_nat (@length Rec [])
               /\ fold_right (fun st acc => bytes st + acc) 0 new + cb'
                  = cb + totalSize []
               /\ (0 <= cr -> 0 <= cr')
               /\ (0 <= cb < minB -> 0 <= cb' < minB)
               /\ Forall (fun st => minB <= bytes st) new).
  { intros stones cr cb n d. exists stones, cr, cb, [].
    cbn. rewrite !Z.add_0_r, app_nil_r. repeat split; auto; lia. }
  induction fuel as [|fuel IH];
    intros k stones cr cb n d last Hk Hfuel Hcr Hcb Hrec Hbytes;
    cbn [scanStones]; rewrite (Cursor_next_cursorAfter env rs k _ _ Hk).
  - assert (Hend : nth_error (table rs) k = None)
      by (apply nth_error_None; lia).
    rewrite Hend. rewrite skipn_all2 by lia. cbn [takeVisible].
    destruct (Hstop stones cr cb n d) as [s' [cr' [cb' [new H]]]].
    exists s', cr', cb', new. intuition.
  - destruct (nth_error (table rs) k) as [rec|] eqn:Ek.
    + rewrite (skipn_nth_cons _ _ _ Ek) in *. cbn [takeVisible] in *.
      rewrite (isVisible_readUntil rs cur0) by reflexivity.
      destruct (isVisible rs cur0 (id rec)) eqn:Evis.
      * cbn [length] in Hrec.
        unfold totalSize in Hbytes. cbn [fold_right] in Hbytes.
        fold (totalSize (takeVisible rs cur0 (skipn (S k) (table rs)))) in Hbytes.
        pose proof (totalSize_nonneg
                      (takeVisible rs cur0 (skipn (S k) (table rs)))) as Hpos.
        assert (Hsize : 0 <= size (data rec)) by (unfold size; lia).
        assert (Hlt : (k < length (table rs))%nat)
          by (apply nth_error_Some; congruence).
        unfold addAndFetch.
        cbn [fst _currentRecords _currentBytes _minBytesPerStone _stones
             _numStonesToKeep firstRecord].
        rewrite !wrap64_small by lia.
        change (At k) with (cursorAfter (S k)).
        destruct (minB <=? cb + size (data rec)) eqn:Efull.
        -- apply Z.leb_le in Efull.
           destruct (IH (S k)
                        (stones ++ [mkStone (cr + 1) (cb + size (data rec)) (id rec)])
                        0 0 (n + 1) (d + size (data rec)) (id rec))
             as [s' [cr' [cb' [new [Hrun [Hs [Hr [Hb [Hcr' [Hcb' Hnew]]]]]]]]]];
             try lia.
           exists s', cr', cb',
             (mkStone (cr + 1) (cb + size (data rec)) (id rec) :: new).
           split.
           { rewrite Hrun. cbn [length]. unfold totalSize. cbn [fold_right].
             f_equal. f_equal; [f_equal|]; lia. }
           split; [rewrite Hs, <- app_assoc; reflexivity|].
           cbn [fold_right records bytes length].
           unfold totalSize. cbn [fold_right].
           fold (totalSize (takeVisible rs cur0 (skipn (S k) (table rs)))).
           split; [lia|]. split; [lia|]. split; [exact Hcr'|].
           split; [exact Hcb'|]. constructor; [exact Efull | exact Hnew].
        -- apply Z.leb_gt in Efull.
           destruct (IH (S k) stones (cr + 1) (cb + size (data rec)) (n + 1)
                        (d + size (data rec)) (id rec))
             as [s' [cr' [cb' [new [Hrun [Hs [Hr [Hb [Hcr' [Hcb' Hnew]]]]]]]]]];
             try lia.
           exists s', cr', cb', new.
           split.
           { rewrite Hrun. cbn [length]. unfold totalSize. cbn [fold_right].
             f_equal. f_equal; [f_equal|]; lia. }
           split; [exact Hs|].
           cbn [length]. unfold totalSize. cbn [fold_right].
           fold (totalSize (takeVisible rs cur0 (skipn (S k) (table rs)))).
           split; [lia|]. split; [lia|]. auto.
      * destruct (Hstop stones cr cb n d) as [s' [cr' [cb' [new H]]]].
        exists s', cr', cb', new. intuition.
    + assert (Hall : (length (table rs) <= k)%nat)
        by (apply nth_error_None; exact Ek).
      rewrite skipn_all2 by lia. cbn [takeVisible].
      destruct (Hstop stones cr cb n d) as [s' [cr' [cb' [new H]]]].
      exists s', cr', cb', new. intuition.
Qed.

Lemma getCursor_forward (txn : OperationContext) (rs : WiredTigerRecordStore) :
  exists txn1,
    getCursor true (txn, rs) = Returns (Cursor_new txn1 true, (txn1, rs))
    /\ changes txn1 = changes txn.
Proof.
  unfold getCursor, bind, getRS, getTxn, putTxn, ret. cbn [fst snd].
  destruct (_isOplog rs && true); [|eexists; split; reflexivity].
  destruct (negb (inActiveTxn txn) || isNull (oplogReadTill txn));
    cbn [fst snd]; eexists; split; reflexivity.
Qed.

(** X24.  Placing the stones by scanning, from stones that are empty: the
    scan reads what a forward cursor of the operation can reach; afterwards
    the stones and the stone being filled account for exactly the records
    and bytes scanned, every stone placed carries at least
    [minBytesPerStone] bytes, the stone being filled carries less, and the
    record count and data size of the store are set to the tallies of the
    scan.  The table is not touched. *)
Theorem _calculateStonesByScanning_accounts (env : Env) (txn : OperationContext)
        (rs : WiredTigerRecordStore) (minB keep : Z) (f0 : RecordId) :
  0 < minB ->
  Z.of_nat (length (table rs)) < 2 ^ 63 ->
  totalSize (table rs) < 2 ^ 63 ->
  exists cur txn1 os' rs',
    getCursor true (txn, rs) = Returns (cur, (txn1, rs))
    /\ _calculateStonesByScanning env (mkOplogStones [] 0 0 minB keep f0) (txn, rs)
       = Returns (os', (txn1, rs'))
    /\ stonesRecords os' = Z.of_nat (length (takeVisible rs cur (table rs)))
    /\ stonesBytes os' = totalSize (takeVisible rs cur (table rs))
    /\ Forall (fun st => minB <= bytes st) (_stones os')
    /\ 0 <= _currentBytes os' < minB
    /\ _minBytesPerStone os' = minB
    /\ _numStonesToKeep os' = keep
    /\ _numRecords rs' = Z.of_nat (length (takeVisible rs cur (table rs)))
    /\ _dataSize rs' = totalSize (takeVisible rs cur (table rs))
    /\ table rs' = table rs.
Proof.
  intros HminB Hlen Htotal.
  destruct (getCursor_forward txn rs) as [txn1 [Hcur _]].
  exists (Cursor_new txn1 true), txn1.
  set (cur := Cursor_new txn1 true) in *.
  pose proof (takeVisible_length rs cur (table rs)) as Hvl.
  assert (Hvt : totalSize (takeVisible rs cur (table rs)) <= totalSize (table rs)).
  { rewrite takeVisible_firstn. apply totalSize_firstn_le. }
  destruct (scanStones_run env rs cur minB keep f0 HminB
              (S (length (table rs))) O [] 0 0 0 0 RecordId_null)
    as [s' [cr' [cb' [new [Hrun [Hs [Hr [Hb [Hcr' [Hcb' Hnew]]]]]]]]]];
    cbn [skipn]; try lia.
  cbn [skipn] in *.
  unfold _calculateStonesByScanning. unfold bind at 1. rewrite Hcur.
  unfold bind at 1. unfold getRS at 1. cbn [fst snd].
  change (mkCursor true (Some (cursorAfter 0)) false RecordId_null
                   (_readUntilForOplog cur)) with cur in Hrun.
  rewrite Hrun.
  unfold updateStatsAfterRepair, bind, modifyRS, getRS, ret. cbn [fst snd].
  rewrite !Z.add_0_l in *. cbn [app] in Hs. subst s'.
  assert (Hfinal : forall rs',
             _numRecords rs' = Z.of_nat (length (takeVisible rs cur (table rs))) ->
             _dataSize rs' = totalSize (takeVisible rs cur (table rs)) ->
             table rs' = table rs ->
             stonesRecords (mkOplogStones new cr' cb' minB keep f0)
             = Z.of_nat (length (takeVisible rs cur (table rs)))
             /\ stonesBytes (mkOplogStones new cr' cb' minB keep f0)
                = totalSize (takeVisible rs cur (table rs))
             /\ Forall (fun st => minB <= bytes st)
                       (_stones (mkOplogStones new cr' cb' minB keep f0))
             /\ 0 <= _currentBytes (mkOplogStones new cr' cb' minB keep f0) < minB
             /\ _minBytesPerStone (mkOplogStones new cr' cb' minB keep f0) = minB
             /\ _numStonesToKeep (mkOplogStones new cr' cb' minB keep f0) = keep
             /\ _numRecords rs' = Z.of_nat (length (takeVisible rs cur (table rs)))
             /\ _dataSize rs' = totalSize (takeVisible rs cur (table rs))
             /\ table rs' = table rs).
  { intros rs' H1 H2 H3. unfold stonesRecords, stonesBytes.
    cbn [_stones _currentRecords _currentBytes _minBytesPerStone
         _numStonesToKeep].
    repeat split; auto; lia. }
  destruct rs. cbn [_sizeStorer set_dataSize set_numRecords] in *.
  destruct _sizeStorer0; do 2 eexists; (split; [reflexivity|]);
    (split; [reflexivity|]); apply Hfinal; reflexivity.
Qed.

Lemma _calculateStonesByScanning_accounts_witness :
  exists cur txn1 os' rs',
    getCursor true (freshTxn, oplogStore) = Returns (cur, (txn1, oplogStore))
    /\ _calculateStonesByScanning quietEnv
         (mkOplogStones [] 0 0 3 10 RecordId_null) (freshTxn, oplogStore)
       = Returns (os', (txn1, rs'))
    /\ stonesRecords os'
       = Z.of_nat (length (takeVisible oplogStore cur (table oplogStore)))
    /\ stonesBytes os' = totalSize (takeVisible oplogStore cur (table oplogStore))
    /\ Forall (fun st => 3 <= bytes st) (_stones os')
    /\ 0 <= _currentBytes os' < 3
    /\ _minBytesPerStone os' = 3
    /\ _numStonesToKeep os' = 10
    /\ _numRecords rs'
       = Z.of_nat (length (takeVisible oplogStore cur (table oplogStore)))
    /\ _dataSize rs' = totalSize (takeVisible oplogStore cur (table oplogStore))
    /\ table rs' = table oplogStore.
Proof.
  apply (_calculateStonesByScanning_accounts quietEnv freshTxn oplogStore 3 10
           RecordId_null).
  - lia.
  - vm_compute. reflexivity.
  - vm_compute. reflexivity.
Defined.

(** ** Insert, then delete *)

Lemma wt_remove_insert (t : Table) (key : Z) (value : RecordData) :
  (forall r, In r t -> id r <> key) ->
  wt_remove (wt_insert t key value) key = t.
Proof.
  unfold wt_remove.
  induction t as [|x t IH]; intros Hfresh.
  - cbn. rewrite Z.eqb_refl. reflexivity.
  - assert (Hx : (id x =? key) = false)
      by (apply Z.eqb_neq; apply Hfresh; left; reflexivity).
    assert (Hrest : forall r, In r t -> id r <> key)
      by (intros r Hr; apply Hfresh; right; exact Hr).
    cbn [wt_insert]. destruct (id x <? key).
    + cbn [filter]. rewrite Hx. cbn [negb]. f_equal. exact (IH Hrest).
    + rewrite Hx. cbn [filter id]. rewrite Z.eqb_refl, Hx. cbn [negb].
      f_equal. apply filter_all. intros r Hr.
      apply negb_true_iff, Z.eqb_neq. exact (Hrest r Hr).
Qed.

(** X25.  Insert, then delete, on a collection that is not capped: when the
    id the insert returns is new to the table, deleting it returns and the
    table is the one before the insert; counters that were in range and not
    negative are back at their values, and the four changes registered
    cancel in pairs. *)
Theorem insert_then_delete (env : Env) (value : RecordData)
        (txn txn1 : OperationContext) (rs rs1 : WiredTigerRecordStore)
        (loc : RecordId) :
  _isCapped rs = false ->
  _oplogStones rs = None ->
  key_ordered (table rs) = true ->
  (forall r, In r (table rs) -> id r <> loc) ->
  0 <= _numRecords rs < 2 ^ 63 - 1 ->
  0 <= _dataSize rs -> _dataSize rs + size value < 2 ^ 63 ->
  insertRecord env value (txn, rs) = Returns (SW_value loc, (txn1, rs1)) ->
  exists txn2 rs2,
    deleteRecord loc (txn1, rs1) = Returns (tt, (txn2, rs2))
    /\ table rs2 = table rs
    /\ _numRecords rs2 = _numRecords rs
    /\ _dataSize rs2 = _dataSize rs
    /\ changes txn2 =
       changes txn ++ [NumRecordsChange 1; DataSizeChange (size value);
                       NumRecordsChange (-1); DataSizeChange (- size value)].
Proof.
  intros Hcapped Hstones Hord Hfresh Hnum Hds Hfit Hrun.
  assert (Hlen : 0 <= size value) by (unfold size; lia).
  destruct (insertRecord_value _ _ _ _ _ _ _ Hrun)
    as [txn0 [rs0 [rs1' [Hid [Ht1 [Hn1 [Hd1 [Hsetup Hlast]]]]]]]].
  destruct (idChosen_frame _ _ _ _ _ _ _ Hid)
    as [Ht0 [Hn0 [Hd0 [Hst0 [Hc0 _]]]]].
  assert (Htxn0 : txn0 = txn).
  { revert Hid. unfold idChosen. rewrite Hcapped.
    destruct (_useOplogHack rs); tauto. }
  subst txn0. rewrite Hst0, Hstones in Hlast. destruct Hlast as [n Hcap].
  assert (Hc1 : _isCapped rs1' = false).
  { destruct Hsetup as [H _]. rewrite H, Hc0. exact Hcapped. }
  assert (Hst1 : _oplogStones rs1' = None).
  { destruct Hsetup as [_ [_ [_ [_ [_ [_ [_ [_ [_ [_ [_ H]]]]]]]]]]].
    rewrite H, Hst0. exact Hstones. }
  rewrite cappedDeleteAsNeeded_not_needed in Hcap;
    [|exact Hst1 | unfold cappedAndNeedDelete; rewrite Hc1; reflexivity].
  injection Hcap as _ <- <-.
  rewrite Ht0 in Ht1. rewrite Hn0 in Hn1. rewrite Hd0 in Hd1.
  replace (_numRecords rs <? 0) with false in Hn1
    by (symmetry; apply Z.ltb_ge; lia).
  replace (_dataSize rs <? 0) with false in Hd1
    by (symmetry; apply Z.ltb_ge; lia).
  rewrite wrap64_small in Hn1 by lia. rewrite wrap64_small in Hd1 by lia.
  assert (Hord1 : key_ordered (table rs1') = true)
    by (rewrite Ht1; apply wt_insert_ordered; exact Hord).
  assert (Hin1 : In (mkRec loc value) (table rs1'))
    by (rewrite Ht1; apply wt_insert_In).
  destruct (deleteRecord_run
              (addChange (addChange txn (NumRecordsChange 1))
                         (DataSizeChange (size value)))
              rs1' (mkRec loc value) Hc1 Hord1 Hin1)
    as [rs2 [Hdel [Ht2 [Hn2 [Hd2 _]]]]].
  cbn [id data] in *.
  eexists. exists rs2. split; [exact Hdel|].
  split; [rewrite Ht2, Ht1; apply wt_remove_insert; exact Hfresh|].
  split; [|split].
  - rewrite Hn2, Hn1.
    replace (_numRecords rs + 1 <? 0) with false
      by (symmetry; apply Z.ltb_ge; lia).
    rewrite wrap64_small by lia. lia.
  - rewrite Hd2, Hd1.
    replace (_dataSize rs + size value <? 0) with false
      by (symmetry; apply Z.ltb_ge; lia).
    rewrite wrap64_small by lia. lia.
  - unfold addChange. cbn [changes]. rewrite <- !app_assoc. reflexivity.
Qed.

Lemma insert_then_delete_witness :
  exists txn1 rs1,
    insertRecord quietEnv abc (freshTxn, plainStore)
    = Returns (SW_value 41, (txn1, rs1))
    /\ exists txn2 rs2,
         deleteRecord 41 (txn1, rs1) = Returns (tt, (txn2, rs2))
         /\ table rs2 = table plainStore
         /\ _numRecords rs2 = _numRecords plainStore
         /\ _dataSize rs2 = _dataSize plainStore
         /\ changes txn2 =
            changes freshTxn ++ [NumRecordsChange 1; DataSizeChange (size abc);
                                 NumRecordsChange (-1);
                                 DataSizeChange (- size abc)].
Proof.
  do 2 eexists. split; [vm_compute; reflexivity|].
  eapply (insert_then_delete quietEnv abc freshTxn _ plainStore _ 41).
  - reflexivity.
  - reflexivity.
  - reflexivity.
  - simpl. intros r [<-|[<-|[<-|[]]]]; discriminate.
  - vm_compute. split; [discriminate | reflexivity].
  - vm_compute. discriminate.
  - vm_compute. reflexivity.
  - vm_compute. reflexivity.
Defined.

(** ** Inserting into the oplog, and inserts the engine refuses *)

(** X26.  On a store that extracts oplog keys the id of an insert is the key
    of the document: a document without a valid key is refused with the
    status of the extraction and nothing changes; a successful insert
    returns the extracted key, raises the highest id seen to it when it is
    higher, and neither allocates an id nor touches the uncommitted ids. *)
Theorem insertRecord_oplog_key (env : Env) (value : RecordData)
        (txn : OperationContext) (rs : WiredTigerRecordStore) :
  _useOplogHack rs = true ->
  _isCapped rs && (_cappedMaxSize rs <? size value) = false ->
  (forall code, extractKey env value = SW_status code ->
     insertRecord env value (txn, rs) = Returns (SW_status code, (txn, rs)))
  /\ (forall loc txn' rs',
        key_ordered (table rs) = true ->
        insertRecord env value (txn, rs) = Returns (SW_value loc, (txn', rs')) ->
        extractKey env value = SW_value loc
        /\ _oplog_highestSeen rs' = Z.max (_oplog_highestSeen rs) loc
        /\ _uncommittedDiskLocs rs' = _uncommittedDiskLocs rs
        /\ _nextIdNum rs' = _nextIdNum rs).
Proof.
  intros Hhack Hfits. split.
  - intros code Hkey.
    unfold insertRecord, bind, getRS, ret. cbn [fst snd].
    rewrite Hfits, Hhack, Hkey. reflexivity.
  - intros loc txn' rs' Hord Hrun.
    destruct (insertRecord_setup _ _ _ _ _ _ _ Hord Hrun)
      as [txn0 [rs0 [Hid [Hsetup _]]]].
    unfold idChosen in Hid. rewrite Hhack in Hid.
    destruct Hid as [Hkey [_ Hrs0]].
    destruct Hsetup as [_ [_ [_ [_ [_ [_ [_ [Hu [Hseen [Hnext _]]]]]]]]]].
    split; [exact Hkey|].
    rewrite Hu, Hseen, Hnext, Hrs0.
    destruct (_oplog_highestSeen rs <? loc) eqn:E.
    + apply Z.ltb_lt in E. destruct rs. cbn in *.
      repeat split. lia.
    + apply Z.ltb_ge in E. repeat split. lia.
Qed.

Lemma insertRecord_oplog_key_witness :
  insertRecord quietEnv abc (freshTxn, oplogStore)
  = Returns (SW_status BadValue, (freshTxn, oplogStore))
  /\ exists txn' rs',
       insertRecord keyedEnv abc (freshTxn, oplogStore)
       = Returns (SW_value 30, (txn', rs'))
       /\ extractKey keyedEnv abc = SW_value 30
       /\ _oplog_highestSeen rs' = Z.max (_oplog_highestSeen oplogStore) 30
       /\ _uncommittedDiskLocs rs' = _uncommittedDiskLocs oplogStore
       /\ _nextIdNum rs' = _nextIdNum oplogStore.
Proof.
  split.
  - apply (insertRecord_oplog_key quietEnv abc freshTxn oplogStore);
      reflexivity.
  - do 2 eexists. split; [vm_compute; reflexivity|].
    eapply (insertRecord_oplog_key keyedEnv abc freshTxn oplogStore).
    + reflexivity.
    + reflexivity.
    + reflexivity.
    + vm_compute. reflexivity.
Defined.

(** X27.  An insert the engine refuses, on a store that allocates its own
    ids.  When the engine reports a write conflict (WT_ROLLBACK) the call
    leaves with a WriteConflictException.  For any other return code but
    that of a panic an error status comes back and no id; the table and
    both counters are as they were, but the id is spent (the counter has
    moved on), and on a capped collection the id has joined the uncommitted
    ids with its [CappedInsertChange] registered; on a collection that is
    not capped the operation context is unchanged. *)
Theorem insertRecord_engine_failure (env : Env) (value : RecordData)
        (txn : OperationContext) (rs : WiredTigerRecordStore) :
  insertRet env <> 0 ->
  _useOplogHack rs = false ->
  isNormal (_nextIdNum rs) = true ->
  _isCapped rs && (_cappedMaxSize rs <? size value) = false ->
  (insertRet env = WT_ROLLBACK ->
   insertRecord env value (txn, rs) = Throws WriteConflictException)
  /\ (insertRet env <> WT_ROLLBACK ->
      insertRet env <> WT_PANIC ->
      exists code txn' rs',
        insertRecord env value (txn, rs)
        = Returns (SW_status code, (txn', rs'))
        /\ table rs' = table rs
        /\ _numRecords rs' = _numRecords rs
        /\ _dataSize rs' = _dataSize rs
        /\ _nextIdNum rs' = _nextIdNum rs + 1
        /\ if _isCapped rs
           then _uncommittedDiskLocs rs'
                = _uncommittedDiskLocs rs ++ [_nextIdNum rs]
                /\ changes txn'
                   = changes txn ++ [CappedInsertChange (_nextIdNum rs)]
           else _uncommittedDiskLocs rs' = _uncommittedDiskLocs rs
                /\ txn' = txn).
Proof.
  intros Hret Hhack Hnormal Hfits.
  assert (Hw : wrap64 (_nextIdNum rs + 1) = _nextIdNum rs + 1).
  { apply wrap64_small. unfold isNormal in Hnormal.
    apply andb_prop in Hnormal. destruct Hnormal as [Ha Hb].
    apply Z.ltb_lt in Ha. apply Z.ltb_lt in Hb. lia. }
  apply Z.eqb_neq in Hret.
  destruct rs. cbn [_useOplogHack _nextIdNum _isCapped _cappedMaxSize table
                    _numRecords _dataSize _uncommittedDiskLocs] in *.
  subst _useOplogHack0.
  unfold insertRecord, _nextId, _addUncommitedDiskLoc_inlock, wtRCToStatus,
    bind, getRS, invariant, modifyRS, registerChange, ret, throw, abort,
    fetchAndAdd.
  cbn -[wrap64 isNormal Z.add Z.eqb Z.ltb size].
  rewrite Hfits.
  split.
  - intros Hroll.
    assert (Hr : (insertRet env =? WT_ROLLBACK) = true)
      by (apply Z.eqb_eq; exact Hroll).
    destruct _isCapped0; cbn -[wrap64 isNormal Z.add Z.eqb Z.ltb size];
      rewrite Hnormal; cbn -[wrap64 isNormal Z.add Z.eqb Z.ltb size];
      rewrite Hret; cbn -[wrap64 isNormal Z.add Z.eqb Z.ltb size];
      rewrite Hr; reflexivity.
  - intros Hroll Hpanic.
    apply Z.eqb_neq in Hroll. apply Z.eqb_neq in Hpanic.
    destruct _isCapped0; cbn -[wrap64 isNormal Z.add Z.eqb Z.ltb size];
      rewrite Hnormal; cbn -[wrap64 isNormal Z.add Z.eqb Z.ltb size];
      rewrite Hret; cbn -[wrap64 isNormal Z.add Z.eqb Z.ltb size];
      rewrite Hroll, Hpanic;
      do 3 eexists; (split; [reflexivity|]);
      cbn -[wrap64 isNormal Z.add Z.eqb Z.ltb size]; rewrite Hw; auto 10.
Qed.

Lemma insertRecord_engine_failure_witness :
  insertRecord (refusingEnv WT_ROLLBACK) abc (freshTxn, evictedStore)
  = Throws WriteConflictException
  /\ exists code txn' rs',
       insertRecord (refusingEnv 5) abc (freshTxn, evictedStore)
       = Returns (SW_status code, (txn', rs'))
       /\ table rs' = table evictedStore
       /\ _numRecords rs' = _numRecords evictedStore
       /\ _dataSize rs' = _dataSize evictedStore
       /\ _nextIdNum rs' = _nextIdNum evictedStore + 1
       /\ _uncommittedDiskLocs rs'
          = _uncommittedDiskLocs evictedStore ++ [_nextIdNum evictedStore]
       /\ changes txn'
          = changes freshTxn ++ [CappedInsertChange (_nextIdNum evictedStore)].
Proof.
  split.
  - apply (insertRecord_engine_failure (refusingEnv WT_ROLLBACK) abc freshTxn
             evictedStore); try reflexivity. discriminate.
  - apply (insertRecord_engine_failure (refusingEnv 5) abc freshTxn
             evictedStore); try reflexivity; discriminate.
Defined.
